(** * The staged discrete weighted transform of [util/dwt_gpu.hpp]

    A shallow embedding of the four stage kernels ([DwtGapLE4],
    [DwtLargeGap], [DwtLastRound], [DwtLastRoundScalar]) and of the
    orchestrator [Dwt_gpu::operator()], with the serial loop nests of its
    [#else] branches, followed by the properties of the transform engine.

    Modelling conventions.
    - The coefficient buffer [values_] is a [list Z]; a read or a write
      through a pointer that leaves the buffer is undefined behaviour in
      C++ and is the outcome [Fault] here, as is a division by zero.
    - [ValueType] is an unsigned word of [value_bits] bits: the arithmetic
      this file performs on it ([modulus << 1], the conditional
      subtractions of the last round) is written with its wrap-around.
    - [std::size_t] indices are [nat]: for [log_n] below the width of
      [size_t] no index expression of the engine exceeds [n = 2^log_n]
      (see [reachable_control] and the slot bounds), so none wraps.
    - The parameter [rounds] of the kernels is an [int], of 32 bits, while
      the orchestrator counts [total_r] in a [std::size_t], of 64 bits:
      every kernel is built from [int_rounds total_r], the value the index
      [rounds_ + i] sees after the conversion to [int] and back.  The two
      agree up to [total_r = 2^30], that is for [log_n <= 31]; the
      properties of a whole call are stated for that range.  The member
      [log_n_] of the kernels is never read and is left out.
    - [queue_.submit(... parallel_for(range, kernel) ...).wait()] runs the
      kernel on the work items [0 .. range-1]; the units of one dispatch
      touch pairwise disjoint slots, so the order is immaterial
      (see [stage_order_irrelevant]); the model runs them in ascending
      order and records the dispatch in the log of the queue. *)

From Stdlib Require Import ZArith Lia.
From stdpp Require Import base list.

Local Open Scope nat_scope.

(** ** Outcomes of a computation *)

Inductive outcome (A : Type) : Type :=
  | Done (a : A)
  | Fault
  | OutOfFuel.

Arguments Done {A} a.
Arguments Fault {A}.
Arguments OutOfFuel {A}.

#[global] Instance outcome_ret : MRet outcome := fun A a => Done a.

#[global] Instance outcome_bind : MBind outcome := fun A B f o =>
  match o with
  | Done a => f a
  | Fault => Fault
  | OutOfFuel => OutOfFuel
  end.

(** [p[i]] for a pointer into an array of [length l] elements. *)
Definition load {A : Type} (l : list A) (i : nat) : outcome A :=
  match l !! i with
  | Some a => Done a
  | None => Fault
  end.

(** [p[i] = a]. *)
Definition store {A : Type} (l : list A) (i : nat) (a : A) : outcome (list A) :=
  if decide (i < length l) then Done (<[i:=a]> l) else Fault.

(** ** The arithmetic interface of [util/dwt_arith.h]

    The header is not part of the sources at hand; the engine is
    parameterised by its six primitives and by the width of [ValueType]. *)

Class DwtArith (RootType ScalarType : Type) : Type := {
  value_bits : Z;
  dwt_guard : Z -> Z -> Z;
  dwt_mul_root : Z -> RootType -> Z -> Z;
  dwt_add : Z -> Z -> Z;
  dwt_sub : Z -> Z -> Z -> Z;
  dwt_mul_scalar : Z -> ScalarType -> Z -> Z;
  dwt_mul_root_scalar : RootType -> ScalarType -> Z -> RootType
}.

(** ** The kernels handed to [parallel_for] *)

Inductive kernel (ScalarType : Type) : Type :=
  | GapLE4 (gap rounds : nat)
  | LargeGap (Unroll gap rounds : nat)
  | LastRound (rounds : nat)
  | LastRoundScalar (rounds : nat) (scalar : ScalarType).

Arguments GapLE4 {ScalarType} gap rounds.
Arguments LargeGap {ScalarType} Unroll gap rounds.
Arguments LastRound {ScalarType} rounds.
Arguments LastRoundScalar {ScalarType} rounds scalar.

(** The queue owns the buffer and remembers what was submitted to it. *)
Record queue (ScalarType : Type) : Type := {
  q_values : list Z;
  q_log : list (nat * kernel ScalarType)
}.

Arguments Build_queue {ScalarType} _ _.
Arguments q_values {ScalarType} _.
Arguments q_log {ScalarType} _.

(** The variables of the stage loop of [Dwt_gpu::operator()]. *)
Record loop_state (ScalarType : Type) : Type := {
  ls_gap : nat;
  ls_m : nat;
  ls_total_r : nat;
  ls_queue : queue ScalarType
}.

Arguments Build_loop_state {ScalarType} _ _ _ _.
Arguments ls_gap {ScalarType} _.
Arguments ls_m {ScalarType} _.
Arguments ls_total_r {ScalarType} _.
Arguments ls_queue {ScalarType} _.

(** Work items are run one after the other. *)
Fixpoint run_units (k : nat -> list Z -> outcome (list Z)) (inds : list nat)
    (values : list Z) : outcome (list Z) :=
  match inds with
  | [] => Done values
  | ind :: rest => values' ← k ind values; run_units k rest values'
  end.

Definition parallel_for (range : nat) (k : nat -> list Z -> outcome (list Z))
    (values : list Z) : outcome (list Z) :=
  run_units k (seq 0 range) values.

(** ** The [int] parameter [rounds] of the kernels

    The orchestrator keeps [total_r] in a [std::size_t] and hands it to
    constructors that take an [int rounds] (lines 77, 119, 166, 207); the
    kernels index [roots_[rounds_ + i]] with an [i] of the index type, so
    [rounds_] is converted back to [std::size_t].  With an [int] of 32 and
    a [std::size_t] of 64 bits, [int_rounds t] is the value this index
    arithmetic sees for the argument [t]: the low 32 bits of [t] when they
    are below [2^31], and [2^64] plus the negative [int] otherwise. *)
Definition int_rounds (t : nat) : nat :=
  let w := (Z.of_nat t mod 2 ^ 32)%Z in
  Z.to_nat (if (w <? 2 ^ 31)%Z then w else 2 ^ 64 - 2 ^ 32 + w)%Z.

Section Engine.
Context {RootType ScalarType : Type} `{Arith : DwtArith RootType ScalarType}.

(** Reduction of an integer to [ValueType]. *)
Definition wrap (x : Z) : Z := (x mod 2 ^ value_bits)%Z.

(** [two_times_modulus_ = (modulus << 1)], in every constructor. *)
Definition two_times (modulus : Z) : Z := wrap (Z.shiftl modulus 1).

Section Kernels.
Variable modulus : Z.
Variable roots : list RootType.

(** The four statements shared by [DwtGapLE4::operator()] (lines 99-102)
    and by the loop body of [DwtLargeGap::operator()] (lines 143-146),
    on the slots [values_ + x] and [values_ + y]. *)
Definition butterfly (r : RootType) (x y : nat) (values : list Z)
    : outcome (list Z) :=
  vx ← load values x;
  vy ← load values y;
  let u := dwt_guard vx (two_times modulus) in
  let v := dwt_mul_root vy r modulus in
  values1 ← store values x (dwt_add u v);
  store values1 y (dwt_sub u v (two_times modulus)).

(** [offset] of [DwtGapLE4::operator()]. *)
Definition DwtGapLE4_offset (gap ind : nat) : nat :=
  ind / gap * Nat.shiftl gap 1 + ind mod gap.

Definition DwtGapLE4 (gap rounds : nat) (ind : nat) (values : list Z)
    : outcome (list Z) :=
  if decide (gap = 0) then Fault else
  let i := ind / gap in
  r ← load roots (rounds + i);
  let offset := DwtGapLE4_offset gap ind in
  let x := offset in
  let y := x + gap in
  butterfly r x y values.

(** [offset] of [DwtLargeGap::operator()]. *)
Definition DwtLargeGap_offset (Unroll gap ind : nat) : nat :=
  ind / (gap / Unroll) * Nat.shiftl gap 1 + ind mod (gap / Unroll) * Unroll.

(** [for (int k = 0; k < Unroll; k++) { ...; *x++ = ...; *y++ = ...; }] *)
Fixpoint unrolled (k : nat) (r : RootType) (x y : nat) (values : list Z)
    : outcome (list Z) :=
  match k with
  | O => Done values
  | S k' => values' ← butterfly r x y values; unrolled k' r (S x) (S y) values'
  end.

Definition DwtLargeGap (Unroll gap rounds : nat) (ind : nat) (values : list Z)
    : outcome (list Z) :=
  if decide (gap / Unroll = 0) then Fault else
  let i := ind / (gap / Unroll) in
  r ← load roots (rounds + i);
  let offset := DwtLargeGap_offset Unroll gap ind in
  let x := offset in
  let y := x + gap in
  unrolled Unroll r x y values.

(** [w -= (w >= two_times_modulus_) ? two_times_modulus_ : 0;]
    [w - ((w >= modulus_) ? modulus_ : 0)], lines 187-190 and 229-232. *)
Definition full_reduce (w : Z) : Z :=
  let w1 := wrap (w - (if (two_times modulus <=? w)%Z then two_times modulus else 0)) in
  wrap (w1 - (if (modulus <=? w1)%Z then modulus else 0)).

Definition DwtLastRound (rounds : nat) (i : nat) (values : list Z)
    : outcome (list Z) :=
  r ← load roots (rounds + i);
  u ← load values (2 * i);
  v ← load values (2 * i + 1);
  let u := dwt_guard u (two_times modulus) in
  let v := dwt_mul_root v r modulus in
  let v0 := dwt_add u v in
  let v1 := dwt_sub u v (two_times modulus) in
  let u := full_reduce v0 in
  let v := full_reduce v1 in
  values1 ← store values (2 * i) u;
  store values1 (2 * i + 1) v.

Definition DwtLastRoundScalar (rounds : nat) (scalar : ScalarType) (i : nat)
    (values : list Z) : outcome (list Z) :=
  r ← load roots (rounds + i);
  u ← load values (2 * i);
  v ← load values (2 * i + 1);
  let scaled_r := dwt_mul_root_scalar r scalar modulus in
  let u := dwt_mul_scalar (dwt_guard u (two_times modulus)) scalar modulus in
  let v := dwt_mul_root v scaled_r modulus in
  let v0 := dwt_add u v in
  let v1 := dwt_sub u v (two_times modulus) in
  let v := full_reduce v0 in
  let u := full_reduce v1 in
  values1 ← store values (2 * i) u;
  store values1 (2 * i + 1) v.

(** [operator()] of a kernel object. *)
Definition run_kernel (k : kernel ScalarType) : nat -> list Z -> outcome (list Z) :=
  match k with
  | GapLE4 gap rounds => DwtGapLE4 gap rounds
  | LargeGap Unroll gap rounds => DwtLargeGap Unroll gap rounds
  | LastRound rounds => DwtLastRound rounds
  | LastRoundScalar rounds scalar => DwtLastRoundScalar rounds scalar
  end.

(** The index of [roots_] a work item reads. *)
Definition root_index (k : kernel ScalarType) (ind : nat) : nat :=
  match k with
  | GapLE4 gap rounds => rounds + ind / gap
  | LargeGap Unroll gap rounds => rounds + ind / (gap / Unroll)
  | LastRound rounds => rounds + ind
  | LastRoundScalar rounds _ => rounds + ind
  end.

(** [queue_.submit([&](handler& h) { h.parallel_for(range, k); }).wait()] *)
Definition submit (range : nat) (k : kernel ScalarType) (q : queue ScalarType)
    : outcome (queue ScalarType) :=
  values' ← parallel_for range (run_kernel k) (q_values q);
  Done (Build_queue values' (q_log q ++ [(range, k)])).

(** [static const int unroll = 4;] *)
Definition unroll : nat := 4.

(** The loop test [m < (n >> 1)]. *)
Definition stage_cond (n : nat) (st : loop_state ScalarType) : bool :=
  bool_decide (ls_m st < Nat.shiftr n 1).

(** One pass through the body of the stage loop, with its increment
    [total_r += m, m <<= 1]. *)
Definition stage_body (st : loop_state ScalarType) : outcome (loop_state ScalarType) :=
  let gap := Nat.shiftr (ls_gap st) 1 in
  let m := ls_m st in
  let total_r := ls_total_r st in
  q' ← (if decide (gap < 4)
        then submit (m * gap) (GapLE4 gap (int_rounds total_r)) (ls_queue st)
        else submit (m * gap / unroll) (LargeGap unroll gap (int_rounds total_r))
               (ls_queue st));
  Done (Build_loop_state gap (Nat.shiftl m 1) (total_r + m) q').

Fixpoint stage_loop (fuel : nat) (n : nat) (st : loop_state ScalarType)
    : outcome (loop_state ScalarType) :=
  if stage_cond n st then
    match fuel with
    | O => OutOfFuel
    | S fuel' => st' ← stage_body st; stage_loop fuel' n st'
    end
  else Done st.

(** [gap = n], [m = 1], [total_r = 1]. *)
Definition initial_state (n : nat) (values : list Z) : loop_state ScalarType :=
  Build_loop_state n 1 1 (Build_queue values []).

(** [Dwt_gpu::operator()]; [scalar_ != nullptr] is [Some]. *)
Definition Dwt_gpu (log_n : nat) (scalar : option ScalarType) (values : list Z)
    : outcome (queue ScalarType) :=
  let n := Nat.shiftl 1 log_n in
  st ← stage_loop log_n n (initial_state n values);
  match scalar with
  | Some s => submit (ls_m st) (LastRoundScalar (int_rounds (ls_total_r st)) s)
                (ls_queue st)
  | None => submit (ls_m st) (LastRound (int_rounds (ls_total_r st))) (ls_queue st)
  end.

(** The states at the start of the iterations of the stage loop. *)
Inductive at_iteration (log_n : nat) (values : list Z)
    : nat -> loop_state ScalarType -> Prop :=
  | at_first : at_iteration log_n values 0 (initial_state (2 ^ log_n) values)
  | at_next k st st' :
      at_iteration log_n values k st ->
      stage_cond (2 ^ log_n) st = true ->
      stage_body st = Done st' ->
      at_iteration log_n values (S k) st'.

End Kernels.
End Engine.

(** ** The serial path of [Dwt_gpu::operator()]

    Every dispatch of the orchestrator is the [#if 1] branch of a
    conditional whose [#else] branch is a loop nest of the host over the
    same buffer (lines 285-307, 320-357, 375-397 and 409-430). *)

(** [for (std::size_t i = 0; i < m; i++) body], over the values
    [seq 0 m] of [i]. *)
Fixpoint serial_for {State : Type} (body : nat -> State -> outcome State)
    (inds : list nat) (s : State) : outcome State :=
  match inds with
  | [] => Done s
  | i :: rest => s' ← body i s; serial_for body rest s'
  end.

(** The loop variables of the serial engine. *)
Record serial_state : Type := {
  sv_gap : nat;
  sv_m : nat;
  sv_total_r : nat;
  sv_values : list Z
}.

Section Serial.
Context {RootType ScalarType : Type} `{Arith : DwtArith RootType ScalarType}.
Variable modulus : Z.
Variable roots : list RootType.

(** One pass of the outer loop of lines 292-307.  The inner loop
    [for (j = 0; j < gap; j++)] repeats the four butterfly statements
    with [*x++] and [*y++], as the loop of [DwtLargeGap::operator()]
    does [Unroll] times. *)
Definition serial_small_gap_group (gap total_r : nat) (i : nat) (values : list Z)
    : outcome (list Z) :=
  let offset := i * Nat.shiftl gap 1 in
  r ← load roots (total_r + i);
  let x := offset in
  let y := x + gap in
  unrolled modulus gap r x y values.

(** [for (std::size_t j = 0; j < gap; j += unroll)] with its four copies
    of the butterfly statements, lines 335-356. *)
Fixpoint serial_unrolled_loop (fuel : nat) (gap j : nat) (r : RootType)
    (x y : nat) (values : list Z) : outcome (list Z) :=
  if decide (j < gap) then
    match fuel with
    | O => OutOfFuel
    | S fuel' =>
        values1 ← butterfly modulus r x y values;
        values2 ← butterfly modulus r (x + 1) (y + 1) values1;
        values3 ← butterfly modulus r (x + 2) (y + 2) values2;
        values4 ← butterfly modulus r (x + 3) (y + 3) values3;
        serial_unrolled_loop fuel' gap (j + unroll) r (x + 4) (y + 4) values4
    end
  else Done values.

(** One pass of the outer loop of lines 327-357. *)
Definition serial_large_gap_group (gap total_r : nat) (i : nat) (values : list Z)
    : outcome (list Z) :=
  let offset := i * Nat.shiftl gap 1 in
  r ← load roots (total_r + i);
  let x := offset in
  let y := x + gap in
  serial_unrolled_loop gap gap 0 r x y values.

(** One pass of the loop of lines 375-397.  The loop reads
    [values_[2 * i]] and [values_[2 * i + 1]], writes [values_[0]] and
    [values_[1]] and then advances the member [values_] by two; [base] is
    the distance of [values_] from the start of the buffer. *)
Definition serial_last_scalar_step (total_r : nat) (scalar : ScalarType) (i : nat)
    (st : nat * list Z) : outcome (nat * list Z) :=
  let base := st.1 in
  let values := st.2 in
  r ← load roots (total_r + i);
  u ← load values (base + 2 * i);
  v ← load values (base + (2 * i + 1));
  let scaled_r := dwt_mul_root_scalar r scalar modulus in
  let u := dwt_mul_scalar (dwt_guard u (two_times modulus)) scalar modulus in
  let v := dwt_mul_root v scaled_r modulus in
  let v0 := dwt_add u v in
  let v1 := dwt_sub u v (two_times modulus) in
  let v := full_reduce modulus v0 in
  let u := full_reduce modulus v1 in
  values1 ← store values (base + 0) u;
  values2 ← store values1 (base + 1) v;
  Done (base + 2, values2).

(** The body of the stage loop with the serial branches; the loop of
    lines 409-430 has the statements of [DwtLastRound::operator()]. *)
Definition serial_stage_body (st : serial_state) : outcome serial_state :=
  let gap := Nat.shiftr (sv_gap st) 1 in
  let m := sv_m st in
  let total_r := sv_total_r st in
  values' ← (if decide (gap < 4)
             then serial_for (serial_small_gap_group gap total_r) (seq 0 m) (sv_values st)
             else serial_for (serial_large_gap_group gap total_r) (seq 0 m) (sv_values st));
  Done (Build_serial_state gap (Nat.shiftl m 1) (total_r + m) values').

Fixpoint serial_stage_loop (fuel : nat) (n : nat) (st : serial_state)
    : outcome serial_state :=
  if bool_decide (sv_m st < Nat.shiftr n 1) then
    match fuel with
    | O => OutOfFuel
    | S fuel' => st' ← serial_stage_body st; serial_stage_loop fuel' n st'
    end
  else Done st.

(** [Dwt_gpu::operator()] with the [#else] branches: the distance the
    member [values_] has moved, and the buffer. *)
Definition Dwt_serial (log_n : nat) (scalar : option ScalarType) (values : list Z)
    : outcome (nat * list Z) :=
  let n := Nat.shiftl 1 log_n in
  st ← serial_stage_loop log_n n (Build_serial_state n 1 1 values);
  match scalar with
  | Some s =>
      serial_for (serial_last_scalar_step (sv_total_r st) s) (seq 0 (sv_m st))
                 (0, sv_values st)
  | None =>
      values' ← serial_for (DwtLastRound modulus roots (sv_total_r st))
                           (seq 0 (sv_m st)) (sv_values st);
      Done (0, values')
  end.

End Serial.

(** Modelled from the spec: the primitives of [util/dwt_arith.h], which is
    not among the sources.  Section 4.1 and the glossary describe [guard]
    as a conditional subtraction of [2M], [add] as an addition without
    reduction, [sub] as kept non-negative by a conditional addition of
    [2M]; section 6 gives the three multiplications as products modulo
    [M].  Roots and scalars are plain residues, words have 64 bits. *)
#[global] Instance spec_arith : DwtArith Z Z := {|
  value_bits := 64;
  dwt_guard x two_m := (if two_m <=? x then x - two_m else x)%Z;
  dwt_mul_root y r modulus := ((y * r) mod modulus)%Z;
  dwt_add u v := ((u + v) mod 2 ^ 64)%Z;
  dwt_sub u v two_m := (if u <? v then u + two_m - v else u - v)%Z;
  dwt_mul_scalar u s modulus := ((u * s) mod modulus)%Z;
  dwt_mul_root_scalar r s modulus := ((r * s) mod modulus)%Z
|}.


(** * Notions used to state the properties *)

(** ** Dispatches of pair updates *)

(** Read slots [x] and [y], then overwrite them with [f] and [g] of the
    two values read: the shape of every kernel of the engine. *)
Definition pair_update (f g : Z -> Z -> Z) (x y : nat) (values : list Z)
    : outcome (list Z) :=
  vx ← load values x;
  vy ← load values y;
  values1 ← store values x (f vx vy);
  store values1 y (g vx vy).

(** What a dispatch of pair updates leaves in the buffer: every unit of
    [inds] has replaced its two slots by [F] and [G] of the values they
    held before the dispatch; all other slots are as before. *)
Record dispatched (X Y : nat -> nat) (F G : nat -> Z -> Z -> Z)
    (inds : list nat) (before after : list Z) : Prop := {
  dispatched_length : length after = length before;
  dispatched_units : forall ind, ind ∈ inds ->
    exists vx vy, before !! X ind = Some vx /\ before !! Y ind = Some vy /\
      after !! X ind = Some (F ind vx vy) /\ after !! Y ind = Some (G ind vx vy);
  dispatched_frame : forall p, (forall ind, ind ∈ inds -> p <> X ind /\ p <> Y ind) ->
    after !! p = before !! p
}.

(** No two units share a slot, and no unit is given one slot twice. *)
Definition disjoint_slots (X Y : nat -> nat) (inds : list nat) : Prop :=
  (forall a, a ∈ inds -> X a <> Y a) /\
  (forall a b, a ∈ inds -> b ∈ inds -> a <> b ->
     X a <> X b /\ X a <> Y b /\ Y a <> X b /\ Y a <> Y b).

(** ** What the kernels store *)

Section Terms.
Context {RootType ScalarType : Type} `{Arith : DwtArith RootType ScalarType}.
Variable modulus : Z.
Variable roots : list RootType.

(** The sum term [dwt_add(u, v)] and the difference term
    [dwt_sub(u, v, two_times_modulus_)] of a butterfly with root [r], from
    the two values it loaded. *)
Definition butterfly_x (r : RootType) (vx vy : Z) : Z :=
  dwt_add (dwt_guard vx (two_times modulus)) (dwt_mul_root vy r modulus).

Definition butterfly_y (r : RootType) (vx vy : Z) : Z :=
  dwt_sub (dwt_guard vx (two_times modulus)) (dwt_mul_root vy r modulus)
          (two_times modulus).

(** What the unit [ind] of a small-gap dispatch stores in its two slots. *)
Definition stage_x (gap rounds ind : nat) (vx vy : Z) : Z :=
  match roots !! (rounds + ind / gap) with
  | Some r => butterfly_x r vx vy
  | None => vx
  end.

Definition stage_y (gap rounds ind : nat) (vx vy : Z) : Z :=
  match roots !! (rounds + ind / gap) with
  | Some r => butterfly_y r vx vy
  | None => vy
  end.

(** The sum and the difference term of the butterfly with scalar: [u] is
    scaled by the scalar, [v] multiplied by the scaled root. *)
Definition scaled_sum (r : RootType) (s : ScalarType) (vx vy : Z) : Z :=
  dwt_add (dwt_mul_scalar (dwt_guard vx (two_times modulus)) s modulus)
          (dwt_mul_root vy (dwt_mul_root_scalar r s modulus) modulus).

Definition scaled_diff (r : RootType) (s : ScalarType) (vx vy : Z) : Z :=
  dwt_sub (dwt_mul_scalar (dwt_guard vx (two_times modulus)) s modulus)
          (dwt_mul_root vy (dwt_mul_root_scalar r s modulus) modulus)
          (two_times modulus).

(** What unit [i] of the last round stores in slots [2i] and [2i+1]. *)
Definition last_x (rounds i : nat) (vx vy : Z) : Z :=
  match roots !! (rounds + i) with
  | Some r => full_reduce modulus (butterfly_x r vx vy)
  | None => vx
  end.

Definition last_y (rounds i : nat) (vx vy : Z) : Z :=
  match roots !! (rounds + i) with
  | Some r => full_reduce modulus (butterfly_y r vx vy)
  | None => vy
  end.

Definition last_scalar_x (rounds : nat) (s : ScalarType) (i : nat) (vx vy : Z) : Z :=
  match roots !! (rounds + i) with
  | Some r => full_reduce modulus (scaled_diff r s vx vy)
  | None => vx
  end.

Definition last_scalar_y (rounds : nat) (s : ScalarType) (i : nat) (vx vy : Z) : Z :=
  match roots !! (rounds + i) with
  | Some r => full_reduce modulus (scaled_sum r s vx vy)
  | None => vy
  end.

End Terms.

(** The two slots [x] and [y = x + gap_] of unit [ind] of an interior
    stage. *)
Definition stage_slot_x (gap ind : nat) : nat := DwtGapLE4_offset gap ind.
Definition stage_slot_y (gap ind : nat) : nat := DwtGapLE4_offset gap ind + gap.

(** The two slots of unit [i] of the last round. *)
Definition last_slot_x (i : nat) : nat := 2 * i.
Definition last_slot_y (i : nat) : nat := 2 * i + 1.

(** The slots the pointers [x] and [y] of a unit run over. *)
Definition DwtGapLE4_slots (gap ind : nat) : list nat :=
  [DwtGapLE4_offset gap ind; DwtGapLE4_offset gap ind + gap].

Definition DwtLargeGap_slots (Unroll gap ind : nat) : list nat :=
  flat_map (fun k => [DwtLargeGap_offset Unroll gap ind + k;
                      DwtLargeGap_offset Unroll gap ind + gap + k])
           (seq 0 Unroll).

(** A unit that completes on the buffer and writes exactly [slots], a
    duplicate-free list of slots below [n]: every slot of the list belongs
    to a pair [x], [x + gap] of the list in which the unit has stored the
    sum and the difference term of the butterfly with root [r] of the two
    values the pair held, and no slot outside the list has changed. *)
Definition writes_exactly {RootType ScalarType : Type} `{Arith : DwtArith RootType ScalarType}
    (modulus : Z) (r : RootType) (gap : nat) (slots : list nat) (n : nat)
    (unit : list Z -> outcome (list Z)) (values : list Z) : Prop :=
  NoDup slots /\
  (forall p, p ∈ slots -> p < n) /\
  exists after, unit values = Done after /\
    length after = length values /\
    (forall p, p ∉ slots -> after !! p = values !! p) /\
    (forall p, p ∈ slots ->
       exists x vx vy,
         (p = x \/ p = x + gap) /\ x ∈ slots /\ x + gap ∈ slots /\
         values !! x = Some vx /\ values !! (x + gap) = Some vy /\
         after !! x = Some (butterfly_x modulus r vx vy) /\
         after !! (x + gap) = Some (butterfly_y modulus r vx vy)).

(** ** The schedule of the orchestrator *)

(** [1 + 2^0 + ... + 2^(k-1)]: the reserved entry and the roots of the
    [k] stages already run. *)
Definition roots_consumed (k : nat) : nat :=
  1 + sum_list_with (fun j => 2 ^ j) (seq 0 k).

(** The dispatch of interior iteration [k] as section 4.4 of the
    specification words it: stage gap [n / 2^(k+1)], [m = 2^k] groups, the
    small-gap kernel over [m * gap] units below gap 4 and the large-gap
    kernel over [m * (gap / 4)] units otherwise. *)
Definition interior_dispatch {ScalarType : Type} (log_n k : nat)
    : nat * kernel ScalarType :=
  let m := 2 ^ k in
  let gap := 2 ^ log_n / 2 ^ (k + 1) in
  if decide (gap < 4)
  then (m * gap, GapLE4 gap (roots_consumed k))
  else (m * (gap / 4), LargeGap 4 gap (roots_consumed k)).

(** The gap the kernel of iteration [k] works with. *)
Definition stage_gap (log_n k : nat) : nat := 2 ^ (log_n - S k).

(** The kernel of the terminal stage. *)
Definition last_kernel {ScalarType : Type} (scalar : option ScalarType) (rounds : nat)
    : kernel ScalarType :=
  match scalar with
  | Some s => LastRoundScalar rounds s
  | None => LastRound rounds
  end.

(** The loop variables at the start of iteration [k]. *)
Record control {ScalarType : Type} (log_n : nat) (values0 : list Z)
    (k : nat) (st : loop_state ScalarType) : Prop := {
  control_k : k < log_n;
  control_m : ls_m st = 2 ^ k;
  control_gap : ls_gap st = 2 ^ (log_n - k);
  control_total_r : ls_total_r st = 2 ^ k;
  control_log : q_log (ls_queue st) = map (interior_dispatch log_n) (seq 0 k);
  control_length : length (q_values (ls_queue st)) = length values0
}.

(** ** The contracts of the arithmetic primitives *)

(** A value of the residue type below the bound [b]. *)
Definition below (b x : Z) : Prop := (0 <= x < b)%Z.

Section ContractDefs.
Context {RootType ScalarType : Type} `{Arith : DwtArith RootType ScalarType}.
Variable M : Z.

(** The modulus is positive and [2 * M] fits the residue type. *)
Definition word_fits : Prop := (0 < M /\ 2 * M < 2 ^ value_bits)%Z.

(** The ranges section 6 of the specification promises.  [D] is the set of
    buffer values on which [guard] and [mulRoot] keep their promise: all
    values for primitives that reduce whatever they are given, the values
    below [4 * M] for a guard that subtracts [2 * M] at most once. *)
Record range_contract_on (D : Z -> Prop) : Prop := {
  domain_4M : forall x, below (4 * M) x -> D x;
  guard_range : forall x, D x -> below (2 * M) (dwt_guard x (2 * M));
  mul_root_range : forall y r, D y -> below M (dwt_mul_root y r M);
  add_range : forall u v, below (2 * M) u -> below M v -> below (4 * M) (dwt_add u v);
  sub_range : forall u v, below (2 * M) u -> below M v ->
                below (4 * M) (dwt_sub u v (2 * M));
  mul_scalar_range : forall u s, below (2 * M) u -> below M (dwt_mul_scalar u s M)
}.

(** The contract for buffers that start out below [4 * M]. *)
Definition range_contract : Prop := range_contract_on (below (4 * M)).

(** The primitives compute what their names say, modulo [M]. *)
Record exact_contract (root_val : RootType -> Z) (scalar_val : ScalarType -> Z)
    : Prop := {
  guard_exact : forall x, below (4 * M) x ->
    (dwt_guard x (2 * M) mod M = x mod M)%Z;
  mul_root_exact : forall y r, below (4 * M) y ->
    (dwt_mul_root y r M mod M = (y * root_val r) mod M)%Z;
  add_exact : forall u v, below (2 * M) u -> below M v ->
    (dwt_add u v mod M = (u + v) mod M)%Z;
  sub_exact : forall u v, below (2 * M) u -> below M v ->
    (dwt_sub u v (2 * M) mod M = (u - v) mod M)%Z;
  mul_scalar_exact : forall u s, below (2 * M) u ->
    (dwt_mul_scalar u s M mod M = (u * scalar_val s) mod M)%Z;
  mul_root_scalar_exact : forall r s,
    (root_val (dwt_mul_root_scalar r s M) mod M = (root_val r * scalar_val s) mod M)%Z
}.

End ContractDefs.

(** ** Scaling, round trips, congruence *)

(** An independent pass that multiplies every slot by the scalar. *)
Definition scale_buffer {RootType ScalarType : Type} `{Arith : DwtArith RootType ScalarType}
    (modulus : Z) (s : ScalarType) (values : list Z) : list Z :=
  (fun x => dwt_mul_scalar x s modulus) <$> values.

(** Exchange the slots [2i] and [2i+1] of a buffer. *)
Fixpoint swap_pairs (l : list Z) : list Z :=
  match l with
  | a :: b :: rest => b :: a :: swap_pairs rest
  | _ => l
  end.

(** The buffer a call leaves. *)
Definition transform {RootType ScalarType : Type} `{Arith : DwtArith RootType ScalarType}
    (modulus : Z) (roots : list RootType) (log_n : nat) (scalar : option ScalarType)
    (values : list Z) : outcome (list Z) :=
  q ← Dwt_gpu modulus roots log_n scalar values; Done (q_values q).

(** The index with the [bits] low bits of [i] in reverse order. *)
Fixpoint reverse_bits (bits i : nat) : nat :=
  match bits with
  | O => 0
  | S b => i mod 2 * 2 ^ b + reverse_bits b (i / 2)
  end.

(** The buffer read in bit-reversed order. *)
Definition bit_reversed (log_n : nat) (l : list Z) : list Z :=
  (fun i => default 0%Z (l !! reverse_bits log_n i)) <$> seq 0 (length l).

(** Two buffers with the same residues modulo [M], slot by slot. *)
Definition congruent (M : Z) (a b : list Z) : Prop :=
  Forall2 (fun x y => (x mod M = y mod M)%Z) a b.


(** ** The serial path against the kernels *)

(** The loop variables of the serial engine that correspond to a state of
    the stage loop. *)
Definition to_serial {ScalarType : Type} (st : loop_state ScalarType) : serial_state :=
  Build_serial_state (ls_gap st) (ls_m st) (ls_total_r st) (q_values (ls_queue st)).

(** ** Buffers that go on behind the transform *)

(** The queue and the loop state over a buffer that goes on with the
    slots [e]. *)
Definition extend_queue {ScalarType : Type} (e : list Z) (q : queue ScalarType)
    : queue ScalarType :=
  Build_queue (q_values q ++ e) (q_log q).

Definition extend_state {ScalarType : Type} (e : list Z) (st : loop_state ScalarType)
    : loop_state ScalarType :=
  Build_loop_state (ls_gap st) (ls_m st) (ls_total_r st) (extend_queue e (ls_queue st)).

(** ** Dispatches whose work items may run in any order *)

(** On a buffer of [len] values, every enumeration of the work items of
    the dispatch [e] has the outcome of the ascending one. *)
Definition order_free {RootType ScalarType : Type} `{Arith : DwtArith RootType ScalarType}
    (modulus : Z) (roots : list RootType) (len : nat)
    (e : nat * kernel ScalarType) : Prop :=
  forall (inds : list nat) (vs : list Z),
    length vs = len -> inds ≡ₚ seq 0 e.1 ->
    run_units (run_kernel modulus roots e.2) inds vs
    = parallel_for e.1 (run_kernel modulus roots e.2) vs.

(** ** The transform as an evaluation of polynomials *)

(** The residue entry [t] of the root table stands for. *)
Definition root_at {RootType : Type} (root_val : RootType -> Z)
    (roots : list RootType) (t : nat) : Z :=
  from_option root_val 0%Z (roots !! t).

(** A stage of butterflies, up to congruence modulo [M]: every unit
    [ind] below [range] has replaced the values [vx] and [vy] of its two
    slots by values congruent to [vx + vy * r] and [vx - vy * r], [r] the
    residue of the root the unit reads. *)
Definition butterflies {RootType : Type} (M : Z) (root_val : RootType -> Z)
    (roots : list RootType) (gap rounds range : nat) (before after : list Z) : Prop :=
  forall ind, ind < range ->
    exists vx vy x' y',
      before !! stage_slot_x gap ind = Some vx /\
      before !! stage_slot_y gap ind = Some vy /\
      after !! stage_slot_x gap ind = Some x' /\
      after !! stage_slot_y gap ind = Some y' /\
      (x' mod M = (vx + vy * root_at root_val roots (rounds + ind / gap)) mod M)%Z /\
      (y' mod M = (vx - vy * root_at root_val roots (rounds + ind / gap)) mod M)%Z.

(** [a[j] + a[j + stride] * c + ... + a[j + (cnt-1) * stride] * c^(cnt-1)]:
    the coefficient of [X^j] in the remainder of the polynomial [a] modulo
    [X^stride - c], when [a] has [cnt * stride] coefficients. *)
Fixpoint strided_sum (a : list Z) (j stride : nat) (c : Z) (cnt : nat) : Z :=
  match cnt with
  | O => 0%Z
  | S cnt' => (strided_sum a j stride c cnt'
               + default 0 (a !! (j + cnt' * stride)%nat) * c ^ Z.of_nat cnt')%Z
  end.

(** The value at [x] of the polynomial with the coefficients [a]. *)
Fixpoint poly_eval (a : list Z) (x : Z) : Z :=
  match a with
  | [] => 0
  | c :: rest => c + x * poly_eval rest x
  end%Z.

(** The constant [c] of the block [i] of the buffer before stage [k]: the
    block holds the remainder modulo [X^(n / 2^k) - c]. *)
Definition block_point {RootType : Type} (root_val : RootType -> Z)
    (roots : list RootType) (k i : nat) : Z :=
  match k with
  | O => (-1)%Z
  | S k' => let r := root_at root_val roots (2 ^ k' + i / 2) in
            if Nat.even i then r else (- r)%Z
  end.

(** Before stage [k] the buffer holds, block by block, the remainders of
    the polynomial [a] modulo [X^(n / 2^k) - c], modulo [M]. *)
Definition remainders {RootType : Type} (M : Z) (root_val : RootType -> Z)
    (roots : list RootType) (a : list Z) (log_n k : nat) (values : list Z) : Prop :=
  forall p x, values !! p = Some x ->
    (x mod M
     = strided_sum a (p mod 2 ^ (log_n - k)) (2 ^ (log_n - k))
         (block_point root_val roots k (p / 2 ^ (log_n - k))) (2 ^ k) mod M)%Z.

(** The table is a tree of square roots: entry 1 is a square root of
    [-1], the entries [2t] and [2t+1] are square roots of entry [t] and of
    its negative. *)
Definition root_tree {RootType : Type} (M : Z) (root_val : RootType -> Z)
    (roots : list RootType) (n : nat) : Prop :=
  ((root_at root_val roots 1 ^ 2) mod M = (-1) mod M)%Z /\
  forall t, 1 <= t -> 2 * t + 1 < n ->
    ((root_at root_val roots (2 * t) ^ 2) mod M = root_at root_val roots t mod M)%Z /\
    ((root_at root_val roots (2 * t + 1) ^ 2) mod M = (- root_at root_val roots t) mod M)%Z.

(** The point at which slot [p] of the output evaluates the input: the
    root of the last-round unit [p / 2], negated in the odd slot. *)
Definition eval_point {RootType : Type} (root_val : RootType -> Z)
    (roots : list RootType) (log_n p : nat) : Z :=
  let r := root_at root_val roots (2 ^ (log_n - 1) + p / 2) in
  if Nat.even p then r else (- r)%Z.

(** The table the header documents: [roots] holds the powers of a root
    [psi] in bit-reversed order. *)
Definition bit_reversed_powers {RootType : Type} (M : Z) (root_val : RootType -> Z)
    (roots : list RootType) (psi : Z) (log_n : nat) : Prop :=
  forall t, 1 <= t < 2 ^ log_n ->
    (root_at root_val roots t mod M = psi ^ Z.of_nat (reverse_bits log_n t) mod M)%Z.

(** ** Linear combinations of buffers *)

(** Slot by slot, [c] is congruent to [alpha * a + beta * b] modulo [M]. *)
Definition combination (M alpha beta : Z) (a b c : list Z) : Prop :=
  length a = length c /\ length b = length c /\
  forall p x y z, a !! p = Some x -> b !! p = Some y -> c !! p = Some z ->
    (z mod M = (alpha * x + beta * y) mod M)%Z.

(** ** Products of polynomials *)

Fixpoint poly_add (a b : list Z) : list Z :=
  match a, b with
  | [], _ => b
  | _, [] => a
  | x :: a', y :: b' => (x + y)%Z :: poly_add a' b'
  end.

Definition poly_scale (c : Z) (a : list Z) : list Z := (fun x => (c * x)%Z) <$> a.

(** The product of two polynomials. *)
Fixpoint poly_mul (a b : list Z) : list Z :=
  match a with
  | [] => []
  | x :: a' => poly_add (poly_scale x b) (0%Z :: poly_mul a' b)
  end.

(** The [n] coefficients of the remainder of [c] modulo [X^n + 1], for a
    polynomial [c] of at most [2 * n] coefficients. *)
Definition fold_negacyclic (n : nat) (c : list Z) : list Z :=
  (fun k => (default 0 (c !! k) - default 0 (c !! (k + n)%nat))%Z) <$> seq 0 n.

(** The negacyclic convolution of two vectors of [n] residues: the
    product of the two polynomials modulo [X^n + 1] and modulo [M]. *)
Definition negacyclic_convolution (M : Z) (n : nat) (a b : list Z) : list Z :=
  (fun v => (v mod M)%Z) <$> fold_negacyclic n (poly_mul a b).

(** * Properties *)

(** ** The model at work *)

(** Four points modulo 17 with the 8th root of unity 2: the values of
    [1 + 2x + 3x^2 + 4x^3] at [2], [2^5], [2^3], [2^7]. *)
Example forward_four_points :
  transform (Arith := spec_arith) 17%Z [0; 4; 2; 8]%Z 2 None [1; 2; 3; 4]%Z
  = Done [15; 11; 13; 16]%Z.
Proof. reflexivity. Qed.

(** The dispatches of a 16-point call. *)
Example schedule_sixteen_points :
  match Dwt_gpu (Arith := spec_arith) 17%Z (repeat 1%Z 16) 4 None (repeat 1%Z 16) with
  | Done q => q_log q
  | _ => []
  end
  = [(2, LargeGap 4 8 1); (2, LargeGap 4 4 2); (8, GapLE4 2 4); (8, LastRound 8)].
Proof. reflexivity. Qed.

(** ** The shifts of the index arithmetic *)

Lemma shiftl_1 (x : nat) : Nat.shiftl x 1 = x * 2.
Proof. rewrite Nat.shiftl_mul_pow2. reflexivity. Qed.

Lemma shiftr_1 (x : nat) : Nat.shiftr x 1 = x / 2.
Proof. rewrite Nat.shiftr_div_pow2. reflexivity. Qed.

Lemma DwtGapLE4_offset_eq (gap ind : nat) :
  DwtGapLE4_offset gap ind = ind / gap * (gap * 2) + ind mod gap.
Proof. unfold DwtGapLE4_offset. rewrite shiftl_1. reflexivity. Qed.

Lemma DwtLargeGap_offset_eq (Unroll gap ind : nat) :
  DwtLargeGap_offset Unroll gap ind
  = ind / (gap / Unroll) * (gap * 2) + ind mod (gap / Unroll) * Unroll.
Proof. unfold DwtLargeGap_offset. rewrite shiftl_1. reflexivity. Qed.

Lemma stage_cond_eq {ScalarType : Type} (n : nat) (st : loop_state ScalarType) :
  stage_cond n st = bool_decide (ls_m st < n / 2).
Proof. unfold stage_cond. rewrite shiftr_1. reflexivity. Qed.

Lemma stage_body_eq
    {RootType ScalarType : Type} `{Arith : DwtArith RootType ScalarType}
    (modulus : Z) (roots : list RootType) (st : loop_state ScalarType) :
  stage_body modulus roots st
  = (q' ← (if decide (ls_gap st / 2 < 4)
           then submit modulus roots (ls_m st * (ls_gap st / 2))
                  (GapLE4 (ls_gap st / 2) (int_rounds (ls_total_r st))) (ls_queue st)
           else submit modulus roots (ls_m st * (ls_gap st / 2) / unroll)
                  (LargeGap unroll (ls_gap st / 2) (int_rounds (ls_total_r st)))
                  (ls_queue st));
     Done (Build_loop_state (ls_gap st / 2) (ls_m st * 2)
             (ls_total_r st + ls_m st) q')).
Proof. unfold stage_body. rewrite shiftl_1, shiftr_1. reflexivity. Qed.

Lemma Dwt_gpu_eq
    {RootType ScalarType : Type} `{Arith : DwtArith RootType ScalarType}
    (modulus : Z) (roots : list RootType) (log_n : nat)
    (scalar : option ScalarType) (values : list Z) :
  Dwt_gpu modulus roots log_n scalar values
  = (st ← stage_loop modulus roots log_n (2 ^ log_n) (initial_state (2 ^ log_n) values);
     match scalar with
     | Some s => submit modulus roots (ls_m st)
                   (LastRoundScalar (int_rounds (ls_total_r st)) s) (ls_queue st)
     | None => submit modulus roots (ls_m st)
                 (LastRound (int_rounds (ls_total_r st))) (ls_queue st)
     end).
Proof. unfold Dwt_gpu. rewrite Nat.shiftl_1_l. reflexivity. Qed.

(** ** The narrowing of [total_r] to [int] *)

Lemma int_rounds_small (t : nat) : (Z.of_nat t < 2 ^ 31)%Z -> int_rounds t = t.
Proof.
  intros Ht. unfold int_rounds.
  rewrite Z.mod_small by lia.
  destruct (Z.ltb_spec (Z.of_nat t) (2 ^ 31)) as [_|?]; [|lia].
  apply Nat2Z.id.
Qed.

(** The offsets [2^k] of a call for at most [2^31] points fit. *)
Lemma int_rounds_pow2 (k : nat) : k <= 30 -> int_rounds (2 ^ k) = 2 ^ k.
Proof.
  intros Hk. apply int_rounds_small.
  rewrite Nat2Z.inj_pow. change (Z.of_nat 2) with 2%Z.
  apply Z.pow_lt_mono_r; lia.
Qed.

Lemma int_rounds_1 : int_rounds 1 = 1.
Proof. exact (int_rounds_pow2 0 (Nat.le_0_l 30)). Qed.

(** ** Outcomes, loads and stores *)

Lemma bind_Done_inv {A B : Type} (f : A -> outcome B) (o : outcome A) (b : B) :
  (o ≫= f) = Done b -> exists a, o = Done a /\ f a = Done b.
Proof. destruct o as [a| |]; simpl; intros H; try discriminate. eauto. Qed.

Lemma load_Some {A : Type} (l : list A) (i : nat) (a : A) :
  l !! i = Some a -> load l i = Done a.
Proof. unfold load. intros ->. reflexivity. Qed.

Lemma load_None {A : Type} (l : list A) (i : nat) :
  length l <= i -> load l i = Fault.
Proof. unfold load. intros H. rewrite (lookup_ge_None_2 l i); [reflexivity | lia]. Qed.

Lemma load_not_OutOfFuel {A : Type} (l : list A) (i : nat) : load l i <> OutOfFuel.
Proof. unfold load. destruct (l !! i); discriminate. Qed.

Lemma store_lt {A : Type} (l : list A) (i : nat) (a : A) :
  i < length l -> store l i a = Done (<[i:=a]> l).
Proof. unfold store. intros H. destruct (decide (i < length l)); [reflexivity | lia]. Qed.

Lemma run_units_app k (l1 l2 : list nat) (values : list Z) :
  run_units k (l1 ++ l2) values = (run_units k l1 values ≫= run_units k l2).
Proof.
  revert values. induction l1 as [|a l1 IH]; intros values; simpl.
  - reflexivity.
  - destruct (k a values) as [vs| |]; simpl; auto.
Qed.

Lemma run_units_seq_S k a n (values : list Z) :
  run_units k (seq a (S n)) values = (k a values ≫= run_units k (seq (S a) n)).
Proof. reflexivity. Qed.

(** ** Work items that update one pair of slots each *)

Lemma pair_update_Done f g x y (values : list Z) vx vy :
  values !! x = Some vx -> values !! y = Some vy ->
  pair_update f g x y values = Done (<[y := g vx vy]> (<[x := f vx vy]> values)).
Proof.
  intros Hx Hy. unfold pair_update.
  rewrite (load_Some _ _ _ Hx), (load_Some _ _ _ Hy). simpl.
  apply lookup_lt_Some in Hx. apply lookup_lt_Some in Hy.
  rewrite store_lt by assumption. simpl.
  rewrite store_lt by (rewrite length_insert; assumption). reflexivity.
Qed.

Lemma pair_update_not_OutOfFuel f g x y (values : list Z) :
  pair_update f g x y values <> OutOfFuel.
Proof.
  unfold pair_update, load, store.
  destruct (values !! x); simpl; [|discriminate].
  destruct (values !! y); simpl; [|discriminate].
  destruct (decide _); simpl; [|discriminate].
  destruct (decide _); discriminate.
Qed.

Section PairUpdates.
Variables X Y : nat -> nat.
Variables F G : nat -> Z -> Z -> Z.
Variable k : nat -> list Z -> outcome (list Z).

Lemma run_units_dispatched (inds : list nat) : forall values : list Z,
  NoDup inds ->
  (forall ind, ind ∈ inds -> X ind < length values /\ Y ind < length values) ->
  disjoint_slots X Y inds ->
  (forall ind vs, ind ∈ inds -> k ind vs = pair_update (F ind) (G ind) (X ind) (Y ind) vs) ->
  exists after, run_units k inds values = Done after /\
                dispatched X Y F G inds values after.
Proof.
  induction inds as [|a inds IH]; intros values Hnd Hin Hdis Hk.
  - exists values. split; [reflexivity|].
    split; [reflexivity | intros ind H; inversion H | reflexivity].
  - apply NoDup_cons in Hnd as [Ha Hnd].
    destruct Hdis as [Hxy Hdis].
    destruct (Hin a) as [Hxa Hya]; [left|].
    destruct (lookup_lt_is_Some_2 _ _ Hxa) as [vx Hvx].
    destruct (lookup_lt_is_Some_2 _ _ Hya) as [vy Hvy].
    assert (Hne : X a <> Y a) by (apply Hxy; left).
    simpl. rewrite Hk by left.
    rewrite (pair_update_Done _ _ _ _ _ _ _ Hvx Hvy). simpl.
    set (values1 := <[Y a := G a vx vy]> (<[X a := F a vx vy]> values)).
    assert (Hlen1 : length values1 = length values)
      by (unfold values1; rewrite !length_insert; reflexivity).
    assert (Hother : forall p, p <> X a -> p <> Y a -> values1 !! p = values !! p).
    { intros p Hp1 Hp2. unfold values1.
      rewrite list_lookup_insert_ne by congruence.
      rewrite list_lookup_insert_ne by congruence. reflexivity. }
    destruct (IH values1) as (after & Hrun & Hd).
    + assumption.
    + intros ind Hind. rewrite Hlen1. apply Hin. right. assumption.
    + split.
      * intros b Hb. apply Hxy. right. assumption.
      * intros b c Hb Hc. apply Hdis; right; assumption.
    + intros ind vs Hind. apply Hk. right. assumption.
    + exists after. split; [assumption|].
      destruct Hd as [Hlen Hunits Hframe].
      assert (Hfresh : forall b, b ∈ inds ->
                X a <> X b /\ X a <> Y b /\ Y a <> X b /\ Y a <> Y b).
      { intros b Hb. apply Hdis; [left | right; assumption |].
        intros ->. contradiction. }
      split.
      * congruence.
      * intros ind Hind. apply elem_of_cons in Hind as [->|Hind].
        -- exists vx, vy. split; [assumption|]. split; [assumption|].
           rewrite !Hframe by (intros b Hb; destruct (Hfresh b Hb) as (?&?&?&?); split; congruence).
           unfold values1. split.
           ++ rewrite list_lookup_insert_ne by congruence.
              apply list_lookup_insert_eq. assumption.
           ++ apply list_lookup_insert_eq. rewrite length_insert. assumption.
        -- destruct (Hunits ind Hind) as (wx & wy & Hwx & Hwy & Hax & Hay).
           destruct (Hfresh ind Hind) as (?&?&?&?).
           exists wx, wy.
           rewrite <- (Hother (X ind)) by congruence.
           rewrite <- (Hother (Y ind)) by congruence.
           auto.
      * intros p Hp. rewrite Hframe.
        -- apply Hother; apply (Hp a); left.
        -- intros ind Hind. apply Hp. right. assumption.
Qed.
End PairUpdates.

Lemma dispatched_unique X Y F G (inds : list nat) (before a1 a2 : list Z) :
  dispatched X Y F G inds before a1 ->
  dispatched X Y F G inds before a2 ->
  a1 = a2.
Proof.
  intros [L1 U1 Fr1] [L2 U2 Fr2]. apply list_eq. intros p.
  destruct (decide (Exists (fun ind => p = X ind \/ p = Y ind) inds)) as [He|He].
  - apply Exists_exists in He as (ind & Hind & Hp).
    destruct (U1 ind Hind) as (vx & vy & Hx & Hy & H1x & H1y).
    destruct (U2 ind Hind) as (wx & wy & Hx' & Hy' & H2x & H2y).
    assert (vx = wx) by congruence. assert (vy = wy) by congruence. subst wx wy.
    destruct Hp as [-> | ->]; congruence.
  - assert (Hno : forall ind, ind ∈ inds -> p <> X ind /\ p <> Y ind).
    { intros ind Hind. split; intros ->; apply He, Exists_exists;
        exists ind; auto. }
    rewrite Fr1, Fr2 by assumption. reflexivity.
Qed.

Lemma dispatched_perm X Y F G (l1 l2 : list nat) (before after : list Z) :
  l1 ≡ₚ l2 -> dispatched X Y F G l1 before after -> dispatched X Y F G l2 before after.
Proof.
  intros Hp [L U Fr]. split.
  - assumption.
  - intros ind Hind. apply U. rewrite Hp. assumption.
  - intros p H. apply Fr. intros ind Hind. apply H. rewrite <- Hp. assumption.
Qed.

(** ** Slots of the interior kernels *)

Lemma div_mod_decompose (gap ind : nat) :
  gap <> 0 -> ind = gap * (ind / gap) + ind mod gap /\ ind mod gap < gap.
Proof.
  intros Hg. split.
  - apply Nat.div_mod_eq.
  - apply Nat.mod_upper_bound. assumption.
Qed.

Lemma div_mod_compose (gap i j : nat) :
  j < gap -> (gap * i + j) / gap = i /\ (gap * i + j) mod gap = j.
Proof.
  intros Hj. split.
  - symmetry. apply (Nat.div_unique _ gap i j); [assumption | reflexivity].
  - symmetry. apply (Nat.mod_unique _ gap i j); [assumption | reflexivity].
Qed.

Lemma group_lt (gap m ind : nat) : ind < m * gap -> ind / gap < m.
Proof.
  intros H. destruct (decide (gap = 0)) as [->|Hg]; [lia|].
  apply Nat.Div0.div_lt_upper_bound. lia.
Qed.

Lemma GapLE4_offset_bound (gap m ind : nat) :
  ind < m * gap -> DwtGapLE4_offset gap ind + gap < 2 * gap * m.
Proof.
  intros H. rewrite DwtGapLE4_offset_eq.
  assert (Hg : gap <> 0) by lia.
  pose proof (group_lt _ _ _ H) as Hi.
  destruct (div_mod_decompose gap ind Hg) as [_ Hj]. nia.
Qed.

Lemma GapLE4_slots_distinct (gap a b : nat) :
  gap <> 0 -> a <> b ->
  DwtGapLE4_offset gap a <> DwtGapLE4_offset gap b /\
  DwtGapLE4_offset gap a <> DwtGapLE4_offset gap b + gap /\
  DwtGapLE4_offset gap a + gap <> DwtGapLE4_offset gap b /\
  DwtGapLE4_offset gap a + gap <> DwtGapLE4_offset gap b + gap.
Proof.
  intros Hg Hab. rewrite !DwtGapLE4_offset_eq.
  destruct (div_mod_decompose gap a Hg) as [Ha Hja].
  destruct (div_mod_decompose gap b Hg) as [Hb Hjb].
  assert (Hcases : a / gap < b / gap \/ b / gap < a / gap \/
                   (a / gap = b / gap /\ a mod gap <> b mod gap)).
  { destruct (Nat.lt_trichotomy (a / gap) (b / gap)) as [?|[Heq|?]]; auto.
    right. right. split; [assumption|]. intros Hm. apply Hab.
    rewrite Ha, Hb, Heq, Hm. reflexivity. }
  destruct Hcases as [Hlt|[Hlt|[Heq Hne]]]; repeat split; nia.
Qed.

(** Every slot below [2 * gap * m] belongs to one unit of the dispatch. *)
Lemma GapLE4_slots_cover (gap m p : nat) :
  p < 2 * gap * m ->
  exists ind, ind < m * gap /\
    (p = DwtGapLE4_offset gap ind \/ p = DwtGapLE4_offset gap ind + gap).
Proof.
  intros Hp.
  assert (Hg : gap <> 0) by lia.
  assert (Hg2 : gap * 2 <> 0) by lia.
  destruct (div_mod_decompose (gap * 2) p Hg2) as [Hdec Ht].
  set (i := p / (gap * 2)) in *. set (t := p mod (gap * 2)) in *.
  assert (Hi : i < m) by nia.
  destruct (decide (t < gap)) as [Hlt|Hge].
  - exists (gap * i + t).
    destruct (div_mod_compose gap i t Hlt) as [Hq Hr].
    split; [nia|]. left. rewrite DwtGapLE4_offset_eq, Hq, Hr. lia.
  - exists (gap * i + (t - gap)).
    assert (Hlt : t - gap < gap) by lia.
    destruct (div_mod_compose gap i (t - gap) Hlt) as [Hq Hr].
    split; [nia|]. right. rewrite DwtGapLE4_offset_eq, Hq, Hr. lia.
Qed.

Lemma run_units_blocks (k k' : nat -> list Z -> outcome (list Z)) (U : nat) :
  (forall idx vs, k' idx vs = run_units k (seq (U * idx) U) vs) ->
  forall range (values : list Z),
    parallel_for range k' values = parallel_for (U * range) k values.
Proof.
  intros Hk. unfold parallel_for. induction range as [|range IH]; intros values.
  - rewrite Nat.mul_0_r. reflexivity.
  - replace (U * S range) with (U * range + U) by lia.
    rewrite seq_S, seq_app, !run_units_app, IH. simpl.
    destruct (run_units k (seq 0 (U * range)) values) as [vs| |]; simpl; auto.
    rewrite Hk. destruct (run_units k (seq (U * range) U) vs); reflexivity.
Qed.

Section Stages.
Context {RootType ScalarType : Type} `{Arith : DwtArith RootType ScalarType}.
Variable modulus : Z.
Variable roots : list RootType.

Lemma butterfly_pair_update r x y (values : list Z) :
  butterfly modulus r x y values
  = pair_update (butterfly_x modulus r) (butterfly_y modulus r) x y values.
Proof. reflexivity. Qed.

(** *** The unrolled kernel is four (in general [Unroll]) small-gap units *)

Lemma DwtGapLE4_in_group gap rounds i c r (values : list Z) :
  c < gap -> load roots (rounds + i) = Done r ->
  DwtGapLE4 modulus roots gap rounds (gap * i + c) values
  = butterfly modulus r (i * (gap * 2) + c) (i * (gap * 2) + c + gap) values.
Proof.
  intros Hc Hr. unfold DwtGapLE4. rewrite DwtGapLE4_offset_eq.
  destruct (decide (gap = 0)) as [->|Hg]; [lia|].
  destruct (div_mod_compose gap i c Hc) as [-> ->].
  rewrite Hr. reflexivity.
Qed.

Lemma unrolled_units gap rounds i r :
  load roots (rounds + i) = Done r ->
  forall k c (values : list Z), c + k <= gap ->
    unrolled modulus k r (i * (gap * 2) + c) (i * (gap * 2) + c + gap) values
    = run_units (DwtGapLE4 modulus roots gap rounds) (seq (gap * i + c) k) values.
Proof.
  intros Hr. induction k as [|k IH]; intros c values Hck; simpl.
  - reflexivity.
  - rewrite (DwtGapLE4_in_group gap rounds i c r) by (assumption || lia).
    destruct (butterfly modulus r _ _ values) as [vs| |]; simpl; auto.
    replace (S (i * (gap * 2) + c)) with (i * (gap * 2) + S c) by lia.
    replace (S (i * (gap * 2) + c + gap)) with (i * (gap * 2) + S c + gap) by lia.
    replace (S (gap * i + c)) with (gap * i + S c) by lia.
    apply IH. lia.
Qed.

Lemma DwtLargeGap_as_units Unroll gap rounds idx (values : list Z) :
  Unroll <> 0 -> gap <> 0 -> gap mod Unroll = 0 ->
  DwtLargeGap modulus roots Unroll gap rounds idx values
  = run_units (DwtGapLE4 modulus roots gap rounds) (seq (Unroll * idx) Unroll) values.
Proof.
  intros HU Hg Hdiv.
  assert (Hgap : gap = Unroll * (gap / Unroll)).
  { pose proof (Nat.div_mod_eq gap Unroll). lia. }
  set (q := gap / Unroll) in *.
  assert (Hq : q <> 0) by (intros Hq0; rewrite Hq0 in Hgap; lia).
  destruct (div_mod_decompose q idx Hq) as [Hidx Hj].
  set (i := idx / q) in *. set (j := idx mod q) in *.
  assert (Hunit : Unroll * idx = gap * i + Unroll * j) by nia.
  assert (Hroom : Unroll * j + Unroll <= gap) by nia.
  unfold DwtLargeGap. rewrite DwtLargeGap_offset_eq. fold q. fold i. fold j.
  destruct (decide (q = 0)) as [?|_]; [contradiction|].
  destruct (load roots (rounds + i)) as [r| |] eqn:Hr; simpl.
  - rewrite Hunit. replace (j * Unroll) with (Unroll * j) by lia.
    apply unrolled_units; assumption.
  - destruct Unroll as [|U']; [contradiction|]. rewrite run_units_seq_S.
    unfold DwtGapLE4. destruct (decide (gap = 0)) as [?|_]; [contradiction|].
    replace (S U' * idx / gap) with i.
    + rewrite Hr. reflexivity.
    + rewrite Hunit. symmetry. apply div_mod_compose. lia.
  - destruct Unroll as [|U']; [contradiction|]. rewrite run_units_seq_S.
    unfold DwtGapLE4. destruct (decide (gap = 0)) as [?|_]; [contradiction|].
    replace (S U' * idx / gap) with i.
    + rewrite Hr. reflexivity.
    + rewrite Hunit. symmetry. apply div_mod_compose. lia.
Qed.

Lemma large_gap_dispatch Unroll gap rounds m (values : list Z) :
  Unroll <> 0 -> gap <> 0 -> gap mod Unroll = 0 ->
  parallel_for (m * gap / Unroll) (DwtLargeGap modulus roots Unroll gap rounds) values
  = parallel_for (m * gap) (DwtGapLE4 modulus roots gap rounds) values.
Proof.
  intros HU Hg Hdiv.
  rewrite (run_units_blocks (DwtGapLE4 modulus roots gap rounds) _ Unroll).
  - f_equal.
    assert (Hgap : gap = Unroll * (gap / Unroll)).
    { pose proof (Nat.div_mod_eq gap Unroll). lia. }
    assert (Hmg : (m * gap) mod Unroll = 0).
    { rewrite Hgap. replace (m * (Unroll * (gap / Unroll)))
        with (m * (gap / Unroll) * Unroll) by lia.
      apply Nat.Div0.mod_mul. }
    pose proof (Nat.div_mod_eq (m * gap) Unroll). lia.
  - intros idx vs. apply DwtLargeGap_as_units; assumption.
Qed.

(** *** A whole interior stage *)

Lemma DwtGapLE4_pair_update gap rounds m ind (values : list Z) :
  gap <> 0 -> rounds + m <= length roots -> ind < m * gap ->
  DwtGapLE4 modulus roots gap rounds ind values
  = pair_update (stage_x modulus roots gap rounds ind) (stage_y modulus roots gap rounds ind)
      (stage_slot_x gap ind) (stage_slot_y gap ind) values.
Proof.
  intros Hg Hroots Hind. unfold DwtGapLE4.
  destruct (decide (gap = 0)) as [?|_]; [contradiction|].
  pose proof (group_lt _ _ _ Hind) as Hi.
  destruct (lookup_lt_is_Some_2 roots (rounds + ind / gap)) as [r Hr]; [lia|].
  rewrite (load_Some _ _ _ Hr). simpl.
  rewrite butterfly_pair_update. unfold stage_x, stage_y. rewrite Hr. reflexivity.
Qed.

Lemma stage_slots_disjoint gap (inds : list nat) :
  gap <> 0 -> disjoint_slots (stage_slot_x gap) (stage_slot_y gap) inds.
Proof.
  intros Hg. unfold stage_slot_x, stage_slot_y. split.
  - intros a _. lia.
  - intros a b _ _ Hab. apply GapLE4_slots_distinct; assumption.
Qed.

Lemma stage_slots_bound gap m ind :
  ind < m * gap ->
  stage_slot_x gap ind < 2 * gap * m /\ stage_slot_y gap ind < 2 * gap * m.
Proof.
  intros H. pose proof (GapLE4_offset_bound gap m ind H) as Hb.
  unfold stage_slot_x, stage_slot_y.
  lia.
Qed.

Lemma small_gap_units gap rounds m (inds : list nat) (values : list Z) :
  gap <> 0 -> length values = 2 * gap * m -> rounds + m <= length roots ->
  NoDup inds -> (forall ind, ind ∈ inds -> ind < m * gap) ->
  exists after,
    run_units (DwtGapLE4 modulus roots gap rounds) inds values = Done after /\
    dispatched (stage_slot_x gap) (stage_slot_y gap)
               (stage_x modulus roots gap rounds) (stage_y modulus roots gap rounds) inds values after.
Proof.
  intros Hg Hlen Hroots Hnd Hin.
  apply run_units_dispatched.
  - assumption.
  - intros ind Hind. rewrite Hlen. apply stage_slots_bound. auto.
  - apply stage_slots_disjoint. assumption.
  - intros ind vs Hind. apply (DwtGapLE4_pair_update gap rounds m); auto.
Qed.

Lemma small_gap_dispatch gap rounds m (values : list Z) :
  gap <> 0 -> length values = 2 * gap * m -> rounds + m <= length roots ->
  exists after,
    parallel_for (m * gap) (DwtGapLE4 modulus roots gap rounds) values = Done after /\
    dispatched (stage_slot_x gap) (stage_slot_y gap)
               (stage_x modulus roots gap rounds) (stage_y modulus roots gap rounds) (seq 0 (m * gap)) values after.
Proof.
  intros Hg Hlen Hroots. apply (small_gap_units gap rounds m); try assumption.
  - apply NoDup_seq.
  - intros ind Hind. apply elem_of_seq in Hind. lia.
Qed.

End Stages.

(** ** The last round *)

Section LastRound.
Context {RootType ScalarType : Type} `{Arith : DwtArith RootType ScalarType}.
Variable modulus : Z.
Variable roots : list RootType.

Lemma DwtLastRound_pair_update rounds m i (values : list Z) :
  rounds + m <= length roots -> i < m ->
  DwtLastRound modulus roots rounds i values
  = pair_update (last_x modulus roots rounds i) (last_y modulus roots rounds i) (last_slot_x i) (last_slot_y i) values.
Proof.
  intros Hroots Hi. unfold DwtLastRound.
  destruct (lookup_lt_is_Some_2 roots (rounds + i)) as [r Hr]; [lia|].
  rewrite (load_Some _ _ _ Hr). simpl.
  unfold pair_update, last_x, last_y, last_slot_x, last_slot_y. rewrite Hr.
  reflexivity.
Qed.

Lemma DwtLastRoundScalar_pair_update rounds s m i (values : list Z) :
  rounds + m <= length roots -> i < m ->
  DwtLastRoundScalar modulus roots rounds s i values
  = pair_update (last_scalar_x modulus roots rounds s i) (last_scalar_y modulus roots rounds s i)
      (last_slot_x i) (last_slot_y i) values.
Proof.
  intros Hroots Hi. unfold DwtLastRoundScalar.
  destruct (lookup_lt_is_Some_2 roots (rounds + i)) as [r Hr]; [lia|].
  rewrite (load_Some _ _ _ Hr). simpl.
  unfold pair_update, last_scalar_x, last_scalar_y, last_slot_x, last_slot_y.
  rewrite Hr. reflexivity.
Qed.

Lemma last_slots_disjoint (inds : list nat) :
  disjoint_slots last_slot_x last_slot_y inds.
Proof.
  unfold last_slot_x, last_slot_y. split.
  - intros a _. lia.
  - intros a b _ _ Hab. lia.
Qed.

Lemma last_round_units rounds m (inds : list nat) (values : list Z) :
  length values = 2 * m -> rounds + m <= length roots ->
  NoDup inds -> (forall i, i ∈ inds -> i < m) ->
  exists after,
    run_units (DwtLastRound modulus roots rounds) inds values = Done after /\
    dispatched last_slot_x last_slot_y (last_x modulus roots rounds) (last_y modulus roots rounds)
               inds values after.
Proof.
  intros Hlen Hroots Hnd Hin. apply run_units_dispatched.
  - assumption.
  - intros i Hi. apply Hin in Hi. unfold last_slot_x, last_slot_y. lia.
  - apply last_slots_disjoint.
  - intros i vs Hi. apply (DwtLastRound_pair_update rounds m); auto.
Qed.

Lemma last_round_scalar_units rounds s m (inds : list nat) (values : list Z) :
  length values = 2 * m -> rounds + m <= length roots ->
  NoDup inds -> (forall i, i ∈ inds -> i < m) ->
  exists after,
    run_units (DwtLastRoundScalar modulus roots rounds s) inds values = Done after /\
    dispatched last_slot_x last_slot_y
               (last_scalar_x modulus roots rounds s) (last_scalar_y modulus roots rounds s) inds values after.
Proof.
  intros Hlen Hroots Hnd Hin. apply run_units_dispatched.
  - assumption.
  - intros i Hi. apply Hin in Hi. unfold last_slot_x, last_slot_y. lia.
  - apply last_slots_disjoint.
  - intros i vs Hi. apply (DwtLastRoundScalar_pair_update rounds s m); auto.
Qed.

Lemma last_round_dispatch rounds m (values : list Z) :
  length values = 2 * m -> rounds + m <= length roots ->
  exists after,
    parallel_for m (DwtLastRound modulus roots rounds) values = Done after /\
    dispatched last_slot_x last_slot_y (last_x modulus roots rounds) (last_y modulus roots rounds)
               (seq 0 m) values after.
Proof.
  intros Hlen Hroots. apply (last_round_units rounds m); try assumption.
  - apply NoDup_seq.
  - intros i Hi. apply elem_of_seq in Hi. lia.
Qed.

Lemma last_round_scalar_dispatch rounds s m (values : list Z) :
  length values = 2 * m -> rounds + m <= length roots ->
  exists after,
    parallel_for m (DwtLastRoundScalar modulus roots rounds s) values = Done after /\
    dispatched last_slot_x last_slot_y
               (last_scalar_x modulus roots rounds s) (last_scalar_y modulus roots rounds s) (seq 0 m) values after.
Proof.
  intros Hlen Hroots. apply (last_round_scalar_units rounds s m); try assumption.
  - apply NoDup_seq.
  - intros i Hi. apply elem_of_seq in Hi. lia.
Qed.

(** *** Kernels keep the length of the buffer and never run out of fuel *)

Lemma pair_update_length f g x y (values after : list Z) :
  pair_update f g x y values = Done after -> length after = length values.
Proof.
  unfold pair_update, load, store. intros H.
  destruct (values !! x); simpl in H; [|discriminate].
  destruct (values !! y); simpl in H; [|discriminate].
  destruct (decide _); simpl in H; [|discriminate].
  destruct (decide _); simpl in H; [|discriminate].
  inversion H. rewrite !length_insert. reflexivity.
Qed.

Lemma unrolled_length k r : forall x y (values after : list Z),
  unrolled modulus k r x y values = Done after -> length after = length values.
Proof.
  induction k as [|k IH]; simpl; intros x y values after H.
  - inversion H. reflexivity.
  - apply bind_Done_inv in H as (vs & Hb & Hrest).
    rewrite butterfly_pair_update in Hb. apply pair_update_length in Hb.
    apply IH in Hrest. congruence.
Qed.

Lemma unrolled_not_OutOfFuel k r : forall x y (values : list Z),
  unrolled modulus k r x y values <> OutOfFuel.
Proof.
  induction k as [|k IH]; simpl; intros x y values; [discriminate|].
  rewrite butterfly_pair_update.
  pose proof (pair_update_not_OutOfFuel (butterfly_x modulus r) (butterfly_y modulus r) x y values).
  destruct (pair_update _ _ x y values); simpl;
    [apply IH | discriminate | congruence].
Qed.

Lemma run_kernel_length (k : kernel ScalarType) ind (values after : list Z) :
  run_kernel modulus roots k ind values = Done after -> length after = length values.
Proof.
  destruct k as [gap rounds|U gap rounds|rounds|rounds s]; simpl.
  - unfold DwtGapLE4. destruct (decide _); [discriminate|]. intros H.
    apply bind_Done_inv in H as (r & _ & H).
    rewrite butterfly_pair_update in H. eapply pair_update_length; eassumption.
  - unfold DwtLargeGap. destruct (decide _); [discriminate|]. intros H.
    apply bind_Done_inv in H as (r & _ & H).
    eapply unrolled_length; eassumption.
  - unfold DwtLastRound. intros H.
    apply bind_Done_inv in H as (r & _ & H).
    eapply (pair_update_length (fun vx vy => _) (fun vx vy => _)). exact H.
  - unfold DwtLastRoundScalar. intros H.
    apply bind_Done_inv in H as (r & _ & H).
    eapply (pair_update_length (fun vx vy => _) (fun vx vy => _)). exact H.
Qed.

Lemma run_kernel_not_OutOfFuel (k : kernel ScalarType) ind (values : list Z) :
  run_kernel modulus roots k ind values <> OutOfFuel.
Proof.
  destruct k as [gap rounds|U gap rounds|rounds|rounds s]; simpl.
  - unfold DwtGapLE4. destruct (decide _); [discriminate|].
    pose proof (load_not_OutOfFuel roots (rounds + ind / gap)).
    destruct (load roots _) as [r| |]; simpl; try congruence.
    rewrite butterfly_pair_update. apply pair_update_not_OutOfFuel.
  - unfold DwtLargeGap. destruct (decide _); [discriminate|].
    pose proof (load_not_OutOfFuel roots (rounds + ind / (gap / U))).
    destruct (load roots _) as [r| |]; simpl; try congruence.
    apply unrolled_not_OutOfFuel.
  - unfold DwtLastRound.
    pose proof (load_not_OutOfFuel roots (rounds + ind)).
    destruct (load roots _) as [r| |]; simpl; try congruence.
    apply (pair_update_not_OutOfFuel (fun vx vy => _) (fun vx vy => _)).
  - unfold DwtLastRoundScalar.
    pose proof (load_not_OutOfFuel roots (rounds + ind)).
    destruct (load roots _) as [r| |]; simpl; try congruence.
    apply (pair_update_not_OutOfFuel (fun vx vy => _) (fun vx vy => _)).
Qed.

End LastRound.

Lemma run_units_length k (inds : list nat) :
  (forall ind (vs after : list Z), k ind vs = Done after -> length after = length vs) ->
  forall values after : list Z,
    run_units k inds values = Done after -> length after = length values.
Proof.
  intros Hk. induction inds as [|a inds IH]; simpl; intros values after H.
  - inversion H. reflexivity.
  - apply bind_Done_inv in H as (vs & Ha & Hrest).
    apply Hk in Ha. apply IH in Hrest. congruence.
Qed.

Lemma run_units_not_OutOfFuel k (inds : list nat) :
  (forall ind (vs : list Z), k ind vs <> OutOfFuel) ->
  forall values : list Z, run_units k inds values <> OutOfFuel.
Proof.
  intros Hk. induction inds as [|a inds IH]; simpl; intros values; [discriminate|].
  pose proof (Hk a values).
  destruct (k a values); simpl; [apply IH | discriminate | congruence].
Qed.

(** A dispatch faults as soon as one of its units faults on every buffer. *)
Lemma run_units_Fault k (inds : list nat) ind :
  ind ∈ inds ->
  (forall vs : list Z, k ind vs = Fault) ->
  (forall a (vs : list Z), k a vs <> OutOfFuel) ->
  forall values : list Z, run_units k inds values = Fault.
Proof.
  intros Hin Hf Hk. induction inds as [|a inds IH]; intros values.
  - inversion Hin.
  - simpl. apply elem_of_cons in Hin as [<-|Hin].
    + rewrite Hf. reflexivity.
    + pose proof (Hk a values).
      destruct (k a values); simpl; [apply IH; assumption | reflexivity | congruence].
Qed.

(** ** Powers of two *)

Lemma pow2_nonzero (k : nat) : 2 ^ k <> 0.
Proof. apply Nat.pow_nonzero. discriminate. Qed.

Lemma pow2_S (k : nat) : 2 ^ S k = 2 * 2 ^ k.
Proof. apply Nat.pow_succ_r'. Qed.

Lemma pow2_half (j : nat) : 1 <= j -> 2 ^ j / 2 = 2 ^ (j - 1).
Proof.
  intros Hj. destruct j as [|j]; [lia|].
  rewrite pow2_S. replace (S j - 1) with j by lia.
  rewrite Nat.mul_comm. apply Nat.div_mul. discriminate.
Qed.

Lemma pow2_div (a b : nat) : b <= a -> 2 ^ a / 2 ^ b = 2 ^ (a - b).
Proof. intros H. symmetry. apply Nat.pow_sub_r; [discriminate | assumption]. Qed.

Lemma pow2_lt (a b : nat) : 2 ^ a < 2 ^ b <-> a < b.
Proof. symmetry. apply Nat.pow_lt_mono_r_iff. lia. Qed.

Lemma pow2_split (a b : nat) : b <= a -> 2 ^ a = 2 ^ b * 2 ^ (a - b).
Proof. intros H. rewrite <- Nat.pow_add_r. f_equal. lia. Qed.

Lemma pow2_ge4 (j : nat) : ~ 2 ^ j < 4 -> 2 ^ j = 4 * 2 ^ (j - 2) /\ 2 <= j.
Proof.
  intros H. destruct j as [|[|j]].
  - simpl in H. lia.
  - simpl in H. lia.
  - replace (S (S j) - 2) with j by lia. rewrite !pow2_S. lia.
Qed.

Lemma half_size (log_n : nat) : 1 <= log_n -> 2 * 2 ^ (log_n - 1) = 2 ^ log_n.
Proof. intros H. rewrite <- pow2_S. f_equal. lia. Qed.

Lemma roots_consumed_pow2 (k : nat) : roots_consumed k = 2 ^ k.
Proof.
  unfold roots_consumed. induction k as [|k IH].
  - reflexivity.
  - rewrite seq_S, sum_list_with_app, pow2_S. simpl. lia.
Qed.

(** ** The stage loop *)

Section Orchestrator.
Context {RootType ScalarType : Type} `{Arith : DwtArith RootType ScalarType}.
Variable modulus : Z.
Variable roots : list RootType.
Variable log_n : nat.
Variable values0 : list Z.
Hypothesis log_n_pos : 1 <= log_n <= 31.

Lemma control_cond k (st : loop_state ScalarType) :
  control log_n values0 k st -> (stage_cond (2 ^ log_n) st = true <-> S k < log_n).
Proof.
  intros C. rewrite stage_cond_eq, bool_decide_eq_true.
  rewrite (control_m _ _ _ _ C).
  rewrite pow2_half by lia. rewrite pow2_lt. lia.
Qed.

Lemma submit_inv range (kern : kernel ScalarType) q q' :
  submit modulus roots range kern q = Done q' ->
  parallel_for range (run_kernel modulus roots kern) (q_values q) = Done (q_values q') /\
  q_log q' = q_log q ++ [(range, kern)] /\
  length (q_values q') = length (q_values q).
Proof.
  unfold submit. intros H. apply bind_Done_inv in H as (vs & Hrun & Hq).
  inversion Hq; subst q'; simpl. split; [assumption|]. split; [reflexivity|].
  eapply run_units_length; [|exact Hrun].
  intros ind v a. apply run_kernel_length.
Qed.

Lemma submit_not_OutOfFuel range (kern : kernel ScalarType) q :
  submit modulus roots range kern q <> OutOfFuel.
Proof.
  unfold submit, parallel_for.
  pose proof (run_units_not_OutOfFuel (run_kernel modulus roots kern) (seq 0 range)
                (run_kernel_not_OutOfFuel modulus roots kern) (q_values q)) as H.
  destruct (run_units _ _ _); simpl; congruence.
Qed.

Lemma stage_body_not_OutOfFuel st : stage_body modulus roots st <> OutOfFuel.
Proof.
  rewrite stage_body_eq. destruct (decide _).
  - pose proof (submit_not_OutOfFuel (ls_m st * (ls_gap st / 2))
                  (GapLE4 (ls_gap st / 2) (int_rounds (ls_total_r st))) (ls_queue st)) as H.
    destruct (submit _ _ _ _ _); simpl; congruence.
  - pose proof (submit_not_OutOfFuel (ls_m st * (ls_gap st / 2) / unroll)
                  (LargeGap unroll (ls_gap st / 2) (int_rounds (ls_total_r st)))
                  (ls_queue st)) as H.
    destruct (submit _ _ _ _ _); simpl; congruence.
Qed.

(** The dispatch the body submits is the one of [interior_dispatch]. *)
Lemma stage_body_control k (st st' : loop_state ScalarType) :
  control log_n values0 k st -> stage_cond (2 ^ log_n) st = true ->
  stage_body modulus roots st = Done st' ->
  control log_n values0 (S k) st' /\
  parallel_for (fst (@interior_dispatch ScalarType log_n k))
               (run_kernel modulus roots (snd (@interior_dispatch ScalarType log_n k)))
               (q_values (ls_queue st)) = Done (q_values (ls_queue st')).
Proof.
  intros C Hcond Hbody.
  apply (control_cond _ _ C) in Hcond.
  destruct C as [Hk Hm Hgap Htr Hlog Hlen].
  assert (Hg : ls_gap st / 2 = 2 ^ log_n / 2 ^ (k + 1)).
  { rewrite Hgap, pow2_half by lia. rewrite pow2_div by lia. f_equal. lia. }
  assert (Hg' : ls_gap st / 2 = 2 ^ (log_n - S k)).
  { rewrite Hgap, pow2_half by lia. f_equal. lia. }
  assert (Hdisp : exists q',
    submit modulus roots (fst (@interior_dispatch ScalarType log_n k))
           (snd (@interior_dispatch ScalarType log_n k)) (ls_queue st) = Done q' /\
    st' = Build_loop_state (ls_gap st / 2) (ls_m st * 2) (ls_total_r st + ls_m st) q').
  { rewrite stage_body_eq in Hbody. unfold interior_dispatch.
    rewrite roots_consumed_pow2, <- Hg. rewrite Hm, Htr in Hbody |- *.
    rewrite int_rounds_pow2 in Hbody by lia.
    destruct (decide (ls_gap st / 2 < 4)) as [Hsmall|Hlarge]; cbn [fst snd].
    - apply bind_Done_inv in Hbody as (q' & Hs & Hst). inversion Hst. eauto.
    - apply bind_Done_inv in Hbody as (q' & Hs & Hst). inversion Hst.
      exists q'. split; [|reflexivity].
      rewrite <- Hs. f_equal. unfold unroll.
      rewrite Hg' in Hlarge |- *. apply pow2_ge4 in Hlarge as [-> _].
      set (h := 2 ^ (log_n - S k - 2)).
      replace (2 ^ k * (4 * h)) with (2 ^ k * h * 4) by lia.
      replace (4 * h) with (h * 4) by lia.
      rewrite !Nat.div_mul by discriminate. reflexivity. }
  destruct Hdisp as (q' & Hs & ->).
  apply submit_inv in Hs as (Hrun & Hlog' & Hlen').
  cbn [ls_m ls_gap ls_total_r ls_queue].
  split; [|assumption]. split; cbn [ls_m ls_gap ls_total_r ls_queue].
  - assumption.
  - rewrite pow2_S. lia.
  - assumption.
  - rewrite pow2_S. lia.
  - rewrite Hlog', Hlog, seq_S, map_app. cbn [map Nat.add].
    rewrite <- surjective_pairing. reflexivity.
  - congruence.
Qed.

Lemma initial_control :
  control log_n values0 0 (@initial_state ScalarType (2 ^ log_n) values0).
Proof.
  split; simpl; try reflexivity; try lia.
  f_equal. lia.
Qed.

(** Every state the loop reaches satisfies [control log_n values0]. *)
Lemma reachable_control k (st : loop_state ScalarType) :
  at_iteration modulus roots log_n values0 k st -> control log_n values0 k st.
Proof.
  induction 1 as [|k st st' Hat IH Hcond Hbody].
  - apply initial_control.
  - eapply stage_body_control; eassumption.
Qed.

End Orchestrator.

(** ** Ranges of the values the kernels store *)

Section Contracts.
Context {RootType ScalarType : Type} `{Arith : DwtArith RootType ScalarType}.
Variable M : Z.

Hypothesis fits : word_fits M.

Lemma wrap_small (x : Z) : (0 <= x < 2 * M)%Z -> wrap x = x.
Proof.
  intros Hx. unfold wrap. apply Z.mod_small. destruct fits. lia.
Qed.

Lemma two_times_double : two_times M = (2 * M)%Z.
Proof.
  unfold two_times, wrap. rewrite Z.shiftl_mul_pow2 by lia.
  change (2 ^ 1)%Z with 2%Z. destruct fits.
  rewrite Z.mod_small; lia.
Qed.

Lemma full_reduce_mod (w : Z) : below (4 * M) w -> full_reduce M w = (w mod M)%Z.
Proof.
  intros [Hw0 Hw]. destruct fits as [HM Hfit]. unfold full_reduce.
  rewrite two_times_double.
  destruct (Z.leb_spec (2 * M) w) as [H2|H2].
  - rewrite (wrap_small (w - 2 * M)) by lia.
    destruct (Z.leb_spec M (w - 2 * M)) as [H1|H1].
    + rewrite wrap_small by lia. apply (Z.mod_unique_pos _ _ 3); lia.
    + rewrite wrap_small by lia. apply (Z.mod_unique_pos _ _ 2); lia.
  - rewrite (wrap_small (w - 0)) by lia.
    destruct (Z.leb_spec M (w - 0)) as [H1|H1].
    + rewrite wrap_small by lia. apply (Z.mod_unique_pos _ _ 1); lia.
    + rewrite wrap_small by lia. apply (Z.mod_unique_pos _ _ 0); lia.
Qed.

Lemma full_reduce_range (w : Z) : below (4 * M) w -> below M (full_reduce M w).
Proof.
  intros Hw. rewrite full_reduce_mod by assumption.
  apply Z.mod_pos_bound. destruct fits. assumption.
Qed.

Section Ranges.
Variable D : Z -> Prop.
Hypothesis ranges : range_contract_on M D.

Lemma butterfly_x_range r vx vy :
  D vx -> D vy -> below (4 * M) (butterfly_x M r vx vy).
Proof.
  intros Hx Hy. unfold butterfly_x. rewrite two_times_double.
  apply (add_range _ _ ranges).
  - apply (guard_range _ _ ranges). assumption.
  - apply (mul_root_range _ _ ranges). assumption.
Qed.

Lemma butterfly_y_range r vx vy :
  D vx -> D vy -> below (4 * M) (butterfly_y M r vx vy).
Proof.
  intros Hx Hy. unfold butterfly_y. rewrite two_times_double.
  apply (sub_range _ _ ranges).
  - apply (guard_range _ _ ranges). assumption.
  - apply (mul_root_range _ _ ranges). assumption.
Qed.

Lemma scaled_operand_range s vx :
  D vx ->
  below (2 * M) (dwt_mul_scalar (dwt_guard vx (2 * M)) s M).
Proof.
  intros Hx.
  pose proof (mul_scalar_range _ _ ranges _ s (guard_range _ _ ranges _ Hx)) as H.
  unfold below in *. lia.
Qed.

Lemma scaled_sum_range r s vx vy :
  D vx -> D vy -> below (4 * M) (scaled_sum M r s vx vy).
Proof.
  intros Hx Hy. unfold scaled_sum. rewrite two_times_double.
  apply (add_range _ _ ranges).
  - apply scaled_operand_range. assumption.
  - apply (mul_root_range _ _ ranges). assumption.
Qed.

Lemma scaled_diff_range r s vx vy :
  D vx -> D vy -> below (4 * M) (scaled_diff M r s vx vy).
Proof.
  intros Hx Hy. unfold scaled_diff. rewrite two_times_double.
  apply (sub_range _ _ ranges).
  - apply scaled_operand_range. assumption.
  - apply (mul_root_range _ _ ranges). assumption.
Qed.

(** An interior stage brings every slot below [4 * M]. *)
Lemma interior_stage_range (roots : list RootType) gap rounds m
    (before after : list Z) :
  length before = 2 * gap * m -> rounds + m <= length roots ->
  dispatched (stage_slot_x gap) (stage_slot_y gap)
             (stage_x M roots gap rounds) (stage_y M roots gap rounds)
             (seq 0 (m * gap)) before after ->
  Forall D before -> Forall (below (4 * M)) after.
Proof.
  intros Hlen Hroots [L U _] Hbefore. rewrite Forall_lookup in Hbefore |- *.
  intros p x Hp.
  assert (Hlt : p < 2 * gap * m).
  { apply lookup_lt_Some in Hp. lia. }
  destruct (GapLE4_slots_cover gap m p Hlt) as (ind & Hind & Hslot).
  destruct (U ind) as (vx & vy & Hvx & Hvy & Hax & Hay).
  { apply elem_of_seq. lia. }
  apply Hbefore in Hvx. apply Hbefore in Hvy.
  pose proof (group_lt _ _ _ Hind) as Hgroup.
  destruct (lookup_lt_is_Some_2 roots (rounds + ind / gap)) as [r Hroot]; [lia|].
  unfold stage_slot_x, stage_slot_y in *.
  destruct Hslot as [-> | ->].
  - rewrite Hp in Hax. inversion Hax. unfold stage_x. rewrite Hroot.
    apply butterfly_x_range; assumption.
  - rewrite Hp in Hay. inversion Hay. unfold stage_y. rewrite Hroot.
    apply butterfly_y_range; assumption.
Qed.

(** The last round brings every slot below [M]. *)
Lemma last_round_range (roots : list RootType) rounds m (before after : list Z) :
  length before = 2 * m -> rounds + m <= length roots ->
  dispatched last_slot_x last_slot_y (last_x M roots rounds) (last_y M roots rounds)
             (seq 0 m) before after ->
  Forall D before -> Forall (below M) after.
Proof.
  intros Hlen Hroots [L U _] Hbefore. rewrite Forall_lookup in Hbefore |- *.
  intros p x Hp.
  assert (Hlt : p < 2 * m) by (apply lookup_lt_Some in Hp; lia).
  destruct (div_mod_decompose 2 p) as [Hdec Hr]; [discriminate|].
  assert (Hi : p / 2 < m) by lia.
  destruct (U (p / 2)) as (vx & vy & Hvx & Hvy & Hax & Hay).
  { apply elem_of_seq. lia. }
  apply Hbefore in Hvx. apply Hbefore in Hvy.
  destruct (lookup_lt_is_Some_2 roots (rounds + p / 2)) as [r Hroot]; [lia|].
  unfold last_slot_x, last_slot_y, last_x, last_y in *. rewrite Hroot in *.
  destruct (decide (p mod 2 = 0)) as [H0|H1].
  - replace (2 * (p / 2)) with p in Hax by lia.
    rewrite Hp in Hax. inversion Hax.
    apply full_reduce_range, butterfly_x_range; assumption.
  - replace (2 * (p / 2) + 1) with p in Hay by lia.
    rewrite Hp in Hay. inversion Hay.
    apply full_reduce_range, butterfly_y_range; assumption.
Qed.

Lemma last_round_scalar_range (roots : list RootType) rounds s m
    (before after : list Z) :
  length before = 2 * m -> rounds + m <= length roots ->
  dispatched last_slot_x last_slot_y
             (last_scalar_x M roots rounds s) (last_scalar_y M roots rounds s)
             (seq 0 m) before after ->
  Forall D before -> Forall (below M) after.
Proof.
  intros Hlen Hroots [L U _] Hbefore. rewrite Forall_lookup in Hbefore |- *.
  intros p x Hp.
  assert (Hlt : p < 2 * m) by (apply lookup_lt_Some in Hp; lia).
  destruct (div_mod_decompose 2 p) as [Hdec Hr]; [discriminate|].
  assert (Hi : p / 2 < m) by lia.
  destruct (U (p / 2)) as (vx & vy & Hvx & Hvy & Hax & Hay).
  { apply elem_of_seq. lia. }
  apply Hbefore in Hvx. apply Hbefore in Hvy.
  destruct (lookup_lt_is_Some_2 roots (rounds + p / 2)) as [r Hroot]; [lia|].
  unfold last_slot_x, last_slot_y, last_scalar_x, last_scalar_y in *.
  rewrite Hroot in *.
  destruct (decide (p mod 2 = 0)) as [H0|H1].
  - replace (2 * (p / 2)) with p in Hax by lia.
    rewrite Hp in Hax. inversion Hax.
    apply full_reduce_range, scaled_diff_range; assumption.
  - replace (2 * (p / 2) + 1) with p in Hay by lia.
    rewrite Hp in Hay. inversion Hay.
    apply full_reduce_range, scaled_sum_range; assumption.
Qed.
End Ranges.
End Contracts.

(** ** A call on a buffer of [2^log_n] residues *)

Lemma stage_gap_eq (log_n k : nat) :
  S k < log_n -> 2 ^ log_n / 2 ^ (k + 1) = stage_gap log_n k.
Proof.
  intros Hk. unfold stage_gap. rewrite pow2_div by lia. f_equal. lia.
Qed.

Lemma stage_size (log_n k : nat) :
  S k <= log_n -> 2 * stage_gap log_n k * 2 ^ k = 2 ^ log_n.
Proof.
  intros Hk. unfold stage_gap. rewrite (pow2_split log_n (S k)) by lia.
  rewrite pow2_S. lia.
Qed.

Lemma stage_roots (log_n k bound : nat) :
  S k <= log_n -> 2 ^ log_n <= bound -> 2 ^ k + 2 ^ k <= bound.
Proof.
  intros Hk Hb. assert (2 ^ S k <= 2 ^ log_n).
  { apply Nat.pow_le_mono_r; lia. }
  rewrite pow2_S in H. lia.
Qed.

Lemma unrolled_range (m h : nat) : m * (4 * h) / 4 = m * (4 * h / 4).
Proof.
  replace (m * (4 * h)) with (m * h * 4) by lia.
  replace (4 * h) with (h * 4) by lia.
  rewrite !Nat.div_mul by discriminate. reflexivity.
Qed.

(** The dispatch of iteration [k], whichever kernel it uses, is the
    small-gap dispatch over [2^k * gap] units. *)
Lemma interior_dispatch_small
    {RootType ScalarType : Type} `{Arith : DwtArith RootType ScalarType}
    (modulus : Z) (roots : list RootType) (log_n k : nat) (values : list Z) :
  S k < log_n ->
  parallel_for (fst (@interior_dispatch ScalarType log_n k))
               (run_kernel modulus roots (snd (@interior_dispatch ScalarType log_n k)))
               values
  = parallel_for (2 ^ k * stage_gap log_n k)
                 (DwtGapLE4 modulus roots (stage_gap log_n k) (2 ^ k)) values.
Proof.
  intros Hk. unfold interior_dispatch.
  rewrite roots_consumed_pow2, stage_gap_eq by assumption.
  destruct (decide (stage_gap log_n k < 4)) as [Hs|Hl]; cbn [fst snd run_kernel].
  - reflexivity.
  - unfold stage_gap in Hl. apply pow2_ge4 in Hl as [Hl _].
    fold (stage_gap log_n k) in Hl.
    rewrite <- (large_gap_dispatch modulus roots 4).
    + f_equal. rewrite Hl. symmetry. apply unrolled_range.
    + discriminate.
    + unfold stage_gap. apply pow2_nonzero.
    + rewrite Hl, Nat.mul_comm. apply Nat.Div0.mod_mul.
Qed.

(** The stage of iteration [k] on a buffer of [2^log_n] slots. *)
Lemma interior_dispatch_run
    {RootType ScalarType : Type} `{Arith : DwtArith RootType ScalarType}
    (modulus : Z) (roots : list RootType) (log_n k : nat) (values : list Z) :
  2 ^ log_n <= length roots -> S k < log_n -> length values = 2 ^ log_n ->
  exists after,
    parallel_for (fst (@interior_dispatch ScalarType log_n k))
                 (run_kernel modulus roots (snd (@interior_dispatch ScalarType log_n k)))
                 values = Done after /\
    dispatched (stage_slot_x (stage_gap log_n k)) (stage_slot_y (stage_gap log_n k))
               (stage_x modulus roots (stage_gap log_n k) (2 ^ k))
               (stage_y modulus roots (stage_gap log_n k) (2 ^ k))
               (seq 0 (2 ^ k * stage_gap log_n k)) values after.
Proof.
  intros Hroots Hk Hlen. rewrite interior_dispatch_small by assumption.
  apply small_gap_dispatch.
  - unfold stage_gap. apply pow2_nonzero.
  - rewrite Hlen. symmetry. apply stage_size. lia.
  - apply (stage_roots log_n); [lia | assumption].
Qed.

Section Call.
Context {RootType ScalarType : Type} `{Arith : DwtArith RootType ScalarType}.
Variable modulus : Z.
Variable roots : list RootType.
Variable log_n : nat.
Variable values0 : list Z.
Hypothesis log_n_pos : 1 <= log_n <= 31.
Hypothesis buffer_length : length values0 = 2 ^ log_n.
Hypothesis roots_length : 2 ^ log_n <= length roots.

Lemma stage_body_run k st :
  control log_n values0 k st -> S k < log_n ->
  exists st', stage_body modulus roots st = Done st'.
Proof.
  intros C Hk.
  destruct (interior_dispatch_run modulus roots log_n k (q_values (ls_queue st))
              roots_length Hk) as (after & Hrun & _).
  { rewrite (control_length _ _ _ _ C). assumption. }
  destruct C as [_ Hm Hgap Htr _ _].
  assert (Hg : ls_gap st / 2 = stage_gap log_n k).
  { rewrite Hgap, pow2_half by lia. unfold stage_gap. f_equal. lia. }
  unfold interior_dispatch in Hrun.
  rewrite roots_consumed_pow2, stage_gap_eq in Hrun by assumption.
  rewrite stage_body_eq, Hg, Hm, Htr, int_rounds_pow2 by lia.
  destruct (decide (stage_gap log_n k < 4)) as [Hs|Hl]; cbn [fst snd] in Hrun.
  - unfold submit. rewrite Hrun. simpl. eauto.
  - unfold submit, unroll.
    replace (2 ^ k * stage_gap log_n k / 4) with (2 ^ k * (stage_gap log_n k / 4)).
    + rewrite Hrun. simpl. eauto.
    + unfold stage_gap in Hl |- *. apply pow2_ge4 in Hl as [-> _].
      symmetry. apply unrolled_range.
Qed.

(** The loop leaves through its test after [log_n - 1] iterations. *)
Lemma stage_loop_run fuel : forall d k st,
  at_iteration modulus roots log_n values0 k st ->
  k + d + 1 = log_n -> d <= fuel ->
  exists st', stage_loop modulus roots fuel (2 ^ log_n) st = Done st' /\
              at_iteration modulus roots log_n values0 (log_n - 1) st'.
Proof.
  induction fuel as [|fuel IH]; intros d k st Hat Hd Hfuel.
  - assert (d = 0) by lia. subst d.
    pose proof (reachable_control _ _ _ _ log_n_pos _ _ Hat) as C.
    exists st. split.
    + simpl. destruct (stage_cond (2 ^ log_n) st) eqn:Hc; [|reflexivity].
      apply (control_cond _ _ log_n_pos _ _ C) in Hc. lia.
    + replace (log_n - 1) with k by lia. assumption.
  - pose proof (reachable_control _ _ _ _ log_n_pos _ _ Hat) as C.
    simpl. destruct (stage_cond (2 ^ log_n) st) eqn:Hc.
    + pose proof Hc as Hk. apply (control_cond _ _ log_n_pos _ _ C) in Hk.
      destruct (stage_body_run k st C Hk) as (st' & Hbody).
      rewrite Hbody. simpl.
      apply (IH (d - 1) (S k)); [|lia|lia].
      eapply at_next; eassumption.
    + exists st. split; [reflexivity|].
      assert (~ S k < log_n).
      { intros Hk. apply (control_cond _ _ log_n_pos _ _ C) in Hk. congruence. }
      replace (log_n - 1) with k by lia. assumption.
Qed.

Lemma stage_loop_Done :
  exists st, stage_loop modulus roots log_n (2 ^ log_n)
               (initial_state (2 ^ log_n) values0) = Done st /\
             at_iteration modulus roots log_n values0 (log_n - 1) st.
Proof.
  apply (stage_loop_run log_n (log_n - 1) 0); [constructor | lia | lia].
Qed.

(** Every iteration below [log_n - 1] is reached. *)
Lemma iteration_reached k :
  k < log_n -> exists st, at_iteration modulus roots log_n values0 k st.
Proof.
  induction k as [|k IH]; intros Hk.
  - eexists. constructor.
  - destruct IH as (st & Hat); [lia|].
    pose proof (reachable_control _ _ _ _ log_n_pos _ _ Hat) as C.
    destruct (stage_body_run k st C Hk) as (st' & Hbody).
    exists st'. eapply at_next; try eassumption.
    apply (control_cond _ _ log_n_pos _ _ C). assumption.
Qed.

End Call.

(** ** The primitives modelled from the specification meet the contracts *)

Lemma spec_arith_fits (M : Z) :
  (0 < M)%Z -> (4 * M <= 2 ^ 64)%Z -> word_fits (Arith := spec_arith) M.
Proof. intros H0 H4. unfold word_fits. simpl. lia. Qed.

Lemma spec_arith_ranges (M : Z) :
  (0 < M)%Z -> (4 * M <= 2 ^ 64)%Z -> range_contract (Arith := spec_arith) M.
Proof.
  intros H0 H4. split; unfold below; simpl.
  - intros x Hx. exact Hx.
  - intros x Hx. destruct (Z.leb_spec (2 * M) x); lia.
  - intros y r Hy. apply Z.mod_pos_bound. assumption.
  - intros u v Hu Hv. rewrite Z.mod_small; lia.
  - intros u v Hu Hv. destruct (Z.ltb_spec u v); lia.
  - intros u s Hu. apply Z.mod_pos_bound. assumption.
Qed.

Lemma spec_arith_exact (M : Z) :
  (0 < M)%Z -> (4 * M <= 2 ^ 64)%Z ->
  exact_contract (Arith := spec_arith) M (fun r => r) (fun s => s).
Proof.
  intros H0 H4. split; unfold below; simpl.
  - intros x Hx. destruct (Z.leb_spec (2 * M) x); [|reflexivity].
    replace (x - 2 * M)%Z with (x + (-2) * M)%Z by lia. apply Z.mod_add. lia.
  - intros y r Hy. apply Z.mod_mod. lia.
  - intros u v Hu Hv. rewrite (Z.mod_small (u + v)); [reflexivity | lia].
  - intros u v Hu Hv. destruct (Z.ltb_spec u v); [|reflexivity].
    replace (u + 2 * M - v)%Z with (u - v + 2 * M)%Z by lia. apply Z.mod_add. lia.
  - intros u s Hu. apply Z.mod_mod. lia.
  - intros r s. apply Z.mod_mod. lia.
Qed.

(** ** Write footprints *)

Lemma flat_map_seq_shift {A : Type} (f g : nat -> list A) (a b len : nat) :
  (forall k, k < len -> f (a + k) = g (b + k)) ->
  flat_map f (seq a len) = flat_map g (seq b len).
Proof.
  revert a b. induction len as [|len IH]; intros a b H; simpl.
  - reflexivity.
  - f_equal.
    + specialize (H 0). rewrite !Nat.add_0_r in H. apply H. lia.
    + apply IH. intros k Hk. replace (S a + k) with (a + S k) by lia.
      replace (S b + k) with (b + S k) by lia. apply H. lia.
Qed.

(** The slots of an unrolled unit are those of [Unroll] consecutive
    small-gap units. *)
Lemma DwtLargeGap_slots_units (Unroll gap idx : nat) :
  Unroll <> 0 -> gap <> 0 -> gap mod Unroll = 0 ->
  DwtLargeGap_slots Unroll gap idx
  = flat_map (DwtGapLE4_slots gap) (seq (Unroll * idx) Unroll).
Proof.
  intros HU Hg Hdiv. unfold DwtLargeGap_slots.
  assert (Hgap : gap = Unroll * (gap / Unroll)).
  { pose proof (Nat.div_mod_eq gap Unroll). lia. }
  set (q := gap / Unroll) in *.
  assert (Hq : q <> 0) by (intros Hq0; rewrite Hq0 in Hgap; lia).
  destruct (div_mod_decompose q idx Hq) as [Hidx Hj].
  apply flat_map_seq_shift. intros k Hk. simpl.
  unfold DwtGapLE4_slots. rewrite DwtLargeGap_offset_eq, DwtGapLE4_offset_eq. fold q.
  set (i := idx / q) in *. set (j := idx mod q) in *.
  replace (Unroll * idx + k) with (gap * i + (Unroll * j + k)) by nia.
  destruct (div_mod_compose gap i (Unroll * j + k)) as [-> ->]; [nia|].
  f_equal; [lia|]. f_equal. lia.
Qed.

Lemma DwtGapLE4_slots_disjoint (gap a b p : nat) :
  gap <> 0 -> a <> b -> p ∈ DwtGapLE4_slots gap a -> p ∈ DwtGapLE4_slots gap b -> False.
Proof.
  intros Hg Hab Ha Hb. unfold DwtGapLE4_slots in *.
  destruct (GapLE4_slots_distinct gap a b Hg Hab) as (?&?&?&?).
  apply elem_of_cons in Ha as [->|Ha]; [|apply list_elem_of_singleton in Ha as ->];
    (apply elem_of_cons in Hb as [Hb|Hb]; [|apply list_elem_of_singleton in Hb]);
    congruence.
Qed.

Lemma elem_of_flat_map_seq {A : Type} (f : nat -> list A) (a len : nat) (x : A) :
  x ∈ flat_map f (seq a len) <-> exists k, a <= k < a + len /\ x ∈ f k.
Proof.
  rewrite list_elem_of_In, in_flat_map. split.
  - intros (k & Hk & Hx). exists k. apply in_seq in Hk.
    rewrite list_elem_of_In. auto.
  - intros (k & Hk & Hx). exists k. rewrite in_seq, <- list_elem_of_In. auto.
Qed.

Lemma small_slots_bound (gap m ind p : nat) :
  ind < m * gap -> p ∈ DwtGapLE4_slots gap ind -> p < 2 * gap * m.
Proof.
  intros Hind Hp. pose proof (GapLE4_offset_bound gap m ind Hind).
  unfold DwtGapLE4_slots in Hp.
  apply elem_of_cons in Hp as [->|Hp]; [|apply list_elem_of_singleton in Hp as ->]; lia.
Qed.

Lemma unrolled_units_lt (gap m idx k : nat) :
  gap mod 4 = 0 -> idx < m * (gap / 4) -> 4 * idx <= k < 4 * idx + 4 -> k < m * gap.
Proof.
  intros Hdiv Hidx Hk. pose proof (Nat.div_mod_eq gap 4). nia.
Qed.

Lemma large_slots_bound (gap m idx p : nat) :
  gap <> 0 -> gap mod 4 = 0 -> idx < m * (gap / 4) ->
  p ∈ DwtLargeGap_slots 4 gap idx -> p < 2 * gap * m.
Proof.
  intros Hg Hdiv Hidx. rewrite DwtLargeGap_slots_units by (assumption || discriminate).
  rewrite elem_of_flat_map_seq. intros (k & Hk & Hp).
  apply (small_slots_bound gap m k); [|assumption].
  apply (unrolled_units_lt gap m idx); assumption.
Qed.

Lemma large_slots_NoDup (gap idx : nat) :
  gap <> 0 -> gap mod 4 = 0 -> NoDup (DwtLargeGap_slots 4 gap idx).
Proof.
  intros Hg Hdiv.
  assert (4 <= gap) by (pose proof (Nat.div_mod_eq gap 4); lia).
  unfold DwtLargeGap_slots. simpl.
  repeat (apply NoDup_cons; split;
          [rewrite ?not_elem_of_cons; repeat split; try lia; apply not_elem_of_nil|]).
  apply NoDup_nil. trivial.
Qed.

Lemma large_slots_disjoint (gap a b p : nat) :
  gap <> 0 -> gap mod 4 = 0 -> a <> b ->
  p ∈ DwtLargeGap_slots 4 gap a -> p ∉ DwtLargeGap_slots 4 gap b.
Proof.
  intros Hg Hdiv Hab. rewrite !DwtLargeGap_slots_units by (assumption || discriminate).
  rewrite !elem_of_flat_map_seq. intros (k & Hk & Hp) (k' & Hk' & Hp').
  apply (DwtGapLE4_slots_disjoint gap k k' p); try assumption. lia.
Qed.

(** The four small-gap units an unrolled unit stands for read the root
    of the unrolled unit. *)
Lemma unrolled_units_root (gap idx k : nat) :
  gap <> 0 -> gap mod 4 = 0 -> 4 * idx <= k < 4 * idx + 4 ->
  k / gap = idx / (gap / 4).
Proof.
  intros Hg Hdiv Hk.
  assert (Hgap : gap = 4 * (gap / 4)) by (pose proof (Nat.div_mod_eq gap 4); lia).
  set (q := gap / 4) in *.
  assert (Hq : q <> 0) by lia.
  destruct (div_mod_decompose q idx Hq) as [Hidx Hj].
  set (i := idx / q) in *. set (j := idx mod q) in *.
  replace k with (gap * i + (4 * j + (k - 4 * idx))) by nia.
  apply div_mod_compose. nia.
Qed.

Section Footprints.
Context {RootType ScalarType : Type} `{Arith : DwtArith RootType ScalarType}.
Variable modulus : Z.
Variable roots : list RootType.
Variables gap m n rounds : nat.
Variable values : list Z.
Hypothesis gap_nonzero : gap <> 0.
Hypothesis stage_shape : 2 * gap * m = n.
Hypothesis buffer_length : length values = n.
Hypothesis roots_length : rounds + m <= length roots.

(** A run of small-gap units that share the root [r] stores the terms of
    its butterflies in the slots of the units and changes nothing else. *)
Lemma small_units_written (inds : list nat) (r : RootType) :
  NoDup inds -> (forall ind, ind ∈ inds -> ind < m * gap) ->
  (forall ind, ind ∈ inds -> roots !! (rounds + ind / gap) = Some r) ->
  exists after,
    run_units (DwtGapLE4 modulus roots gap rounds) inds values = Done after /\
    length after = length values /\
    (forall p, p ∉ flat_map (DwtGapLE4_slots gap) inds -> after !! p = values !! p) /\
    (forall p, p ∈ flat_map (DwtGapLE4_slots gap) inds ->
       exists x vx vy,
         (p = x \/ p = x + gap) /\
         x ∈ flat_map (DwtGapLE4_slots gap) inds /\
         x + gap ∈ flat_map (DwtGapLE4_slots gap) inds /\
         values !! x = Some vx /\ values !! (x + gap) = Some vy /\
         after !! x = Some (butterfly_x modulus r vx vy) /\
         after !! (x + gap) = Some (butterfly_y modulus r vx vy)).
Proof.
  intros Hnd Hin Hroot.
  destruct (small_gap_units modulus roots gap rounds m inds values)
    as (after & Hrun & [L U Fr]); try assumption; [lia|].
  assert (Hslot : forall ind q, ind ∈ inds -> q ∈ DwtGapLE4_slots gap ind ->
            q ∈ flat_map (DwtGapLE4_slots gap) inds).
  { intros ind q Hind Hq. rewrite list_elem_of_In, in_flat_map.
    exists ind. rewrite <- !list_elem_of_In. split; assumption. }
  exists after. split; [assumption|]. split; [assumption|]. split.
  - intros p Hp. apply Fr. intros ind Hind.
    unfold stage_slot_x, stage_slot_y.
    split; intros ->; apply Hp; apply (Hslot ind); try assumption;
      unfold DwtGapLE4_slots; rewrite !elem_of_cons; auto.
  - intros p Hp. apply list_elem_of_In, in_flat_map in Hp as (ind & Hind & Hp).
    rewrite <- !list_elem_of_In in Hind, Hp.
    destruct (U ind Hind) as (vx & vy & Hx & Hy & Hax & Hay).
    unfold stage_slot_x, stage_slot_y, stage_x, stage_y in *.
    rewrite (Hroot ind Hind) in Hax, Hay.
    exists (DwtGapLE4_offset gap ind), vx, vy.
    split; [|split; [|split]].
    + unfold DwtGapLE4_slots in Hp.
      apply elem_of_cons in Hp as [->|Hp]; [left; reflexivity|].
      apply list_elem_of_singleton in Hp as ->. right. reflexivity.
    + apply (Hslot ind); [assumption|].
      unfold DwtGapLE4_slots. rewrite !elem_of_cons. auto.
    + apply (Hslot ind); [assumption|].
      unfold DwtGapLE4_slots. rewrite !elem_of_cons. auto.
    + auto.
Qed.

Lemma small_unit_writes ind :
  ind < m * gap ->
  exists r, roots !! (rounds + ind / gap) = Some r /\
    writes_exactly modulus r gap (DwtGapLE4_slots gap ind) n
      (DwtGapLE4 modulus roots gap rounds ind) values.
Proof.
  intros Hind.
  destruct (lookup_lt_is_Some_2 roots (rounds + ind / gap)) as [r Hr].
  { pose proof (group_lt _ _ _ Hind). lia. }
  exists r. split; [assumption|]. split; [|split].
  - unfold DwtGapLE4_slots. apply NoDup_cons. split.
    + rewrite list_elem_of_singleton. lia.
    + apply NoDup_singleton.
  - intros p. rewrite <- stage_shape. apply small_slots_bound. assumption.
  - destruct (small_units_written [ind] r) as (after & Hrun & Hlen & Hfr & Hw).
    + apply NoDup_singleton.
    + intros a Ha. apply list_elem_of_singleton in Ha as ->. assumption.
    + intros a Ha. apply list_elem_of_singleton in Ha as ->. assumption.
    + exists after. cbn [run_units] in Hrun.
      destruct (DwtGapLE4 modulus roots gap rounds ind values); try discriminate.
      cbn [flat_map] in Hfr, Hw. rewrite app_nil_r in Hfr, Hw.
      split; [assumption|]. split; [assumption|]. split; assumption.
Qed.

Lemma large_unit_writes idx :
  gap mod 4 = 0 -> idx < m * (gap / 4) ->
  exists r, roots !! (rounds + idx / (gap / 4)) = Some r /\
    writes_exactly modulus r gap (DwtLargeGap_slots 4 gap idx) n
      (DwtLargeGap modulus roots 4 gap rounds idx) values.
Proof.
  intros Hdiv Hidx.
  destruct (lookup_lt_is_Some_2 roots (rounds + idx / (gap / 4))) as [r Hr].
  { pose proof (group_lt _ _ _ Hidx). lia. }
  exists r. split; [assumption|]. split; [|split].
  - apply large_slots_NoDup; assumption.
  - intros p. rewrite <- stage_shape. apply large_slots_bound; assumption.
  - rewrite DwtLargeGap_as_units by (assumption || discriminate).
    rewrite DwtLargeGap_slots_units by (assumption || discriminate).
    apply small_units_written.
    + apply NoDup_seq.
    + intros k Hk. apply elem_of_seq in Hk.
      apply (unrolled_units_lt gap m idx); [assumption | assumption | lia].
    + intros k Hk. apply elem_of_seq in Hk.
      rewrite (unrolled_units_root gap idx k) by (assumption || lia). assumption.
Qed.
End Footprints.

(** C10: for a stage with [2 * gap * m = n] on a buffer of [n] slots, a
    unit of the small-gap kernel writes exactly its own two slots and a
    unit of the large-gap kernel (unroll 4, [gap] a multiple of 4) exactly
    its own eight: the unit completes, stores in each pair [x], [x + gap]
    of its slots the sum and the difference term of the butterfly of the
    two values the pair held, with the root of the unit, and leaves every
    other slot as it was; all slots lie below [n], and units with distinct
    indices share no slot. *)
Theorem write_footprints_disjoint_in_bounds
    {RootType ScalarType : Type} `{Arith : DwtArith RootType ScalarType}
    (modulus : Z) (roots : list RootType) (gap m n rounds : nat) (values : list Z) :
  gap <> 0 -> 2 * gap * m = n -> length values = n -> rounds + m <= length roots ->
  (forall ind, ind < m * gap ->
     length (DwtGapLE4_slots gap ind) = 2 /\
     exists r, roots !! (rounds + ind / gap) = Some r /\
       writes_exactly modulus r gap (DwtGapLE4_slots gap ind) n
                      (DwtGapLE4 modulus roots gap rounds ind) values) /\
  (forall a b p, a < m * gap -> b < m * gap -> a <> b ->
     p ∈ DwtGapLE4_slots gap a -> p ∉ DwtGapLE4_slots gap b) /\
  (gap mod 4 = 0 ->
     (forall idx, idx < m * (gap / 4) ->
        length (DwtLargeGap_slots 4 gap idx) = 8 /\
        exists r, roots !! (rounds + idx / (gap / 4)) = Some r /\
          writes_exactly modulus r gap (DwtLargeGap_slots 4 gap idx) n
                         (DwtLargeGap modulus roots 4 gap rounds idx) values) /\
     (forall a b p, a < m * (gap / 4) -> b < m * (gap / 4) -> a <> b ->
        p ∈ DwtLargeGap_slots 4 gap a -> p ∉ DwtLargeGap_slots 4 gap b)).
Proof.
  intros Hg Hn Hlen Hroots. split; [|split].
  - intros ind Hind. split; [reflexivity|].
    apply (small_unit_writes modulus roots gap m n rounds values); assumption.
  - intros a b p _ _ Hab Ha Hb.
    apply (DwtGapLE4_slots_disjoint gap a b p); assumption.
  - intros Hdiv. split.
    + intros idx Hidx. split; [reflexivity|].
      apply (large_unit_writes modulus roots gap m n rounds values); assumption.
    + intros a b p _ _ Hab.
      apply large_slots_disjoint; assumption.
Qed.

(** The units of a stage may run in any order: every enumeration of the
    work items of a small-gap dispatch leaves the buffer the ascending one
    leaves. *)
Lemma stage_order_irrelevant
    {RootType ScalarType : Type} `{Arith : DwtArith RootType ScalarType}
    (modulus : Z) (roots : list RootType) (gap m rounds : nat)
    (inds : list nat) (values : list Z) :
  gap <> 0 -> length values = 2 * gap * m -> rounds + m <= length roots ->
  inds ≡ₚ seq 0 (m * gap) ->
  run_units (DwtGapLE4 modulus roots gap rounds) inds values
  = parallel_for (m * gap) (DwtGapLE4 modulus roots gap rounds) values.
Proof.
  intros Hg Hlen Hroots Hperm.
  destruct (small_gap_dispatch modulus roots gap rounds m values Hg Hlen Hroots)
    as (after & Hrun & Hd).
  destruct (small_gap_units modulus roots gap rounds m inds values Hg Hlen Hroots)
    as (after' & Hrun' & Hd').
  - rewrite Hperm. apply NoDup_seq.
  - intros ind Hind. rewrite Hperm in Hind. apply elem_of_seq in Hind. lia.
  - rewrite Hrun, Hrun'. f_equal.
    eapply dispatched_unique; [|exact Hd].
    eapply dispatched_perm; [exact Hperm | exact Hd'].
Qed.

Lemma last_round_order_irrelevant
    {RootType ScalarType : Type} `{Arith : DwtArith RootType ScalarType}
    (modulus : Z) (roots : list RootType) (m rounds : nat)
    (inds : list nat) (values : list Z) :
  length values = 2 * m -> rounds + m <= length roots ->
  inds ≡ₚ seq 0 m ->
  run_units (DwtLastRound modulus roots rounds) inds values
  = parallel_for m (DwtLastRound modulus roots rounds) values.
Proof.
  intros Hlen Hroots Hperm.
  destruct (last_round_dispatch modulus roots rounds m values Hlen Hroots)
    as (after & Hrun & Hd).
  destruct (last_round_units modulus roots rounds m inds values Hlen Hroots)
    as (after' & Hrun' & Hd').
  - rewrite Hperm. apply NoDup_seq.
  - intros ind Hind. rewrite Hperm in Hind. apply elem_of_seq in Hind. lia.
  - rewrite Hrun, Hrun'. f_equal.
    eapply dispatched_unique; [|exact Hd].
    eapply dispatched_perm; [exact Hperm | exact Hd'].
Qed.

(** C7: for a gap that is a multiple of 4 (every power of two from 4 on),
    the large-gap kernel with unroll 4 over [m * (gap / 4)] units leaves
    exactly the buffer the small-gap kernel leaves over [m * gap] units,
    faults included. *)
Theorem unrolling_preserves_semantics
    {RootType ScalarType : Type} `{Arith : DwtArith RootType ScalarType}
    (modulus : Z) (roots : list RootType) (gap root_offset m : nat) (values : list Z) :
  gap <> 0 -> gap mod 4 = 0 ->
  parallel_for (m * (gap / 4)) (DwtLargeGap modulus roots 4 gap root_offset) values
  = parallel_for (m * gap) (DwtGapLE4 modulus roots gap root_offset) values.
Proof.
  intros Hg Hdiv.
  rewrite <- (large_gap_dispatch modulus roots 4 gap root_offset m values)
    by (assumption || discriminate).
  f_equal. pose proof (Nat.div_mod_eq gap 4) as Hgap.
  replace (m * gap) with (m * (gap / 4) * 4) by lia.
  rewrite Nat.div_mul by discriminate. reflexivity.
Qed.

Lemma unrolling_preserves_semantics_witness :
  parallel_for (2 * (4 / 4)) (DwtLargeGap 17%Z [0; 4; 2; 8]%Z 4 4 1)
               [1; 2; 3; 4; 5; 6; 7; 8; 9; 10; 11; 12; 13; 14; 15; 16]%Z
  = parallel_for (2 * 4) (DwtGapLE4 17%Z [0; 4; 2; 8]%Z 4 1)
               [1; 2; 3; 4; 5; 6; 7; 8; 9; 10; 11; 12; 13; 14; 15; 16]%Z.
Proof.
  apply (unrolling_preserves_semantics (Arith := spec_arith)); [lia | reflexivity].
Defined.

Lemma write_footprints_witness :
  (forall ind, ind < 2 * 4 ->
     length (DwtGapLE4_slots 4 ind) = 2 /\
     exists r, [0; 4; 2; 8]%Z !! (2 + ind / 4) = Some r /\
       writes_exactly (Arith := spec_arith) 17%Z r 4 (DwtGapLE4_slots 4 ind) 16
                      (DwtGapLE4 17%Z [0; 4; 2; 8]%Z 4 2 ind) (repeat 3%Z 16)) /\
  (forall a b p, a < 2 * 4 -> b < 2 * 4 -> a <> b ->
     p ∈ DwtGapLE4_slots 4 a -> p ∉ DwtGapLE4_slots 4 b) /\
  (4 mod 4 = 0 ->
     (forall idx, idx < 2 * (4 / 4) ->
        length (DwtLargeGap_slots 4 4 idx) = 8 /\
        exists r, [0; 4; 2; 8]%Z !! (2 + idx / (4 / 4)) = Some r /\
          writes_exactly (Arith := spec_arith) 17%Z r 4 (DwtLargeGap_slots 4 4 idx) 16
                         (DwtLargeGap 17%Z [0; 4; 2; 8]%Z 4 4 2 idx) (repeat 3%Z 16)) /\
     (forall a b p, a < 2 * (4 / 4) -> b < 2 * (4 / 4) -> a <> b ->
        p ∈ DwtLargeGap_slots 4 4 a -> p ∉ DwtLargeGap_slots 4 4 b)).
Proof.
  apply (write_footprints_disjoint_in_bounds (Arith := spec_arith));
    [lia | reflexivity | reflexivity | simpl; lia].
Defined.

(** ** The whole call *)

Section Run.
Context {RootType ScalarType : Type} `{Arith : DwtArith RootType ScalarType}.
Variable modulus : Z.
Variable roots : list RootType.
Variable log_n : nat.
Variable values0 : list Z.
Hypothesis log_n_pos : 1 <= log_n <= 31.
Hypothesis buffer_length : length values0 = 2 ^ log_n.

Lemma Dwt_gpu_last scalar st :
  stage_loop modulus roots log_n (2 ^ log_n) (initial_state (2 ^ log_n) values0) = Done st ->
  at_iteration modulus roots log_n values0 (log_n - 1) st ->
  Dwt_gpu modulus roots log_n scalar values0
  = submit modulus roots (2 ^ (log_n - 1)) (last_kernel scalar (2 ^ (log_n - 1)))
           (ls_queue st).
Proof.
  intros Hloop Hat.
  pose proof (reachable_control _ _ _ _ log_n_pos _ _ Hat) as C.
  rewrite Dwt_gpu_eq, Hloop. cbn [mbind outcome_bind].
  rewrite (control_m _ _ _ _ C), (control_total_r _ _ _ _ C).
  rewrite int_rounds_pow2 by lia.
  destruct scalar; reflexivity.
Qed.

(** Without faults the loop would end in the state of iteration
    [log_n - 1]; it never runs out of fuel. *)
Lemma stage_loop_outcome fuel : forall d k st,
  at_iteration modulus roots log_n values0 k st ->
  k + d + 1 = log_n -> d <= fuel ->
  stage_loop modulus roots fuel (2 ^ log_n) st = Fault \/
  exists st', stage_loop modulus roots fuel (2 ^ log_n) st = Done st' /\
              at_iteration modulus roots log_n values0 (log_n - 1) st'.
Proof.
  induction fuel as [|fuel IH]; intros d k st Hat Hd Hfuel;
    pose proof (reachable_control _ _ _ _ log_n_pos _ _ Hat) as C; simpl;
    destruct (stage_cond (2 ^ log_n) st) eqn:Hc.
  - apply (control_cond _ _ log_n_pos _ _ C) in Hc. lia.
  - right. exists st. split; [reflexivity|].
    replace (log_n - 1) with k by lia. assumption.
  - pose proof (stage_body_not_OutOfFuel modulus roots st) as Hno.
    destruct (stage_body modulus roots st) as [st'| |] eqn:Hbody; simpl.
    + apply (IH (d - 1) (S k)).
      * eapply at_next; eassumption.
      * apply (control_cond _ _ log_n_pos _ _ C) in Hc. lia.
      * lia.
    + left. reflexivity.
    + congruence.
  - right. exists st. split; [reflexivity|].
    assert (~ S k < log_n).
    { intros Hk. apply (control_cond _ _ log_n_pos _ _ C) in Hk. congruence. }
    replace (log_n - 1) with k by lia. assumption.
Qed.

(** A root table with fewer than [2^log_n] entries makes the call fault:
    the last unit of the last round reads entry [2^log_n - 1]. *)
Lemma short_roots_Fault scalar :
  length roots < 2 ^ log_n -> Dwt_gpu modulus roots log_n scalar values0 = Fault.
Proof.
  intros Hshort.
  destruct (stage_loop_outcome log_n (log_n - 1) 0
              (initial_state (2 ^ log_n) values0)) as [Hf|(st & Hloop & Hat)];
    [constructor | lia | lia | |].
  - rewrite Dwt_gpu_eq, Hf. reflexivity.
  - rewrite (Dwt_gpu_last scalar st Hloop Hat). unfold submit, parallel_for.
    pose proof (half_size log_n (proj1 log_n_pos)) as Hhalf.
    rewrite (run_units_Fault _ _ (2 ^ (log_n - 1) - 1)); [reflexivity| | |].
    + apply elem_of_seq. pose proof (pow2_nonzero (log_n - 1)). lia.
    + intros vs. pose proof (pow2_nonzero (log_n - 1)).
      destruct scalar as [s|]; cbn [last_kernel run_kernel];
        [unfold DwtLastRoundScalar | unfold DwtLastRound];
        rewrite (load_None roots) by lia; reflexivity.
    + apply run_kernel_not_OutOfFuel.
Qed.

Section EnoughRoots.
Hypothesis roots_length : 2 ^ log_n <= length roots.

(** The call completes: the loop ends in the state of iteration
    [log_n - 1] and the last round runs over [n / 2] units. *)
Lemma Dwt_gpu_run scalar :
  exists st q,
    stage_loop modulus roots log_n (2 ^ log_n) (initial_state (2 ^ log_n) values0)
      = Done st /\
    at_iteration modulus roots log_n values0 (log_n - 1) st /\
    Dwt_gpu modulus roots log_n scalar values0 = Done q /\
    parallel_for (2 ^ (log_n - 1))
      (run_kernel modulus roots (last_kernel scalar (2 ^ (log_n - 1))))
      (q_values (ls_queue st)) = Done (q_values q) /\
    q_log q = map (interior_dispatch log_n) (seq 0 (log_n - 1))
              ++ [(2 ^ (log_n - 1), last_kernel scalar (2 ^ (log_n - 1)))].
Proof.
  destruct (stage_loop_Done modulus roots log_n values0 log_n_pos buffer_length
              roots_length) as (st & Hloop & Hat).
  pose proof (reachable_control _ _ _ _ log_n_pos _ _ Hat) as C.
  pose proof (half_size log_n (proj1 log_n_pos)) as Hhalf.
  assert (Hlen : length (q_values (ls_queue st)) = 2 * 2 ^ (log_n - 1)).
  { rewrite (control_length _ _ _ _ C). lia. }
  assert (Hr : 2 ^ (log_n - 1) + 2 ^ (log_n - 1) <= length roots) by lia.
  assert (Hrun : exists after,
    parallel_for (2 ^ (log_n - 1))
      (run_kernel modulus roots (last_kernel scalar (2 ^ (log_n - 1))))
      (q_values (ls_queue st)) = Done after).
  { destruct scalar as [s|]; simpl.
    - destruct (last_round_scalar_dispatch modulus roots _ s _ _ Hlen Hr)
        as (after & Hrun & _). eauto.
    - destruct (last_round_dispatch modulus roots _ _ _ Hlen Hr)
        as (after & Hrun & _). eauto. }
  destruct Hrun as (after & Hrun).
  exists st, (Build_queue after (q_log (ls_queue st)
                ++ [(2 ^ (log_n - 1), last_kernel scalar (2 ^ (log_n - 1)))])).
  split; [assumption|]. split; [assumption|]. split; [|split].
  - rewrite (Dwt_gpu_last scalar st Hloop Hat). unfold submit.
    rewrite Hrun. reflexivity.
  - assumption.
  - simpl. rewrite (control_log _ _ _ _ C). reflexivity.
Qed.
End EnoughRoots.
End Run.

(** ** The orchestrator: loop invariant, kernel selection, root table *)

(** C5 as the specification states it fails: at the start of iteration 0
    the variable [gap] is [n], not [n / 2]. *)
Lemma loop_invariant_gap_counterexample :
  ~ (forall k st,
       at_iteration (Arith := spec_arith) 17%Z [0; 4; 2; 8]%Z 2 [1; 2; 3; 4]%Z k st ->
       ls_gap st = 2 ^ 2 / 2 ^ (k + 1)).
Proof.
  intros H. specialize (H 0 _ (at_first _ _ _ _)). simpl in H. discriminate.
Qed.

(** C5, amended: for [1 <= log_n <= 31] (every [total_r] fits the [int]
    the kernels take), at the start of interior iteration [k] the loop
    variables are [m = 2^k], [gap = n / 2^k] (the body halves it to
    [n / 2^(k+1)] before it dispatches), and [total_r] is 1 plus the sum of
    the [m] of all prior iterations; on a buffer of [n] values with a root
    table of [n] entries every iteration below [log_n - 1] is reached, and
    the loop leaves exactly when [m] is [n / 2]. *)
Theorem loop_invariant
    {RootType ScalarType : Type} `{Arith : DwtArith RootType ScalarType}
    (modulus : Z) (roots : list RootType) (log_n : nat) (values : list Z) :
  1 <= log_n <= 31 -> length values = 2 ^ log_n -> 2 ^ log_n <= length roots ->
  (forall k st, at_iteration modulus roots log_n values k st ->
     ls_m st = 2 ^ k /\
     ls_gap st = 2 ^ log_n / 2 ^ k /\
     ls_gap st / 2 = 2 ^ log_n / 2 ^ (k + 1) /\
     ls_total_r st = roots_consumed k /\
     (stage_cond (2 ^ log_n) st = false <-> ls_m st = 2 ^ log_n / 2)) /\
  (forall k, k < log_n -> exists st, at_iteration modulus roots log_n values k st) /\
  (exists st,
     stage_loop modulus roots log_n (2 ^ log_n) (initial_state (2 ^ log_n) values)
       = Done st /\
     at_iteration modulus roots log_n values (log_n - 1) st /\
     ls_m st = 2 ^ log_n / 2).
Proof.
  intros Hlog Hlen Hroots. split; [|split].
  - intros k st Hat.
    pose proof (reachable_control _ _ _ _ Hlog _ _ Hat) as C.
    pose proof (control_cond _ _ Hlog _ _ C) as Hcond.
    destruct C as [Hk Hm Hgap Htr _ _].
    split; [assumption|]. split; [|split; [|split]].
    + rewrite Hgap, pow2_div by lia. reflexivity.
    + rewrite Hgap, pow2_half, pow2_div by lia. f_equal. lia.
    + rewrite roots_consumed_pow2. assumption.
    + rewrite Hm, pow2_half by lia. split.
      * intros Hc. f_equal.
        destruct (decide (S k < log_n)) as [Hlt|Hge]; [|lia].
        apply Hcond in Hlt. congruence.
      * intros Heq. apply Nat.pow_inj_r in Heq; [|lia].
        destruct (stage_cond (2 ^ log_n) st); [|reflexivity].
        assert (S k < log_n) by (apply Hcond; reflexivity). lia.
  - intros k Hk. apply iteration_reached; assumption.
  - destruct (stage_loop_Done modulus roots log_n values Hlog Hlen Hroots)
      as (st & Hloop & Hat).
    exists st. split; [assumption|]. split; [assumption|].
    pose proof (reachable_control _ _ _ _ Hlog _ _ Hat) as C.
    rewrite (control_m _ _ _ _ C), pow2_half by lia. reflexivity.
Qed.

Lemma loop_invariant_witness :
  (forall k st,
     at_iteration (Arith := spec_arith) 17%Z [0; 4; 2; 8]%Z 2 [1; 2; 3; 4]%Z k st ->
     ls_m st = 2 ^ k /\
     ls_gap st = 2 ^ 2 / 2 ^ k /\
     ls_gap st / 2 = 2 ^ 2 / 2 ^ (k + 1) /\
     ls_total_r st = roots_consumed k /\
     (stage_cond (2 ^ 2) st = false <-> ls_m st = 2 ^ 2 / 2)) /\
  (forall k, k < 2 ->
     exists st, at_iteration (Arith := spec_arith) 17%Z [0; 4; 2; 8]%Z 2 [1; 2; 3; 4]%Z k st) /\
  (exists st,
     stage_loop (Arith := spec_arith) 17%Z [0; 4; 2; 8]%Z 2 (2 ^ 2)
       (initial_state (2 ^ 2) [1; 2; 3; 4]%Z) = Done st /\
     at_iteration (Arith := spec_arith) 17%Z [0; 4; 2; 8]%Z 2 [1; 2; 3; 4]%Z (2 - 1) st /\
     ls_m st = 2 ^ 2 / 2).
Proof.
  apply (loop_invariant (Arith := spec_arith)); [lia | reflexivity | simpl; lia].
Defined.

(** C6: for [1 <= log_n <= 31], on every interior iteration the body
    halves [gap] and submits one dispatch, which it runs on the buffer:
    below gap 4 the small-gap kernel over [m * gap] units, from gap 4 on
    the large-gap kernel with unroll 4 over [m * (gap / 4)] units, both
    built from the halved [gap] and the current [total_r].  The buffer
    after the body is the one these units leave, and [m] and [total_r]
    move on to [2 * m] and [total_r + m]. *)
Theorem kernel_selection
    {RootType ScalarType : Type} `{Arith : DwtArith RootType ScalarType}
    (modulus : Z) (roots : list RootType) (log_n : nat) (values : list Z)
    (k : nat) (st : loop_state ScalarType) :
  1 <= log_n <= 31 -> length values = 2 ^ log_n -> 2 ^ log_n <= length roots ->
  at_iteration modulus roots log_n values k st ->
  stage_cond (2 ^ log_n) st = true ->
  exists st',
    stage_body modulus roots st = Done st' /\
    ls_gap st' = ls_gap st / 2 /\
    q_log (ls_queue st')
    = q_log (ls_queue st)
      ++ [if decide (ls_gap st' < 4)
          then (ls_m st * ls_gap st', GapLE4 (ls_gap st') (ls_total_r st))
          else (ls_m st * (ls_gap st' / 4), LargeGap 4 (ls_gap st') (ls_total_r st))] /\
    (ls_gap st' < 4 ->
     parallel_for (ls_m st * ls_gap st')
       (DwtGapLE4 modulus roots (ls_gap st') (ls_total_r st))
       (q_values (ls_queue st)) = Done (q_values (ls_queue st'))) /\
    (4 <= ls_gap st' ->
     parallel_for (ls_m st * (ls_gap st' / 4))
       (DwtLargeGap modulus roots 4 (ls_gap st') (ls_total_r st))
       (q_values (ls_queue st)) = Done (q_values (ls_queue st'))) /\
    ls_m st' = 2 * ls_m st /\
    ls_total_r st' = ls_total_r st + ls_m st.
Proof.
  intros Hlog Hlen Hroots Hat Hcond.
  pose proof (reachable_control _ _ _ _ Hlog _ _ Hat) as C.
  pose proof Hcond as Hk. apply (control_cond _ _ Hlog _ _ C) in Hk.
  destruct (stage_body_run modulus roots log_n values Hlog Hlen Hroots k st C Hk)
    as (st' & Hbody).
  exists st'. split; [assumption|].
  destruct (stage_body_control modulus roots log_n values Hlog k st st' C Hcond Hbody)
    as [C' Hrun].
  destruct C as [_ Hm Hgap Htr Hlog_st _].
  destruct C' as [_ Hm' Hgap' Htr' Hlog_st' _].
  assert (Hg : ls_gap st' = ls_gap st / 2).
  { rewrite Hgap, Hgap', pow2_half by lia. f_equal. lia. }
  assert (Hd : @interior_dispatch ScalarType log_n k
               = if decide (ls_gap st' < 4)
                 then (ls_m st * ls_gap st', GapLE4 (ls_gap st') (ls_total_r st))
                 else (ls_m st * (ls_gap st' / 4),
                       LargeGap 4 (ls_gap st') (ls_total_r st))).
  { unfold interior_dispatch.
    rewrite roots_consumed_pow2, Hm, Htr, Hgap', pow2_div by lia.
    replace (log_n - (k + 1)) with (log_n - S k) by lia. reflexivity. }
  split; [assumption|]. split; [|split; [|split; [|split]]].
  - rewrite Hlog_st', Hlog_st, seq_S, map_app. cbn [map Nat.add].
    rewrite Hd. reflexivity.
  - intros Hlt. rewrite Hd in Hrun. destruct (decide (ls_gap st' < 4)); [|lia].
    exact Hrun.
  - intros Hge. rewrite Hd in Hrun. destruct (decide (ls_gap st' < 4)); [lia|].
    exact Hrun.
  - rewrite Hm', Hm, pow2_S. reflexivity.
  - rewrite Htr', Htr, Hm, pow2_S. lia.
Qed.

Lemma kernel_selection_witness :
  exists st',
    stage_body (Arith := spec_arith) 17%Z (repeat 1%Z 16)
      (initial_state (2 ^ 4) (repeat 3%Z 16)) = Done st' /\
    ls_gap st' = 2 ^ 4 / 2 /\
    q_log (ls_queue st') = [] ++ [(1 * (ls_gap st' / 4), LargeGap 4 (ls_gap st') 1)] /\
    parallel_for (1 * (ls_gap st' / 4))
      (DwtLargeGap (Arith := spec_arith) 17%Z (repeat 1%Z 16) 4 (ls_gap st') 1)
      (repeat 3%Z 16) = Done (q_values (ls_queue st')).
Proof.
  destruct (kernel_selection (Arith := spec_arith) 17%Z (repeat 1%Z 16) 4
              (repeat 3%Z 16) 0 (initial_state (2 ^ 4) (repeat 3%Z 16)))
    as (st' & Hbody & Hgap & Hlog & _ & Hlarge & _);
    [lia | reflexivity | simpl; lia | constructor | reflexivity |].
  exists st'. split; [exact Hbody|]. split; [exact Hgap|]. split.
  - rewrite Hlog. cbn [initial_state ls_queue q_log ls_m ls_total_r].
    rewrite Hgap. reflexivity.
  - apply Hlarge. rewrite Hgap. simpl. lia.
Defined.


(** The root index a unit of iteration [k] reads lies between the offset
    [2^k] of the stage and the offset of the next one. *)
Lemma interior_root_index {ScalarType : Type} (log_n k ind : nat) :
  ind < fst (@interior_dispatch ScalarType log_n k) ->
  2 ^ k <= root_index (snd (@interior_dispatch ScalarType log_n k)) ind < 2 ^ S k.
Proof.
  unfold interior_dispatch. rewrite roots_consumed_pow2, pow2_S.
  destruct (decide _); cbn [fst snd root_index]; intros Hind;
    apply group_lt in Hind; lia.
Qed.

(** C4 as stated fails: for [log_n = 1] a root table of [n - 1 = 1] entry
    is too short, the single unit of the last round reads entry 1. *)
Lemma root_table_size_counterexample :
  length [1%Z] = 2 ^ 1 - 1 /\
  Dwt_gpu (Arith := spec_arith) 5%Z [1%Z] 1 None [1; 1]%Z = Fault.
Proof. split; reflexivity. Qed.

(** C4, amended: for [n = 2^log_n], [1 <= log_n <= 31], a root table of
    [n] entries is sufficient and one of fewer entries is not: with [n] entries
    the call completes, every root index a unit of any dispatch reads lies
    between 1 and [n - 1], and the last round reads index [n - 1]; with
    fewer the call faults.  The offset the addressing scheme reaches,
    1 + the sum of [m] over the interior stages + the [m] of the last
    round, is [n]. *)
Theorem root_table_size
    {RootType ScalarType : Type} `{Arith : DwtArith RootType ScalarType}
    (modulus : Z) (roots : list RootType) (log_n : nat)
    (scalar : option ScalarType) (values : list Z) :
  1 <= log_n <= 31 -> length values = 2 ^ log_n ->
  (2 ^ log_n <= length roots ->
   exists q, Dwt_gpu modulus roots log_n scalar values = Done q /\
     (forall range kern ind, (range, kern) ∈ q_log q -> ind < range ->
        1 <= root_index kern ind <= 2 ^ log_n - 1) /\
     (exists range kern ind, (range, kern) ∈ q_log q /\ ind < range /\
        root_index kern ind = 2 ^ log_n - 1)) /\
  (length roots < 2 ^ log_n -> Dwt_gpu modulus roots log_n scalar values = Fault) /\
  roots_consumed (log_n - 1) + 2 ^ (log_n - 1) = 2 ^ log_n.
Proof.
  intros Hlog Hlen.
  pose proof (half_size log_n (proj1 Hlog)) as Hhalf.
  pose proof (pow2_nonzero (log_n - 1)) as Hpos.
  split; [|split].
  - intros Hroots.
    destruct (Dwt_gpu_run modulus roots log_n values Hlog Hlen Hroots scalar)
      as (st & q & _ & _ & Hrun & _ & Hq).
    exists q. split; [assumption|]. rewrite Hq. split.
    + intros range kern ind Hin Hind.
      apply elem_of_app in Hin as [Hin|Hin].
      * apply list_elem_of_In, in_map_iff in Hin as (k & Hk & Hin).
        apply in_seq in Hin.
        assert (range = fst (@interior_dispatch ScalarType log_n k)) by (rewrite Hk; reflexivity).
        assert (kern = snd (@interior_dispatch ScalarType log_n k)) by (rewrite Hk; reflexivity).
        subst range kern.
        pose proof (interior_root_index log_n k ind Hind) as Hidx.
        pose proof (pow2_nonzero k).
        assert (2 ^ S k <= 2 ^ (log_n - 1)) by (apply Nat.pow_le_mono_r; lia).
        lia.
      * apply list_elem_of_singleton in Hin. inversion Hin; subst range kern.
        destruct scalar; cbn [last_kernel root_index]; lia.
    + exists (2 ^ (log_n - 1)), (last_kernel scalar (2 ^ (log_n - 1))),
             (2 ^ (log_n - 1) - 1).
      split; [|split].
      * apply elem_of_app. right. apply list_elem_of_singleton. reflexivity.
      * lia.
      * destruct scalar; cbn [last_kernel root_index]; lia.
  - apply short_roots_Fault; assumption.
  - rewrite roots_consumed_pow2. lia.
Qed.

Lemma root_table_size_witness :
  (2 ^ 2 <= length [0; 4; 2; 8]%Z ->
   exists q, Dwt_gpu (Arith := spec_arith) 17%Z [0; 4; 2; 8]%Z 2 None [1; 2; 3; 4]%Z = Done q /\
     (forall range kern ind, (range, kern) ∈ q_log q -> ind < range ->
        1 <= root_index kern ind <= 2 ^ 2 - 1) /\
     (exists range kern ind, (range, kern) ∈ q_log q /\ ind < range /\
        root_index kern ind = 2 ^ 2 - 1)) /\
  (length [0; 4; 2; 8]%Z < 2 ^ 2 ->
   Dwt_gpu (Arith := spec_arith) 17%Z [0; 4; 2; 8]%Z 2 None [1; 2; 3; 4]%Z = Fault) /\
  roots_consumed (2 - 1) + 2 ^ (2 - 1) = 2 ^ 2.
Proof.
  apply (root_table_size (Arith := spec_arith)); [lia | reflexivity].
Defined.

(** ** The range invariant *)

(** One interior iteration brings every slot below [4 * M]. *)
Lemma stage_body_range
    {RootType ScalarType : Type} `{Arith : DwtArith RootType ScalarType}
    (modulus : Z) (roots : list RootType) (log_n : nat) (values : list Z)
    (D : Z -> Prop) (k : nat) (st st' : loop_state ScalarType) :
  1 <= log_n <= 31 -> length values = 2 ^ log_n -> 2 ^ log_n <= length roots ->
  word_fits modulus -> range_contract_on modulus D ->
  at_iteration modulus roots log_n values k st ->
  Forall D (q_values (ls_queue st)) ->
  stage_cond (2 ^ log_n) st = true -> stage_body modulus roots st = Done st' ->
  Forall (below (4 * modulus)) (q_values (ls_queue st')).
Proof.
  intros Hlog Hlen Hroots Hfits Hranges Hat HD Hcond Hbody.
  pose proof (reachable_control _ _ _ _ Hlog _ _ Hat) as C.
  pose proof Hcond as Hk. apply (control_cond _ _ Hlog _ _ C) in Hk.
  destruct (stage_body_control modulus roots log_n values Hlog k st st' C Hcond Hbody)
    as [_ Hrun].
  assert (Hl : length (q_values (ls_queue st)) = 2 ^ log_n).
  { rewrite (control_length _ _ _ _ C). assumption. }
  destruct (interior_dispatch_run modulus roots log_n k _ Hroots Hk Hl)
    as (after & Hrun' & Hd).
  rewrite Hrun in Hrun'. inversion Hrun'; subst after.
  apply (interior_stage_range modulus Hfits D Hranges roots (stage_gap log_n k)
           (2 ^ k) (2 ^ k) (q_values (ls_queue st))); try assumption.
  - rewrite Hl. symmetry. apply stage_size. lia.
  - apply (stage_roots log_n); [lia | assumption].
Qed.

(** Every buffer the stage loop reaches stays in the domain of the
    primitives. *)
Lemma reachable_domain
    {RootType ScalarType : Type} `{Arith : DwtArith RootType ScalarType}
    (modulus : Z) (roots : list RootType) (log_n : nat) (values : list Z)
    (D : Z -> Prop) :
  1 <= log_n <= 31 -> length values = 2 ^ log_n -> 2 ^ log_n <= length roots ->
  word_fits modulus -> range_contract_on modulus D ->
  Forall D values ->
  forall k st, at_iteration modulus roots log_n values k st ->
    Forall D (q_values (ls_queue st)).
Proof.
  intros Hlog Hlen Hroots Hfits Hranges Hvalues.
  induction 1 as [|k st st' Hat IH Hcond Hbody].
  - assumption.
  - eapply Forall_impl; [|apply (domain_4M _ _ Hranges)].
    eapply stage_body_range; eassumption.
Qed.

(** On a buffer that starts below [4 * M] every reached buffer is below
    [4 * M]. *)
Lemma reachable_range
    {RootType ScalarType : Type} `{Arith : DwtArith RootType ScalarType}
    (modulus : Z) (roots : list RootType) (log_n : nat) (values : list Z) :
  1 <= log_n <= 31 -> length values = 2 ^ log_n -> 2 ^ log_n <= length roots ->
  word_fits modulus -> range_contract modulus ->
  Forall (below (4 * modulus)) values ->
  forall k st, at_iteration modulus roots log_n values k st ->
    Forall (below (4 * modulus)) (q_values (ls_queue st)).
Proof.
  intros Hlog Hlen Hroots Hfits Hranges Hvalues.
  apply (reachable_domain modulus roots log_n values (below (4 * modulus)));
    assumption.
Qed.

(** C2: for [1 <= log_n <= 31], under the range contracts of the
    primitives (on the domain [D] of buffer values for which [guard] and
    [mulRoot] keep theirs, a buffer that starts in [D]), the buffer after
    every interior stage dispatch has all its slots in [0, 4M), and the
    call completes with all slots in [0, M), with a scalar or without. *)
Theorem range_invariant
    {RootType ScalarType : Type} `{Arith : DwtArith RootType ScalarType}
    (modulus : Z) (roots : list RootType) (log_n : nat) (values : list Z)
    (D : Z -> Prop) :
  1 <= log_n <= 31 -> length values = 2 ^ log_n -> 2 ^ log_n <= length roots ->
  word_fits modulus -> range_contract_on modulus D ->
  Forall D values ->
  (forall k st, at_iteration modulus roots log_n values (S k) st ->
     Forall (below (4 * modulus)) (q_values (ls_queue st))) /\
  (forall scalar, exists q,
     Dwt_gpu modulus roots log_n scalar values = Done q /\
     Forall (below modulus) (q_values q)).
Proof.
  intros Hlog Hlen Hroots Hfits Hranges Hvalues.
  pose proof (reachable_domain modulus roots log_n values D Hlog Hlen Hroots Hfits
                Hranges Hvalues) as Hiter.
  split.
  - intros k st Hat.
    inversion Hat as [|k' st0 st0' Hat0 Hcond0 Hbody0]; subst.
    eapply stage_body_range; try eassumption. apply (Hiter _ _ Hat0).
  - intros scalar.
    destruct (Dwt_gpu_run modulus roots log_n values Hlog Hlen Hroots scalar)
      as (st & q & _ & Hat & Hrun & Hlast & _).
    exists q. split; [assumption|].
    pose proof (reachable_control _ _ _ _ Hlog _ _ Hat) as C.
    pose proof (half_size log_n (proj1 Hlog)) as Hhalf.
    assert (Hl : length (q_values (ls_queue st)) = 2 * 2 ^ (log_n - 1)).
    { rewrite (control_length _ _ _ _ C). lia. }
    assert (Hr : 2 ^ (log_n - 1) + 2 ^ (log_n - 1) <= length roots) by lia.
    specialize (Hiter _ _ Hat).
    destruct scalar as [s|]; cbn [last_kernel run_kernel] in Hlast.
    + destruct (last_round_scalar_dispatch modulus roots _ s _ _ Hl Hr)
        as (after & Hrun' & Hd).
      rewrite Hlast in Hrun'. inversion Hrun'; subst after.
      eapply (last_round_scalar_range modulus Hfits D Hranges); eassumption.
    + destruct (last_round_dispatch modulus roots _ _ _ Hl Hr)
        as (after & Hrun' & Hd).
      rewrite Hlast in Hrun'. inversion Hrun'; subst after.
      eapply (last_round_range modulus Hfits D Hranges); eassumption.
Qed.

Lemma range_invariant_witness :
  (forall k st,
     at_iteration (Arith := spec_arith) 17%Z [0; 4; 2; 8]%Z 2 [1; 2; 3; 4]%Z (S k) st ->
     Forall (below (4 * 17)) (q_values (ls_queue st))) /\
  (forall scalar, exists q,
     Dwt_gpu (Arith := spec_arith) 17%Z [0; 4; 2; 8]%Z 2 scalar [1; 2; 3; 4]%Z = Done q /\
     Forall (below 17) (q_values q)).
Proof.
  apply (range_invariant (Arith := spec_arith) 17%Z [0; 4; 2; 8]%Z 2 [1; 2; 3; 4]%Z
           (below (4 * 17)));
    [lia | reflexivity | simpl; lia
    | apply spec_arith_fits; lia | apply spec_arith_ranges; lia
    | repeat constructor; unfold below; lia].
Defined.


(** ** What the butterflies compute modulo [M] *)

Section Exact.
Context {RootType ScalarType : Type} `{Arith : DwtArith RootType ScalarType}.
Variable M : Z.
Variable root_val : RootType -> Z.
Variable scalar_val : ScalarType -> Z.
Hypothesis fits : word_fits M.
Hypothesis ranges : range_contract M.
Hypothesis exact : exact_contract M root_val scalar_val.

Lemma butterfly_x_exact r vx vy :
  below (4 * M) vx -> below (4 * M) vy ->
  (butterfly_x M r vx vy mod M = (vx + vy * root_val r) mod M)%Z.
Proof.
  intros Hx Hy. unfold butterfly_x. rewrite (two_times_double M fits).
  rewrite (add_exact _ _ _ exact)
    by (apply (guard_range _ _ ranges) || apply (mul_root_range _ _ ranges); assumption).
  rewrite Zplus_mod, (guard_exact _ _ _ exact), (mul_root_exact _ _ _ exact) by assumption.
  rewrite <- Zplus_mod. reflexivity.
Qed.

Lemma butterfly_y_exact r vx vy :
  below (4 * M) vx -> below (4 * M) vy ->
  (butterfly_y M r vx vy mod M = (vx - vy * root_val r) mod M)%Z.
Proof.
  intros Hx Hy. unfold butterfly_y. rewrite (two_times_double M fits).
  rewrite (sub_exact _ _ _ exact)
    by (apply (guard_range _ _ ranges) || apply (mul_root_range _ _ ranges); assumption).
  rewrite Zminus_mod, (guard_exact _ _ _ exact), (mul_root_exact _ _ _ exact) by assumption.
  rewrite <- Zminus_mod. reflexivity.
Qed.

Lemma scaled_u_exact s vx :
  below (4 * M) vx ->
  (dwt_mul_scalar (dwt_guard vx (2 * M)) s M mod M = (scalar_val s * vx) mod M)%Z.
Proof.
  intros Hx.
  rewrite (mul_scalar_exact _ _ _ exact) by (apply (guard_range _ _ ranges); assumption).
  rewrite Zmult_mod, (guard_exact _ _ _ exact) by assumption.
  rewrite <- Zmult_mod. f_equal. lia.
Qed.

Lemma scaled_v_exact r s vy :
  below (4 * M) vy ->
  (dwt_mul_root vy (dwt_mul_root_scalar r s M) M mod M
   = (scalar_val s * (vy * root_val r)) mod M)%Z.
Proof.
  intros Hy. rewrite (mul_root_exact _ _ _ exact) by assumption.
  rewrite Zmult_mod, (mul_root_scalar_exact _ _ _ exact).
  rewrite <- Zmult_mod. f_equal. lia.
Qed.

Lemma scaled_sum_exact r s vx vy :
  below (4 * M) vx -> below (4 * M) vy ->
  (scaled_sum M r s vx vy mod M = (scalar_val s * (vx + vy * root_val r)) mod M)%Z.
Proof.
  intros Hx Hy. unfold scaled_sum. rewrite (two_times_double M fits).
  rewrite (add_exact _ _ _ exact)
    by (apply (scaled_operand_range _ _ ranges) || apply (mul_root_range _ _ ranges);
        assumption).
  rewrite Zplus_mod, scaled_u_exact, scaled_v_exact by assumption.
  rewrite <- Zplus_mod. f_equal. lia.
Qed.

Lemma scaled_diff_exact r s vx vy :
  below (4 * M) vx -> below (4 * M) vy ->
  (scaled_diff M r s vx vy mod M = (scalar_val s * (vx - vy * root_val r)) mod M)%Z.
Proof.
  intros Hx Hy. unfold scaled_diff. rewrite (two_times_double M fits).
  rewrite (sub_exact _ _ _ exact)
    by (apply (scaled_operand_range _ _ ranges) || apply (mul_root_range _ _ ranges);
        assumption).
  rewrite Zminus_mod, scaled_u_exact, scaled_v_exact by assumption.
  rewrite <- Zminus_mod. f_equal. lia.
Qed.

(** The reduced terms of the last round are the canonical residues. *)
Lemma reduced_sum r vx vy :
  below (4 * M) vx -> below (4 * M) vy ->
  full_reduce M (butterfly_x M r vx vy) = ((vx + vy * root_val r) mod M)%Z.
Proof.
  intros Hx Hy.
  rewrite (full_reduce_mod M fits) by (apply (butterfly_x_range M fits _ ranges); assumption).
  apply butterfly_x_exact; assumption.
Qed.

Lemma reduced_diff r vx vy :
  below (4 * M) vx -> below (4 * M) vy ->
  full_reduce M (butterfly_y M r vx vy) = ((vx - vy * root_val r) mod M)%Z.
Proof.
  intros Hx Hy.
  rewrite (full_reduce_mod M fits) by (apply (butterfly_y_range M fits _ ranges); assumption).
  apply butterfly_y_exact; assumption.
Qed.

Lemma reduced_scaled_sum r s vx vy :
  below (4 * M) vx -> below (4 * M) vy ->
  full_reduce M (scaled_sum M r s vx vy)
  = ((scalar_val s * (vx + vy * root_val r)) mod M)%Z.
Proof.
  intros Hx Hy.
  rewrite (full_reduce_mod M fits) by (apply (scaled_sum_range M fits _ ranges); assumption).
  apply scaled_sum_exact; assumption.
Qed.

Lemma reduced_scaled_diff r s vx vy :
  below (4 * M) vx -> below (4 * M) vy ->
  full_reduce M (scaled_diff M r s vx vy)
  = ((scalar_val s * (vx - vy * root_val r)) mod M)%Z.
Proof.
  intros Hx Hy.
  rewrite (full_reduce_mod M fits) by (apply (scaled_diff_range M fits _ ranges); assumption).
  apply scaled_diff_exact; assumption.
Qed.

End Exact.

(** ** The slots of the last round *)

(** C8: in the last round without scalar the unit [i] stores the fully
    reduced sum term (from [v0 = dwt_add(u, v)]) in slot [2i] and the fully
    reduced difference term (from [v1 = dwt_sub(u, v, 2M)]) in slot
    [2i+1]; with a scalar the two are exchanged, slot [2i] receives the
    reduced difference term and slot [2i+1] the reduced sum term.  For
    primitives that meet their contracts and values below [4 * M] the
    reduced terms are the canonical residues of [u + v * r] and
    [u - v * r], times the scalar in the scalar variant. *)
Theorem output_slot_swap
    {RootType ScalarType : Type} `{Arith : DwtArith RootType ScalarType}
    (M : Z) (roots : list RootType) (root_val : RootType -> Z)
    (scalar_val : ScalarType -> Z) (rounds m : nat) (s : ScalarType)
    (values : list Z) :
  word_fits M -> range_contract M -> exact_contract M root_val scalar_val ->
  Forall (below (4 * M)) values ->
  length values = 2 * m -> rounds + m <= length roots ->
  exists plain scaled,
    parallel_for m (DwtLastRound M roots rounds) values = Done plain /\
    parallel_for m (DwtLastRoundScalar M roots rounds s) values = Done scaled /\
    forall i, i < m ->
      exists r u v,
        roots !! (rounds + i) = Some r /\
        values !! (2 * i) = Some u /\ values !! (2 * i + 1) = Some v /\
        plain !! (2 * i) = Some (full_reduce M (butterfly_x M r u v)) /\
        plain !! (2 * i + 1) = Some (full_reduce M (butterfly_y M r u v)) /\
        scaled !! (2 * i) = Some (full_reduce M (scaled_diff M r s u v)) /\
        scaled !! (2 * i + 1) = Some (full_reduce M (scaled_sum M r s u v)) /\
        (full_reduce M (butterfly_x M r u v) = (u + v * root_val r) mod M /\
         full_reduce M (butterfly_y M r u v) = (u - v * root_val r) mod M /\
         full_reduce M (scaled_diff M r s u v)
         = (scalar_val s * (u - v * root_val r)) mod M /\
         full_reduce M (scaled_sum M r s u v)
         = (scalar_val s * (u + v * root_val r)) mod M)%Z /\
        below M (full_reduce M (butterfly_x M r u v)) /\
        below M (full_reduce M (butterfly_y M r u v)) /\
        below M (full_reduce M (scaled_diff M r s u v)) /\
        below M (full_reduce M (scaled_sum M r s u v)).
Proof.
  intros Hfits Hranges Hexact Hvalues Hlen Hroots.
  destruct (last_round_dispatch M roots rounds m values Hlen Hroots)
    as (plain & Hplain & [_ U _]).
  destruct (last_round_scalar_dispatch M roots rounds s m values Hlen Hroots)
    as (scaled & Hscaled & [_ U' _]).
  exists plain, scaled. split; [assumption|]. split; [assumption|].
  intros i Hi.
  destruct (lookup_lt_is_Some_2 roots (rounds + i)) as [r Hr]; [lia|].
  destruct (U i) as (u & v & Hu & Hv & Hx & Hy); [apply elem_of_seq; lia|].
  destruct (U' i) as (u' & v' & Hu' & Hv' & Hx' & Hy'); [apply elem_of_seq; lia|].
  unfold last_slot_x, last_slot_y, last_x, last_y, last_scalar_x, last_scalar_y in *.
  rewrite Hr in *.
  assert (u' = u) by congruence. assert (v' = v) by congruence. subst u' v'.
  assert (Bu : below (4 * M) u) by exact (Forall_lookup_1 _ _ _ _ Hvalues Hu).
  assert (Bv : below (4 * M) v) by exact (Forall_lookup_1 _ _ _ _ Hvalues Hv).
  exists r, u, v. split; [reflexivity|].
  repeat (split; [assumption|]).
  split; [|split; [|split; [|split]]].
  - split; [|split; [|split]].
    + apply (reduced_sum M root_val scalar_val); assumption.
    + apply (reduced_diff M root_val scalar_val); assumption.
    + apply (reduced_scaled_diff M root_val scalar_val); assumption.
    + apply (reduced_scaled_sum M root_val scalar_val); assumption.
  - apply (full_reduce_range M Hfits), (butterfly_x_range M Hfits _ Hranges); assumption.
  - apply (full_reduce_range M Hfits), (butterfly_y_range M Hfits _ Hranges); assumption.
  - apply (full_reduce_range M Hfits), (scaled_diff_range M Hfits _ Hranges); assumption.
  - apply (full_reduce_range M Hfits), (scaled_sum_range M Hfits _ Hranges); assumption.
Qed.

Lemma output_slot_swap_witness :
  exists plain scaled,
    parallel_for 1 (DwtLastRound (Arith := spec_arith) 17%Z [0; 4]%Z 1) [1; 2]%Z
    = Done plain /\
    parallel_for 1 (DwtLastRoundScalar (Arith := spec_arith) 17%Z [0; 4]%Z 1 9%Z) [1; 2]%Z
    = Done scaled /\
    forall i, i < 1 ->
      exists r u v,
        [0; 4]%Z !! (1 + i) = Some r /\
        [1; 2]%Z !! (2 * i) = Some u /\ [1; 2]%Z !! (2 * i + 1) = Some v /\
        plain !! (2 * i) = Some (full_reduce 17%Z (butterfly_x 17%Z r u v)) /\
        plain !! (2 * i + 1) = Some (full_reduce 17%Z (butterfly_y 17%Z r u v)) /\
        scaled !! (2 * i) = Some (full_reduce 17%Z (scaled_diff 17%Z r 9%Z u v)) /\
        scaled !! (2 * i + 1) = Some (full_reduce 17%Z (scaled_sum 17%Z r 9%Z u v)) /\
        (full_reduce 17%Z (butterfly_x 17%Z r u v) = (u + v * r) mod 17 /\
         full_reduce 17%Z (butterfly_y 17%Z r u v) = (u - v * r) mod 17 /\
         full_reduce 17%Z (scaled_diff 17%Z r 9%Z u v) = (9 * (u - v * r)) mod 17 /\
         full_reduce 17%Z (scaled_sum 17%Z r 9%Z u v) = (9 * (u + v * r)) mod 17)%Z /\
        below 17%Z (full_reduce 17%Z (butterfly_x 17%Z r u v)) /\
        below 17%Z (full_reduce 17%Z (butterfly_y 17%Z r u v)) /\
        below 17%Z (full_reduce 17%Z (scaled_diff 17%Z r 9%Z u v)) /\
        below 17%Z (full_reduce 17%Z (scaled_sum 17%Z r 9%Z u v)).
Proof.
  apply (output_slot_swap (Arith := spec_arith) 17%Z [0; 4]%Z (fun r => r) (fun s => s));
    [apply spec_arith_fits; lia | apply spec_arith_ranges; lia
    | apply spec_arith_exact; lia
    | repeat constructor; unfold below; lia
    | reflexivity | simpl; lia].
Defined.

(** ** The two-point transform *)

Lemma two_point_loop
    {RootType ScalarType : Type} `{Arith : DwtArith RootType ScalarType}
    (modulus : Z) (roots : list RootType) (scalar : option ScalarType) (a0 a1 : Z) :
  Dwt_gpu modulus roots 1 scalar [a0; a1]
  = submit modulus roots 1 (last_kernel scalar 1) (Build_queue [a0; a1] []).
Proof. destruct scalar; reflexivity. Qed.

(** C9: for [log_n = 1] the loop test fails at once, so no interior
    dispatch is submitted; the call consists of one last-round dispatch
    over one unit and leaves the two-point butterfly
    [(a0 + r * a1) mod M], [(a0 - r * a1) mod M]. *)
Theorem boundary_two_point
    {RootType ScalarType : Type} `{Arith : DwtArith RootType ScalarType}
    (modulus : Z) (roots : list RootType)
    (root_val : RootType -> Z) (scalar_val : ScalarType -> Z)
    (rt : RootType) (a0 a1 : Z) :
  word_fits modulus -> range_contract modulus ->
  exact_contract modulus root_val scalar_val ->
  roots !! 1 = Some rt ->
  below (4 * modulus) a0 -> below (4 * modulus) a1 ->
  stage_cond (2 ^ 1) (@initial_state ScalarType (2 ^ 1) [a0; a1]) = false /\
  stage_loop modulus roots 1 (2 ^ 1) (@initial_state ScalarType (2 ^ 1) [a0; a1])
    = Done (initial_state (2 ^ 1) [a0; a1]) /\
  Dwt_gpu modulus roots 1 None [a0; a1]
    = Done (Build_queue [((a0 + a1 * root_val rt) mod modulus)%Z;
                         ((a0 - a1 * root_val rt) mod modulus)%Z]
                        [(1, LastRound 1)]).
Proof.
  intros Hfits Hranges Hexact Hroot H0 H1.
  split; [reflexivity|]. split; [reflexivity|].
  rewrite two_point_loop. unfold submit, parallel_for. cbn [last_kernel run_kernel seq run_units].
  unfold DwtLastRound. change (1 + 0) with 1. rewrite (load_Some _ _ _ Hroot).
  simpl. unfold store. simpl.
  fold (butterfly_x modulus rt a0 a1). fold (butterfly_y modulus rt a0 a1).
  rewrite (reduced_sum modulus root_val scalar_val Hfits Hranges Hexact) by assumption.
  rewrite (reduced_diff modulus root_val scalar_val Hfits Hranges Hexact) by assumption.
  reflexivity.
Qed.

Lemma boundary_two_point_witness :
  stage_cond (2 ^ 1) (@initial_state Z (2 ^ 1) [3; 4]%Z) = false /\
  stage_loop (Arith := spec_arith) 17%Z [0; 4]%Z 1 (2 ^ 1) (initial_state (2 ^ 1) [3; 4]%Z)
    = Done (initial_state (2 ^ 1) [3; 4]%Z) /\
  Dwt_gpu (Arith := spec_arith) 17%Z [0; 4]%Z 1 None [3; 4]%Z
    = Done (Build_queue [((3 + 4 * 4) mod 17)%Z; ((3 - 4 * 4) mod 17)%Z]
                        [(1, LastRound 1)]).
Proof.
  apply (boundary_two_point (Arith := spec_arith) 17%Z [0; 4]%Z (fun r => r) (fun s => s));
    [apply spec_arith_fits; lia | apply spec_arith_ranges; lia
    | apply spec_arith_exact; lia | reflexivity
    | unfold below; lia | unfold below; lia].
Defined.

(** ** Merging the scalar into the last round *)

Lemma swap_pairs_length (m : nat) : forall l : list Z,
  length l = 2 * m -> length (swap_pairs l) = length l.
Proof.
  induction m as [|m IH]; intros l Hl.
  - destruct l; [reflexivity | simpl in Hl; lia].
  - destruct l as [|a [|b rest]]; simpl in Hl; try lia.
    simpl. rewrite IH by lia. reflexivity.
Qed.

Lemma swap_pairs_lookup (i : nat) : forall (m : nat) (l : list Z),
  length l = 2 * m -> i < m ->
  swap_pairs l !! (2 * i) = l !! (2 * i + 1) /\
  swap_pairs l !! (2 * i + 1) = l !! (2 * i).
Proof.
  induction i as [|i IH]; intros m l Hl Hi;
    destruct l as [|a [|b rest]]; simpl in Hl; try lia.
  - split; reflexivity.
  - replace (2 * S i) with (S (S (2 * i))) by lia.
    replace (S (S (2 * i)) + 1) with (S (S (2 * i + 1))) by lia.
    simpl swap_pairs. cbn [lookup list_lookup].
    apply (IH (m - 1)); lia.
Qed.

(** C3, evaluated: with [M = 17], root 4 and scalar 9 on the buffer
    [1; 2], the plain last round followed by the scaling pass leaves
    [13; 5], the scalar-merged last round leaves [5; 13]. *)
Theorem scalar_merge_diverges :
  (plain ← parallel_for 1 (DwtLastRound (Arith := spec_arith) 17%Z [0; 4]%Z 1) [1; 2]%Z;
   Done (scale_buffer (Arith := spec_arith) 17%Z 9%Z plain)) = Done [13; 5]%Z /\
  parallel_for 1 (DwtLastRoundScalar (Arith := spec_arith) 17%Z [0; 4]%Z 1 9%Z) [1; 2]%Z
  = Done [5; 13]%Z.
Proof. split; reflexivity. Qed.

(** On every buffer the scalar-merged last round leaves the scaled output
    of the plain last round with the slots [2i] and [2i+1] exchanged. *)
Lemma scalar_merge_swapped
    {RootType ScalarType : Type} `{Arith : DwtArith RootType ScalarType}
    (modulus : Z) (roots : list RootType)
    (root_val : RootType -> Z) (scalar_val : ScalarType -> Z)
    (rounds m : nat) (s : ScalarType) (values : list Z) :
  word_fits modulus -> range_contract modulus ->
  exact_contract modulus root_val scalar_val ->
  length values = 2 * m -> rounds + m <= length roots ->
  Forall (below (4 * modulus)) values ->
  exists plain scaled,
    parallel_for m (DwtLastRound modulus roots rounds) values = Done plain /\
    parallel_for m (DwtLastRoundScalar modulus roots rounds s) values = Done scaled /\
    scaled = swap_pairs (scale_buffer modulus s plain).
Proof.
  intros Hfits Hranges Hexact Hlen Hroots Hvalues.
  destruct (last_round_dispatch modulus roots rounds m values Hlen Hroots)
    as (plain & Hplain & [Lp Up _]).
  destruct (last_round_scalar_dispatch modulus roots rounds s m values Hlen Hroots)
    as (scaled & Hscaled & [Ls Us _]).
  exists plain, scaled. split; [assumption|]. split; [assumption|].
  assert (HM : (0 < modulus)%Z) by (destruct Hfits; assumption).
  assert (Hscale : forall x, below modulus x ->
            dwt_mul_scalar x s modulus = ((scalar_val s * x) mod modulus)%Z).
  { intros x Hx.
    assert (Hx2 : below (2 * modulus) x) by (unfold below in *; lia).
    pose proof (mul_scalar_range _ _ Hranges x s Hx2) as Hr.
    rewrite <- (Z.mod_small _ modulus Hr).
    rewrite (mul_scalar_exact _ _ _ Hexact) by assumption. f_equal. lia. }
  assert (Hlen' : length (scale_buffer modulus s plain) = 2 * m).
  { unfold scale_buffer. rewrite length_fmap. lia. }
  apply list_eq. intros p.
  destruct (decide (p < 2 * m)) as [Hp|Hp].
  2:{ rewrite !lookup_ge_None_2; [reflexivity| |lia].
      rewrite (swap_pairs_length m) by assumption. lia. }
  destruct (div_mod_decompose 2 p) as [Hdec Hr]; [discriminate|].
  assert (Hi : p / 2 < m) by lia.
  destruct (Up (p / 2)) as (u & v & Hu & Hv & Hx & Hy); [apply elem_of_seq; lia|].
  destruct (Us (p / 2)) as (u' & v' & Hu' & Hv' & Hx' & Hy'); [apply elem_of_seq; lia|].
  assert (u' = u) by congruence. assert (v' = v) by congruence. subst u' v'.
  rewrite Forall_lookup in Hvalues.
  pose proof (Hvalues _ _ Hu) as Hbu. pose proof (Hvalues _ _ Hv) as Hbv.
  destruct (lookup_lt_is_Some_2 roots (rounds + p / 2)) as [r Hroot]; [lia|].
  unfold last_slot_x, last_slot_y, last_x, last_y, last_scalar_x, last_scalar_y in *.
  rewrite Hroot in *.
  rewrite (reduced_sum modulus root_val scalar_val Hfits Hranges Hexact) in Hx by assumption.
  rewrite (reduced_diff modulus root_val scalar_val Hfits Hranges Hexact) in Hy by assumption.
  rewrite (reduced_scaled_diff modulus root_val scalar_val Hfits Hranges Hexact) in Hx'
    by assumption.
  rewrite (reduced_scaled_sum modulus root_val scalar_val Hfits Hranges Hexact) in Hy'
    by assumption.
  destruct (swap_pairs_lookup (p / 2) m _ Hlen' Hi) as [Heven Hodd].
  unfold scale_buffer in Heven, Hodd. rewrite list_lookup_fmap in Heven, Hodd.
  rewrite Hy in Heven. rewrite Hx in Hodd.
  cbn [fmap option_fmap option_map] in Heven, Hodd.
  rewrite Hscale in Heven, Hodd by (apply Z.mod_pos_bound; assumption).
  rewrite Zmult_mod_idemp_r in Heven, Hodd.
  destruct (decide (p mod 2 = 0)) as [H0|H1].
  - replace p with (2 * (p / 2)) at 1 2 by lia. unfold scale_buffer. congruence.
  - replace p with (2 * (p / 2) + 1) at 1 2 by lia. unfold scale_buffer. congruence.
Qed.

(** ** Forward and back *)

(** C1 as stated fails.  For [n = 2] and [M = 5] take the primitive 4th
    root of unity 2 as the forward table, its inverse 3 as the inverse
    table and the scalar 3 = 1/2: the forward transform of [0; 1] followed
    by the transform with scalar does not give back [0; 1], in either
    order of the two slots. *)
Lemma round_trip_counterexample :
  ((2 * 2) mod 5 = 5 - 1 /\ (2 * 3) mod 5 = 1)%Z /\
  exists out back,
    transform (Arith := spec_arith) 5%Z [0; 2]%Z 1 None [0; 1]%Z = Done out /\
    transform (Arith := spec_arith) 5%Z [0; 3]%Z 1 (Some 3%Z) (bit_reversed 1 out)
      = Done back /\
    back <> [0; 1]%Z /\ bit_reversed 1 back <> [0; 1]%Z.
Proof.
  split; [split; reflexivity|].
  exists [2; 3]%Z, [4; 3]%Z. repeat split; try reflexivity; discriminate.
Qed.

(** No other inverse table or scalar repairs it: whatever root [r'] and
    scalar [s] the second call is given, some canonical buffer does not
    come back. *)
Lemma round_trip_no_inverse_table (r' s : Z) :
  (0 <= r' < 5)%Z -> (0 <= s < 5)%Z ->
  exists v, Forall (below 5) v /\ length v = 2 /\
    (out ← transform (Arith := spec_arith) 5%Z [0; 2]%Z 1 None v;
     transform (Arith := spec_arith) 5%Z [0; r']%Z 1 (Some s) (bit_reversed 1 out))
    <> Done v.
Proof.
  intros Hr Hs.
  assert (Hr' : (r' = 0 \/ r' = 1 \/ r' = 2 \/ r' = 3 \/ r' = 4)%Z) by lia.
  assert (Hs' : (s = 0 \/ s = 1 \/ s = 2 \/ s = 3 \/ s = 4)%Z) by lia.
  assert (H01 : Forall (below 5) [0; 1]%Z) by (repeat constructor; unfold below; lia).
  assert (H10 : Forall (below 5) [1; 0]%Z) by (repeat constructor; unfold below; lia).
  destruct Hr' as [-> | [-> | [-> | [-> | ->]]]];
    destruct Hs' as [-> | [-> | [-> | [-> | ->]]]];
    first [ exists [0; 1]%Z; split; [exact H01|]; split; [reflexivity|];
            vm_compute; discriminate
          | exists [1; 0]%Z; split; [exact H10|]; split; [reflexivity|];
            vm_compute; discriminate ].
Qed.

(** The butterfly is injective modulo an odd [M] for a root that is a
    unit. *)
Lemma butterfly_injective (M rv vx vy wx wy : Z) :
  Z.gcd M 2 = 1%Z -> Z.gcd M rv = 1%Z ->
  ((vx + vy * rv) mod M = (wx + wy * rv) mod M)%Z ->
  ((vx - vy * rv) mod M = (wx - wy * rv) mod M)%Z ->
  (vx mod M = wx mod M /\ vy mod M = wy mod M)%Z.
Proof.
  intros H2 Hrv Hsum Hdiff.
  apply Z.cong_iff_ex in Hsum as [n1 Hn1]. apply Z.cong_iff_ex in Hdiff as [n2 Hn2].
  split; apply Z.cong_iff_ex.
  - assert (Hd : (M | 2 * (vx - wx))%Z) by (exists (n1 + n2)%Z; lia).
    apply Z.gauss in Hd; [|assumption]. destruct Hd as [z Hz]. exists z. assumption.
  - assert (Hd : (M | rv * (2 * (vy - wy)))%Z) by (exists (n1 - n2)%Z; lia).
    apply Z.gauss in Hd; [|assumption].
    apply Z.gauss in Hd; [|assumption]. destruct Hd as [z Hz]. exists z. assumption.
Qed.

Lemma congruent_canonical (M : Z) (a b : list Z) :
  Forall (below M) a -> Forall (below M) b -> congruent M a b -> a = b.
Proof.
  intros Ha Hb Hc. induction Hc as [|x y a b Hxy Hc IH].
  - reflexivity.
  - apply Forall_cons in Ha as [Hx Ha]. apply Forall_cons in Hb as [Hy Hb].
    rewrite !Z.mod_small in Hxy by assumption. subst y. f_equal. auto.
Qed.

Section Injective.
Context {RootType ScalarType : Type} `{Arith : DwtArith RootType ScalarType}.
Variable M : Z.
Variable roots : list RootType.
Variable root_val : RootType -> Z.
Variable scalar_val : ScalarType -> Z.
Hypothesis fits : word_fits M.
Hypothesis ranges : range_contract M.
Hypothesis exact : exact_contract M root_val scalar_val.
Hypothesis odd_modulus : Z.gcd M 2 = 1%Z.
Hypothesis unit_roots : forall i r, 1 <= i -> roots !! i = Some r ->
  Z.gcd M (root_val r) = 1%Z.

(** An interior stage loses nothing modulo [M]. *)
Lemma interior_stage_injective gap rounds m (a b a' b' : list Z) :
  1 <= rounds -> rounds + m <= length roots ->
  length a = 2 * gap * m -> length b = 2 * gap * m ->
  Forall (below (4 * M)) a -> Forall (below (4 * M)) b ->
  dispatched (stage_slot_x gap) (stage_slot_y gap)
             (stage_x M roots gap rounds) (stage_y M roots gap rounds)
             (seq 0 (m * gap)) a a' ->
  dispatched (stage_slot_x gap) (stage_slot_y gap)
             (stage_x M roots gap rounds) (stage_y M roots gap rounds)
             (seq 0 (m * gap)) b b' ->
  congruent M a' b' -> congruent M a b.
Proof.
  intros Hrounds Hroots Hla Hlb Ha Hb [_ Ua _] [_ Ub _] Hc.
  rewrite Forall_lookup in Ha, Hb.
  apply Forall2_same_length_lookup_2; [congruence|].
  intros p x y Hx Hy.
  assert (Hp : p < 2 * gap * m) by (apply lookup_lt_Some in Hx; lia).
  destruct (GapLE4_slots_cover gap m p Hp) as (ind & Hind & Hslot).
  assert (Hin : ind ∈ seq 0 (m * gap)) by (apply elem_of_seq; lia).
  destruct (Ua ind Hin) as (vx & vy & Hvx & Hvy & Hax & Hay).
  destruct (Ub ind Hin) as (wx & wy & Hwx & Hwy & Hbx & Hby).
  pose proof (group_lt _ _ _ Hind) as Hgroup.
  destruct (lookup_lt_is_Some_2 roots (rounds + ind / gap)) as [r Hr]; [lia|].
  unfold stage_x, stage_y in *. rewrite Hr in *.
  pose proof (Forall2_lookup_lr _ _ _ _ _ _ Hc Hax Hbx) as Hcx.
  pose proof (Forall2_lookup_lr _ _ _ _ _ _ Hc Hay Hby) as Hcy.
  simpl in Hcx, Hcy.
  rewrite !(butterfly_x_exact M root_val scalar_val fits ranges exact) in Hcx by eauto.
  rewrite !(butterfly_y_exact M root_val scalar_val fits ranges exact) in Hcy by eauto.
  destruct (butterfly_injective M (root_val r) vx vy wx wy) as [Hex Hey]; try assumption.
  { apply (unit_roots (rounds + ind / gap)); [lia | assumption]. }
  unfold stage_slot_x, stage_slot_y in *.
  destruct Hslot as [-> | ->]; congruence.
Qed.

(** Nor does the last round. *)
Lemma last_round_injective rounds m (a b a' : list Z) :
  1 <= rounds -> rounds + m <= length roots ->
  length a = 2 * m -> length b = 2 * m ->
  Forall (below (4 * M)) a -> Forall (below (4 * M)) b ->
  dispatched last_slot_x last_slot_y (last_x M roots rounds) (last_y M roots rounds)
             (seq 0 m) a a' ->
  dispatched last_slot_x last_slot_y (last_x M roots rounds) (last_y M roots rounds)
             (seq 0 m) b a' ->
  congruent M a b.
Proof.
  intros Hrounds Hroots Hla Hlb Ha Hb [_ Ua _] [_ Ub _].
  rewrite Forall_lookup in Ha, Hb.
  apply Forall2_same_length_lookup_2; [congruence|].
  intros p x y Hx Hy.
  assert (Hp : p < 2 * m) by (apply lookup_lt_Some in Hx; lia).
  destruct (div_mod_decompose 2 p) as [Hdec Hrem]; [discriminate|].
  assert (Hin : p / 2 ∈ seq 0 m) by (apply elem_of_seq; lia).
  destruct (Ua _ Hin) as (vx & vy & Hvx & Hvy & Hax & Hay).
  destruct (Ub _ Hin) as (wx & wy & Hwx & Hwy & Hbx & Hby).
  destruct (lookup_lt_is_Some_2 roots (rounds + p / 2)) as [r Hr]; [lia|].
  unfold last_x, last_y, last_slot_x, last_slot_y in *. rewrite Hr in *.
  rewrite (reduced_sum M root_val scalar_val fits ranges exact) in Hax, Hbx by eauto.
  rewrite (reduced_diff M root_val scalar_val fits ranges exact) in Hay, Hby by eauto.
  destruct (butterfly_injective M (root_val r) vx vy wx wy) as [Hex Hey]; try assumption.
  { apply (unit_roots (rounds + p / 2)); [lia | assumption]. }
  { congruence. }
  { congruence. }
  destruct (decide (p mod 2 = 0)) as [H0|H1].
  - replace (2 * (p / 2)) with p in * by lia. congruence.
  - replace (2 * (p / 2) + 1) with p in * by lia. congruence.
Qed.

End Injective.

Lemma at_iteration_functional
    {RootType ScalarType : Type} `{Arith : DwtArith RootType ScalarType}
    (modulus : Z) (roots : list RootType) (log_n : nat) (values : list Z) k st1 :
  at_iteration modulus roots log_n values k st1 ->
  forall st2, at_iteration modulus roots log_n values k st2 -> st1 = st2.
Proof.
  induction 1 as [|k st st' Hat IH Hcond Hbody]; intros st2 H2.
  - inversion H2. reflexivity.
  - inversion H2 as [|k' st0 st0' Hat0 Hcond0 Hbody0]; subst.
    apply IH in Hat0. subst st0. congruence.
Qed.

Lemma below_widen (M : Z) (l : list Z) :
  (0 < M)%Z -> Forall (below M) l -> Forall (below (4 * M)) l.
Proof.
  intros HM H. eapply Forall_impl; [exact H|].
  unfold below. intros x Hx. lia.
Qed.

(** C1, amended: the forward transform (no scalar) loses no information.
    For [1 <= log_n <= 31], an odd modulus and a root table whose entries
    from index 1 on are units, the call completes on every canonical buffer, and two canonical
    buffers with the same transform are equal; so the input can be
    recovered from the output, though not by a second call of this engine
    with a scalar. *)
Theorem forward_transform_injective
    {RootType ScalarType : Type} `{Arith : DwtArith RootType ScalarType}
    (modulus : Z) (roots : list RootType)
    (root_val : RootType -> Z) (scalar_val : ScalarType -> Z)
    (log_n : nat) (v w : list Z) :
  1 <= log_n <= 31 -> 2 ^ log_n <= length roots ->
  word_fits modulus -> range_contract modulus ->
  exact_contract modulus root_val scalar_val ->
  Z.gcd modulus 2 = 1%Z ->
  (forall i r, 1 <= i -> roots !! i = Some r -> Z.gcd modulus (root_val r) = 1%Z) ->
  length v = 2 ^ log_n -> length w = 2 ^ log_n ->
  Forall (below modulus) v -> Forall (below modulus) w ->
  exists out_v out_w,
    transform modulus roots log_n None v = Done out_v /\
    transform modulus roots log_n None w = Done out_w /\
    (out_v = out_w -> v = w).
Proof.
  intros Hlog Hroots Hfits Hranges Hexact Hodd Hunits Hlv Hlw Hv Hw.
  assert (HM : (0 < modulus)%Z) by (destruct Hfits; assumption).
  pose proof (below_widen modulus v HM Hv) as Hv4.
  pose proof (below_widen modulus w HM Hw) as Hw4.
  pose proof (reachable_range modulus roots log_n v Hlog Hlv Hroots Hfits Hranges Hv4)
    as Hrange_v.
  pose proof (reachable_range modulus roots log_n w Hlog Hlw Hroots Hfits Hranges Hw4)
    as Hrange_w.
  destruct (Dwt_gpu_run modulus roots log_n v Hlog Hlv Hroots None)
    as (stv & qv & _ & Hatv & Hrunv & Hlastv & _).
  destruct (Dwt_gpu_run modulus roots log_n w Hlog Hlw Hroots None)
    as (stw & qw & _ & Hatw & Hrunw & Hlastw & _).
  exists (q_values qv), (q_values qw).
  split; [unfold transform; rewrite Hrunv; reflexivity|].
  split; [unfold transform; rewrite Hrunw; reflexivity|].
  intros Heq.
  apply (congruent_canonical modulus); try assumption.
  pose proof (half_size log_n (proj1 Hlog)) as Hhalf.
  pose proof (pow2_nonzero (log_n - 1)) as Hpos.
  assert (Hdown : forall d k, k + d = log_n - 1 ->
            forall sa sb,
              at_iteration modulus roots log_n v k sa ->
              at_iteration modulus roots log_n w k sb ->
              congruent modulus (q_values (ls_queue sa)) (q_values (ls_queue sb))).
  { induction d as [|d IH]; intros k Hk sa sb Ha Hb.
    - assert (k = log_n - 1) by lia. subst k.
      rewrite (at_iteration_functional _ _ _ _ _ _ Ha _ Hatv).
      rewrite (at_iteration_functional _ _ _ _ _ _ Hb _ Hatw).
      pose proof (reachable_control _ _ _ _ Hlog _ _ Hatv) as Cv.
      pose proof (reachable_control _ _ _ _ Hlog _ _ Hatw) as Cw.
      assert (Hl_v : length (q_values (ls_queue stv)) = 2 * 2 ^ (log_n - 1)).
      { rewrite (control_length _ _ _ _ Cv). lia. }
      assert (Hl_w : length (q_values (ls_queue stw)) = 2 * 2 ^ (log_n - 1)).
      { rewrite (control_length _ _ _ _ Cw). lia. }
      assert (Hr : 2 ^ (log_n - 1) + 2 ^ (log_n - 1) <= length roots) by lia.
      destruct (last_round_dispatch modulus roots _ _ _ Hl_v Hr) as (av & Hav & Hdv).
      destruct (last_round_dispatch modulus roots _ _ _ Hl_w Hr) as (aw & Haw & Hdw).
      cbn [last_kernel run_kernel] in Hlastv, Hlastw.
      rewrite Hlastv in Hav. inversion Hav; subst av.
      rewrite Hlastw in Haw. inversion Haw; subst aw.
      rewrite <- Heq in Hdw.
      apply (last_round_injective modulus roots root_val scalar_val Hfits Hranges
               Hexact Hodd Hunits (2 ^ (log_n - 1)) (2 ^ (log_n - 1))
               _ _ (q_values qv)); try assumption; try lia.
      + apply (Hrange_v _ _ Hatv).
      + apply (Hrange_w _ _ Hatw).
    - pose proof (reachable_control _ _ _ _ Hlog _ _ Ha) as Ca.
      pose proof (reachable_control _ _ _ _ Hlog _ _ Hb) as Cb.
      assert (HSk : S k < log_n) by lia.
      destruct (stage_body_run modulus roots log_n v Hlog Hlv Hroots k sa Ca HSk)
        as (sa' & Hbody_a).
      destruct (stage_body_run modulus roots log_n w Hlog Hlw Hroots k sb Cb HSk)
        as (sb' & Hbody_b).
      pose proof HSk as Hcond_a. apply (control_cond _ _ Hlog _ _ Ca) in Hcond_a.
      pose proof HSk as Hcond_b. apply (control_cond _ _ Hlog _ _ Cb) in Hcond_b.
      assert (Hnext : congruent modulus (q_values (ls_queue sa')) (q_values (ls_queue sb'))).
      { apply (IH (S k)); [lia | |]; eapply at_next; eassumption. }
      destruct (stage_body_control modulus roots log_n v Hlog k sa sa' Ca Hcond_a Hbody_a)
        as [_ Hrun_a].
      destruct (stage_body_control modulus roots log_n w Hlog k sb sb' Cb Hcond_b Hbody_b)
        as [_ Hrun_b].
      assert (Hl_a : length (q_values (ls_queue sa)) = 2 ^ log_n).
      { rewrite (control_length _ _ _ _ Ca). assumption. }
      assert (Hl_b : length (q_values (ls_queue sb)) = 2 ^ log_n).
      { rewrite (control_length _ _ _ _ Cb). assumption. }
      destruct (interior_dispatch_run modulus roots log_n k _ Hroots HSk Hl_a)
        as (a' & Ha' & Hda).
      destruct (interior_dispatch_run modulus roots log_n k _ Hroots HSk Hl_b)
        as (b' & Hb' & Hdb).
      rewrite Hrun_a in Ha'. inversion Ha'; subst a'.
      rewrite Hrun_b in Hb'. inversion Hb'; subst b'.
      pose proof (stage_size log_n k ltac:(lia)) as Hsize.
      apply (interior_stage_injective modulus roots root_val scalar_val Hfits Hranges
               Hexact Hodd Hunits (stage_gap log_n k) (2 ^ k) (2 ^ k)
               _ _ (q_values (ls_queue sa')) (q_values (ls_queue sb')));
        try assumption.
      + pose proof (pow2_nonzero k). lia.
      + apply (stage_roots log_n); [lia | assumption].
      + lia.
      + lia.
      + apply (Hrange_v k). assumption.
      + apply (Hrange_w k). assumption. }
  apply (Hdown (log_n - 1) 0 ltac:(lia)
           (initial_state (2 ^ log_n) v) (initial_state (2 ^ log_n) w));
    constructor.
Qed.

Lemma forward_transform_injective_witness :
  exists out_v out_w,
    transform (Arith := spec_arith) 17%Z [0; 4; 2; 8]%Z 2 None [1; 2; 3; 4]%Z = Done out_v /\
    transform (Arith := spec_arith) 17%Z [0; 4; 2; 8]%Z 2 None [4; 3; 2; 1]%Z = Done out_w /\
    (out_v = out_w -> [1; 2; 3; 4]%Z = [4; 3; 2; 1]%Z).
Proof.
  apply (forward_transform_injective (Arith := spec_arith) 17%Z [0; 4; 2; 8]%Z
           (fun r => r) (fun s => s));
    [lia | simpl; lia
    | apply spec_arith_fits; lia | apply spec_arith_ranges; lia
    | apply spec_arith_exact; lia | reflexivity
    | intros [|[|[|[|i]]]] r Hi Hr; simpl in Hr; inversion Hr; (reflexivity || lia)
    | reflexivity | reflexivity
    | repeat constructor; unfold below; lia
    | repeat constructor; unfold below; lia].
Defined.


(** * Further properties of the engine *)

(** ** The serial path and the kernels *)

Lemma serial_for_run_units (k : nat -> list Z -> outcome (list Z)) inds (values : list Z) :
  serial_for k inds values = run_units k inds values.
Proof.
  revert values. induction inds as [|i inds IH]; intros values; simpl; [reflexivity|].
  destruct (k i values); simpl; auto.
Qed.

Lemma serial_for_ext {State : Type} (f g : nat -> State -> outcome State) inds (s : State) :
  (forall i s', f i s' = g i s') -> serial_for f inds s = serial_for g inds s.
Proof.
  intros Hfg. revert s. induction inds as [|i inds IH]; intros s; simpl; [reflexivity|].
  rewrite Hfg. destruct (g i s); simpl; auto.
Qed.

Section SerialStages.
Context {RootType ScalarType : Type} `{Arith : DwtArith RootType ScalarType}.
Variable modulus : Z.
Variable roots : list RootType.

Lemma group_first_unit_Fault gap rounds i k (values : list Z) :
  gap <> 0 -> load roots (rounds + i) = Fault ->
  run_units (DwtGapLE4 modulus roots gap rounds) (seq (gap * i) (S k)) values = Fault.
Proof.
  intros Hg Hr. rewrite run_units_seq_S.
  unfold DwtGapLE4. destruct (decide (gap = 0)) as [?|_]; [contradiction|].
  replace (gap * i / gap) with i by (rewrite Nat.mul_comm, Nat.div_mul; auto).
  rewrite Hr. reflexivity.
Qed.

Lemma serial_small_gap_group_units gap total_r i (values : list Z) :
  gap <> 0 ->
  serial_small_gap_group modulus roots gap total_r i values
  = run_units (DwtGapLE4 modulus roots gap total_r) (seq (gap * i) gap) values.
Proof.
  intros Hg. unfold serial_small_gap_group. rewrite shiftl_1.
  destruct (load roots (total_r + i)) as [r| |] eqn:Hr; simpl.
  - pose proof (unrolled_units modulus roots gap total_r i r Hr gap 0 values) as H.
    rewrite !Nat.add_0_r in H. apply H. lia.
  - destruct gap as [|g]; [contradiction|].
    symmetry. apply group_first_unit_Fault; auto.
  - exfalso. exact (load_not_OutOfFuel _ _ Hr).
Qed.


Lemma serial_small_gap_dispatch gap total_r m (values : list Z) :
  gap <> 0 ->
  serial_for (serial_small_gap_group modulus roots gap total_r) (seq 0 m) values
  = parallel_for (m * gap) (DwtGapLE4 modulus roots gap total_r) values.
Proof.
  intros Hg. rewrite serial_for_run_units.
  change (run_units ?k (seq 0 m) values) with (parallel_for m k values).
  rewrite (run_units_blocks (DwtGapLE4 modulus roots gap total_r) _ gap).
  - f_equal. lia.
  - intros idx vs. apply serial_small_gap_group_units, Hg.
Qed.

Lemma serial_unrolled_loop_unrolled gap r :
  forall q fuel j x y (values : list Z),
    j + unroll * q = gap -> q <= fuel ->
    serial_unrolled_loop modulus fuel gap j r x y values
    = unrolled modulus (unroll * q) r x y values.
Proof.
  unfold unroll. induction q as [|q IH]; intros fuel j x y values Hj Hf.
  - destruct fuel; simpl; destruct (decide (j < gap)); (lia || reflexivity).
  - destruct fuel as [|fuel]; [lia|].
    replace (4 * S q) with (S (S (S (S (4 * q))))) by lia.
    cbn [serial_unrolled_loop unrolled].
    destruct (decide (j < gap)) as [_|?]; [|lia].
    replace (x + 1) with (S x) by lia. replace (y + 1) with (S y) by lia.
    replace (x + 2) with (S (S x)) by lia. replace (y + 2) with (S (S y)) by lia.
    replace (x + 3) with (S (S (S x))) by lia. replace (y + 3) with (S (S (S y))) by lia.
    replace (x + 4) with (S (S (S (S x)))) by lia.
    replace (y + 4) with (S (S (S (S y)))) by lia.
    destruct (butterfly modulus r x y values) as [v1| |]; cbn; auto.
    destruct (butterfly modulus r (S x) (S y) v1) as [v2| |]; cbn; auto.
    destruct (butterfly modulus r (S (S x)) (S (S y)) v2) as [v3| |]; cbn; auto.
    destruct (butterfly modulus r (S (S (S x))) (S (S (S y))) v3) as [v4| |]; cbn; auto.
    apply IH; unfold unroll; lia.
Qed.

Lemma serial_large_gap_group_small gap total_r i (values : list Z) :
  gap mod unroll = 0 ->
  serial_large_gap_group modulus roots gap total_r i values
  = serial_small_gap_group modulus roots gap total_r i values.
Proof.
  intros Hdiv. unfold serial_large_gap_group, serial_small_gap_group.
  destruct (load roots (total_r + i)) as [r| |]; simpl; auto.
  assert (Hgap : gap = unroll * (gap / unroll)).
  { pose proof (Nat.div_mod_eq gap unroll). lia. }
  rewrite (serial_unrolled_loop_unrolled gap r (gap / unroll)).
  - rewrite <- Hgap. reflexivity.
  - lia.
  - unfold unroll in *. lia.
Qed.

End SerialStages.

Lemma pow2_multiple_of_4 e : 4 <= 2 ^ e -> 2 ^ e mod 4 = 0.
Proof.
  intros H. destruct e as [|[|e]]; simpl in H; try lia.
  replace (2 ^ S (S e)) with (2 ^ e * 4) by (simpl; lia).
  apply Nat.Div0.mod_mul.
Qed.

Section SerialEngine.
Context {RootType ScalarType : Type} `{Arith : DwtArith RootType ScalarType}.
Variable modulus : Z.
Variable roots : list RootType.

Lemma serial_stage_body_kernels (st : loop_state ScalarType) :
  ls_gap st / 2 <> 0 ->
  (4 <= ls_gap st / 2 -> (ls_gap st / 2) mod unroll = 0) ->
  int_rounds (ls_total_r st) = ls_total_r st ->
  serial_stage_body modulus roots (to_serial st)
  = (st' ← stage_body modulus roots st; Done (to_serial st')).
Proof.
  intros Hg Hdiv Hint. unfold serial_stage_body, stage_body, submit. rewrite Hint.
  cbn [to_serial sv_gap sv_m sv_total_r sv_values].
  rewrite shiftr_1.
  destruct (decide (ls_gap st / 2 < 4)) as [Hlt|Hge].
  - rewrite serial_small_gap_dispatch by assumption.
    destruct (parallel_for _ _ _) as [vs| |]; reflexivity.
  - assert (Hmod : (ls_gap st / 2) mod unroll = 0) by (apply Hdiv; lia).
    erewrite (serial_for_ext _ (serial_small_gap_group modulus roots (ls_gap st / 2) (ls_total_r st))).
    + rewrite serial_small_gap_dispatch by assumption.
      rewrite <- (large_gap_dispatch modulus roots unroll) by (assumption || discriminate).
      cbn [run_kernel].
      destruct (parallel_for _ _ _) as [vs| |]; reflexivity.
    + intros i vs. apply serial_large_gap_group_small, Hmod.
Qed.

(** The stage loop on a buffer of any length: it faults or ends in the
    state of the last round. *)
Lemma stage_loop_ends log_n (values0 : list Z) :
  1 <= log_n <= 31 ->
  forall fuel k (st : loop_state ScalarType),
    control log_n values0 k st -> log_n - 1 - k <= fuel ->
    stage_loop modulus roots fuel (2 ^ log_n) st = Fault \/
    exists st', stage_loop modulus roots fuel (2 ^ log_n) st = Done st' /\
                control log_n values0 (log_n - 1) st'.
Proof.
  intros Hlog. induction fuel as [|fuel IH]; intros k st C Hfuel;
    cbn [stage_loop]; destruct (stage_cond (2 ^ log_n) st) eqn:Hcond.
  - apply (control_cond log_n values0 Hlog k st C) in Hcond. lia.
  - right. exists st. split; [reflexivity|].
    assert (k = log_n - 1) as <-; [|exact C].
    pose proof (control_k _ _ _ _ C).
    destruct (decide (S k < log_n)) as [Hk|Hk]; [|lia].
    apply (control_cond log_n values0 Hlog k st C) in Hk. congruence.
  - pose proof (proj1 (control_cond log_n values0 Hlog k st C) Hcond) as Hk.
    destruct (stage_body modulus roots st) as [st1| |] eqn:Hbody.
    + cbn [mbind outcome_bind]. apply (IH (S k)); [|lia].
      apply (stage_body_control modulus roots log_n values0 Hlog k st st1 C Hcond Hbody).
    + left. reflexivity.
    + exfalso. exact (stage_body_not_OutOfFuel modulus roots st Hbody).
  - right. exists st. split; [reflexivity|].
    assert (k = log_n - 1) as <-; [|exact C].
    pose proof (control_k _ _ _ _ C).
    destruct (decide (S k < log_n)) as [Hk|Hk]; [|lia].
    apply (control_cond log_n values0 Hlog k st C) in Hk. congruence.
Qed.

Lemma serial_stage_loop_kernels log_n (values0 : list Z) :
  1 <= log_n <= 31 ->
  forall fuel k (st : loop_state ScalarType),
    control log_n values0 k st ->
    serial_stage_loop modulus roots fuel (2 ^ log_n) (to_serial st)
    = (st' ← stage_loop modulus roots fuel (2 ^ log_n) st; Done (to_serial st')).
Proof.
  intros Hlog. induction fuel as [|fuel IH]; intros k st Hc.
  - cbn [serial_stage_loop stage_loop].
    change (bool_decide (sv_m (to_serial st) < Nat.shiftr (2 ^ log_n) 1))
      with (stage_cond (2 ^ log_n) st).
    destruct (stage_cond (2 ^ log_n) st); reflexivity.
  - cbn [serial_stage_loop stage_loop].
    change (bool_decide (sv_m (to_serial st) < Nat.shiftr (2 ^ log_n) 1))
      with (stage_cond (2 ^ log_n) st).
    destruct (stage_cond (2 ^ log_n) st) eqn:Hcond; [|reflexivity].
    pose proof (proj1 (control_cond log_n values0 Hlog k st Hc) Hcond) as Hk.
    assert (Hgap : ls_gap st / 2 = 2 ^ (log_n - S k)).
    { rewrite (control_gap _ _ _ _ Hc).
      replace (log_n - k) with (S (log_n - S k)) by lia.
      rewrite Nat.pow_succ_r', Nat.mul_comm, Nat.div_mul; lia. }
    rewrite serial_stage_body_kernels.
    + destruct (stage_body modulus roots st) as [st'| |] eqn:Hbody; [|reflexivity..].
      cbn. apply (IH (S k)).
      apply (stage_body_control modulus roots log_n values0 Hlog k st st' Hc Hcond Hbody).
    + rewrite Hgap. apply Nat.pow_nonzero. lia.
    + rewrite Hgap. apply pow2_multiple_of_4.
    + rewrite (control_total_r _ _ _ _ Hc). apply int_rounds_pow2. lia.
Qed.

Lemma Dwt_serial_eq log_n (scalar : option ScalarType) (values : list Z) :
  Dwt_serial modulus roots log_n scalar values
  = (st ← serial_stage_loop modulus roots log_n (2 ^ log_n)
            (Build_serial_state (2 ^ log_n) 1 1 values);
     match scalar with
     | Some s =>
         serial_for (serial_last_scalar_step modulus roots (sv_total_r st) s)
                    (seq 0 (sv_m st)) (0, sv_values st)
     | None =>
         values' ← serial_for (DwtLastRound modulus roots (sv_total_r st))
                              (seq 0 (sv_m st)) (sv_values st);
         Done (0, values')
     end).
Proof. unfold Dwt_serial. rewrite Nat.shiftl_1_l. reflexivity. Qed.

(** X2: for [log_n <= 31], with the serial branches in place of the
    dispatches, a call without scalar has the outcome of the call with the
    kernels: the same buffer, or a fault where that one faults; the member
    [values_] is not moved. *)
Theorem serial_engine_agrees log_n (values : list Z) :
  log_n <= 31 ->
  Dwt_serial modulus roots log_n None values
  = (q ← Dwt_gpu modulus roots log_n None values; Done (0, q_values q)).
Proof.
  intros Hlog. destruct log_n as [|l].
  - unfold Dwt_serial, Dwt_gpu, stage_loop, serial_stage_loop, stage_cond,
      initial_state, submit, parallel_for.
    cbn. rewrite !bool_decide_eq_false_2 by lia.
    cbn. change (int_rounds 1) with (int_rounds (2 ^ 0)).
    rewrite int_rounds_pow2 by lia. change (2 ^ 0) with 1.
    destruct (DwtLastRound modulus roots 1 0 values); reflexivity.
  - assert (Hl : 1 <= S l <= 31) by lia.
    rewrite Dwt_serial_eq, Dwt_gpu_eq.
    change (Build_serial_state (2 ^ S l) 1 1 values)
      with (to_serial (@initial_state ScalarType (2 ^ S l) values)).
    rewrite (serial_stage_loop_kernels (S l) values Hl (S l) 0)
      by (apply initial_control; lia).
    destruct (stage_loop_ends (S l) values Hl (S l) 0
                (initial_state (2 ^ S l) values)
                (initial_control (S l) values Hl) ltac:(lia))
      as [->|(st & -> & C)]; [reflexivity|].
    cbn [mbind outcome_bind to_serial sv_total_r sv_m sv_values].
    rewrite (control_total_r _ _ _ _ C), int_rounds_pow2 by lia.
    unfold submit. rewrite serial_for_run_units.
    unfold parallel_for.
    destruct (run_units _ _ _); reflexivity.
Qed.

End SerialEngine.

Lemma serial_engine_agrees_witness :
  Dwt_serial (Arith := spec_arith) 17%Z [0; 4; 2; 8]%Z 2 None [1; 2; 3; 4]%Z
  = (q ← Dwt_gpu (Arith := spec_arith) 17%Z [0; 4; 2; 8]%Z 2 None [1; 2; 3; 4]%Z;
     Done (0, q_values q)).
Proof.
  apply (serial_engine_agrees (Arith := spec_arith)). lia.
Defined.

Section SerialScalar.
Context {RootType ScalarType : Type} `{Arith : DwtArith RootType ScalarType}.
Variable modulus : Z.
Variable roots : list RootType.

Lemma serial_last_scalar_step_inv total_r s i b (vs : list Z) o :
  serial_last_scalar_step modulus roots total_r s i (b, vs) = o ->
  o = Fault \/
  exists vs', o = Done (b + 2, vs') /\ length vs' = length vs /\
              b + (2 * i + 1) < length vs.
Proof.
  unfold serial_last_scalar_step. cbn [fst snd]. intros <-.
  destruct (load roots (total_r + i)) as [r| |] eqn:Hr; cbn [mbind outcome_bind];
    [|left; reflexivity|exfalso; exact (load_not_OutOfFuel _ _ Hr)].
  destruct (load vs (b + 2 * i)) as [u| |] eqn:Hu; cbn [mbind outcome_bind];
    [|left; reflexivity|exfalso; exact (load_not_OutOfFuel _ _ Hu)].
  destruct (load vs (b + (2 * i + 1))) as [v| |] eqn:Hv; cbn [mbind outcome_bind];
    [|left; reflexivity|exfalso; exact (load_not_OutOfFuel _ _ Hv)].
  assert (Hlen : b + (2 * i + 1) < length vs).
  { unfold load in Hv. destruct (vs !! (b + (2 * i + 1))) eqn:E; [|discriminate].
    eapply lookup_lt_Some, E. }
  rewrite store_lt by lia. cbn [mbind outcome_bind].
  rewrite store_lt by (rewrite length_insert; lia). cbn [mbind outcome_bind].
  right. eexists. split; [reflexivity|]. rewrite !length_insert. lia.
Qed.

Lemma serial_last_scalar_overrun total_r s :
  forall cnt i0 (vs : list Z),
    length vs <= 4 * (i0 + cnt) + 1 ->
    serial_for (serial_last_scalar_step modulus roots total_r s)
               (seq i0 (S cnt)) (2 * i0, vs) = Fault.
Proof.
  induction cnt as [|cnt IH]; intros i0 vs Hlen.
  - cbn [seq serial_for].
    destruct (serial_last_scalar_step_inv total_r s i0 (2 * i0) vs _ eq_refl)
      as [->|(vs' & -> & Hl & Hb)]; [reflexivity|lia].
  - change (seq i0 (S (S cnt))) with (i0 :: seq (S i0) (S cnt)).
    cbn [serial_for].
    destruct (serial_last_scalar_step_inv total_r s i0 (2 * i0) vs _ eq_refl)
      as [->|(vs' & -> & Hl & Hb)]; [reflexivity|].
    cbn [mbind outcome_bind]. replace (2 * i0 + 2) with (2 * S i0) by lia.
    apply IH. lia.
Qed.

(** An interior stage of the serial path faults or keeps the length of
    the buffer. *)
Lemma serial_stage_values gap total_r m (vs : list Z) :
  gap <> 0 -> (4 <= gap -> gap mod unroll = 0) ->
  forall o,
    o = (if decide (gap < 4)
         then serial_for (serial_small_gap_group modulus roots gap total_r) (seq 0 m) vs
         else serial_for (serial_large_gap_group modulus roots gap total_r) (seq 0 m) vs) ->
    o = Fault \/ exists vs', o = Done vs' /\ length vs' = length vs.
Proof.
  intros Hg Hdiv o ->.
  assert (Hsmall :
    serial_for (serial_small_gap_group modulus roots gap total_r) (seq 0 m) vs = Fault \/
    exists vs',
      serial_for (serial_small_gap_group modulus roots gap total_r) (seq 0 m) vs
      = Done vs' /\ length vs' = length vs).
  { rewrite serial_small_gap_dispatch by assumption. unfold parallel_for.
    destruct (run_units _ _ _) as [vs'| |] eqn:Hrun.
    - right. exists vs'. split; [reflexivity|].
      eapply run_units_length; [|exact Hrun].
      intros ind v a. apply (run_kernel_length modulus roots (GapLE4 gap total_r)).
    - left. reflexivity.
    - exfalso. revert Hrun. apply run_units_not_OutOfFuel.
      intros ind v.
      apply (run_kernel_not_OutOfFuel modulus roots (GapLE4 gap total_r)). }
  destruct (decide (gap < 4)) as [Hlt|Hge]; [exact Hsmall|].
  rewrite (serial_for_ext _ (serial_small_gap_group modulus roots gap total_r));
    [exact Hsmall|].
  intros i v. apply serial_large_gap_group_small, Hdiv. lia.
Qed.

(** The stage loop of the serial path faults or ends with [m = n / 2] on a
    buffer of the length it started with. *)
Lemma serial_stage_loop_ends log_n :
  1 <= log_n ->
  forall fuel k st,
    k < log_n -> sv_m st = 2 ^ k -> sv_gap st = 2 ^ (log_n - k) ->
    log_n - 1 - k <= fuel ->
    serial_stage_loop modulus roots fuel (2 ^ log_n) st = Fault \/
    exists st', serial_stage_loop modulus roots fuel (2 ^ log_n) st = Done st' /\
                sv_m st' = 2 ^ (log_n - 1) /\
                length (sv_values st') = length (sv_values st).
Proof.
  intros Hlog.
  assert (Hcond : forall k st, sv_m st = 2 ^ k ->
            (bool_decide (sv_m st < Nat.shiftr (2 ^ log_n) 1) = true <-> S k < log_n)).
  { intros k st Hm. rewrite bool_decide_eq_true, shiftr_1, Hm, pow2_half by lia.
    rewrite pow2_lt. lia. }
  induction fuel as [|fuel IH]; intros k st Hk Hm Hgap Hfuel;
    cbn [serial_stage_loop];
    destruct (bool_decide (sv_m st < Nat.shiftr (2 ^ log_n) 1)) eqn:Hc.
  - apply (Hcond k st Hm) in Hc. lia.
  - right. exists st. split; [reflexivity|]. split; [|reflexivity].
    rewrite Hm. f_equal.
    destruct (decide (S k < log_n)) as [Hlt|Hge]; [|lia].
    apply (Hcond k st Hm) in Hlt. congruence.
  - apply (Hcond k st Hm) in Hc.
    assert (Hhalf : Nat.shiftr (sv_gap st) 1 = 2 ^ (log_n - S k)).
    { rewrite shiftr_1, Hgap, pow2_half by lia. f_equal. lia. }
    unfold serial_stage_body. rewrite Hhalf.
    destruct (serial_stage_values (2 ^ (log_n - S k)) (sv_total_r st) (sv_m st)
                (sv_values st) (pow2_nonzero _) (pow2_multiple_of_4 _) _ eq_refl)
      as [->|(vs' & -> & Hlen)]; [left; reflexivity|].
    cbn [mbind outcome_bind].
    destruct (IH (S k) (Build_serial_state (2 ^ (log_n - S k)) (Nat.shiftl (sv_m st) 1)
                          (sv_total_r st + sv_m st) vs'))
      as [->|(st' & -> & Hm' & Hlen')]; cbn [sv_m sv_gap sv_values] in *.
    + lia.
    + rewrite shiftl_1, Hm, pow2_S. lia.
    + reflexivity.
    + lia.
    + left. reflexivity.
    + right. exists st'. split; [reflexivity|]. split; [assumption|]. congruence.
  - right. exists st. split; [reflexivity|]. split; [|reflexivity].
    rewrite Hm. f_equal.
    destruct (decide (S k < log_n)) as [Hlt|Hge]; [|lia].
    apply (Hcond k st Hm) in Hlt. congruence.
Qed.

End SerialScalar.

(** X1: the two serial loop nests of the interior stages leave the buffer
    the dispatches they stand in for leave, faults included: the nest of
    lines 292-307 that of the small-gap kernel over [m * gap] units, and,
    for a gap that is a multiple of the unroll factor 4, the nest of lines
    327-357 that of the large-gap kernel over [m * gap / 4] units. *)
Theorem serial_stages_agree
    {RootType ScalarType : Type} `{Arith : DwtArith RootType ScalarType}
    (modulus : Z) (roots : list RootType) (gap total_r m : nat) (values : list Z) :
  gap <> 0 ->
  serial_for (serial_small_gap_group modulus roots gap total_r) (seq 0 m) values
  = parallel_for (m * gap) (DwtGapLE4 modulus roots gap total_r) values /\
  (gap mod unroll = 0 ->
   serial_for (serial_large_gap_group modulus roots gap total_r) (seq 0 m) values
   = parallel_for (m * gap / unroll)
       (DwtLargeGap modulus roots unroll gap total_r) values).
Proof.
  intros Hg. split; [apply serial_small_gap_dispatch, Hg|].
  intros Hdiv.
  rewrite (serial_for_ext _ (serial_small_gap_group modulus roots gap total_r)).
  - rewrite serial_small_gap_dispatch by assumption.
    symmetry. apply large_gap_dispatch; [discriminate|assumption..].
  - intros i vs. apply serial_large_gap_group_small, Hdiv.
Qed.

Lemma serial_stages_agree_witness :
  serial_for (serial_small_gap_group (Arith := spec_arith) 17%Z [0; 4; 2; 8]%Z 4 1)
             (seq 0 2) [1; 2; 3; 4; 5; 6; 7; 8; 9; 10; 11; 12; 13; 14; 15; 16]%Z
  = parallel_for (2 * 4) (DwtGapLE4 17%Z [0; 4; 2; 8]%Z 4 1)
                 [1; 2; 3; 4; 5; 6; 7; 8; 9; 10; 11; 12; 13; 14; 15; 16]%Z /\
  (4 mod unroll = 0 ->
   serial_for (serial_large_gap_group (Arith := spec_arith) 17%Z [0; 4; 2; 8]%Z 4 1)
              (seq 0 2) [1; 2; 3; 4; 5; 6; 7; 8; 9; 10; 11; 12; 13; 14; 15; 16]%Z
   = parallel_for (2 * 4 / unroll) (DwtLargeGap 17%Z [0; 4; 2; 8]%Z unroll 4 1)
                  [1; 2; 3; 4; 5; 6; 7; 8; 9; 10; 11; 12; 13; 14; 15; 16]%Z).
Proof.
  apply (serial_stages_agree (Arith := spec_arith)); lia.
Defined.

(** X3: with the serial branches in place of the dispatches, a call with a
    scalar on a buffer of [n >= 4] values reads beyond the buffer: the loop
    of lines 375-397 advances [values_] by two in every pass and still
    indexes it with [2 * i], so pass [i] reads the slots [4i] and
    [4i + 1]. *)
Theorem serial_scalar_engine_overruns
    {RootType ScalarType : Type} `{Arith : DwtArith RootType ScalarType}
    (modulus : Z) (roots : list RootType) (log_n : nat) (s : ScalarType)
    (values : list Z) :
  2 <= log_n -> length values = 2 ^ log_n ->
  Dwt_serial modulus roots log_n (Some s) values = Fault.
Proof.
  intros Hlog Hlen. rewrite Dwt_serial_eq.
  assert (H1 : 1 <= log_n) by lia.
  destruct (serial_stage_loop_ends modulus roots log_n H1 log_n 0
              (Build_serial_state (2 ^ log_n) 1 1 values))
    as [->|(st & -> & Hm & Hl)]; cbn [sv_m sv_gap sv_values] in *;
    [lia | reflexivity | f_equal; lia | lia | reflexivity |].
  cbn [mbind outcome_bind]. rewrite Hm.
  assert (Hm2 : 2 <= 2 ^ (log_n - 1)).
  { change 2 with (2 ^ 1) at 1. apply Nat.pow_le_mono_r; lia. }
  replace (2 ^ (log_n - 1)) with (S (2 ^ (log_n - 1) - 1)) by lia.
  apply (serial_last_scalar_overrun modulus roots _ s (2 ^ (log_n - 1) - 1) 0).
  rewrite Hl, Hlen, <- (half_size log_n H1). lia.
Qed.

Lemma serial_scalar_engine_overruns_witness :
  Dwt_serial (Arith := spec_arith) 17%Z [0; 4; 2; 8]%Z 2 (Some 9%Z) [1; 2; 3; 4]%Z = Fault.
Proof.
  apply (serial_scalar_engine_overruns (Arith := spec_arith)); [lia | reflexivity].
Defined.

(** ** Buffers longer than the transform *)

Lemma load_app {A : Type} (l e : list A) i a :
  load l i = Done a -> load (l ++ e) i = Done a.
Proof.
  unfold load. destruct (l !! i) eqn:E; intros H; inversion H; subst.
  rewrite (lookup_app_l_Some _ _ _ _ E). reflexivity.
Qed.

Lemma store_app {A : Type} (l e l' : list A) i a :
  store l i a = Done l' -> store (l ++ e) i a = Done (l' ++ e).
Proof.
  unfold store. destruct (decide (i < length l)) as [Hi|]; intros H; inversion H; subst.
  destruct (decide (i < length (l ++ e))) as [_|Hn].
  - rewrite insert_app_l by assumption. reflexivity.
  - rewrite length_app in Hn. lia.
Qed.

Ltac step_app H :=
  let a := fresh "a" in let Ha := fresh "Ha" in
  apply bind_Done_inv in H; destruct H as (a & Ha & H);
  first [ rewrite (load_app _ _ _ _ Ha) | rewrite (store_app _ _ _ _ _ Ha) ];
  cbn [mbind outcome_bind].

Section Extension.
Context {RootType ScalarType : Type} `{Arith : DwtArith RootType ScalarType}.
Variable modulus : Z.
Variable roots : list RootType.
Variable e : list Z.

Lemma butterfly_app r x y (vs vs' : list Z) :
  butterfly modulus r x y vs = Done vs' ->
  butterfly modulus r x y (vs ++ e) = Done (vs' ++ e).
Proof.
  unfold butterfly. intros H. do 3 step_app H. apply store_app, H.
Qed.

Lemma unrolled_app r k : forall x y (vs vs' : list Z),
  unrolled modulus k r x y vs = Done vs' ->
  unrolled modulus k r x y (vs ++ e) = Done (vs' ++ e).
Proof.
  induction k as [|k IH]; intros x y vs vs' H; simpl in *.
  - inversion H. reflexivity.
  - apply bind_Done_inv in H. destruct H as (v1 & H1 & H).
    rewrite (butterfly_app _ _ _ _ _ H1). cbn [mbind outcome_bind]. apply IH, H.
Qed.

Lemma run_kernel_app (kern : kernel ScalarType) ind (vs vs' : list Z) :
  run_kernel modulus roots kern ind vs = Done vs' ->
  run_kernel modulus roots kern ind (vs ++ e) = Done (vs' ++ e).
Proof.
  destruct kern as [gap rounds|U gap rounds|rounds|rounds s]; cbn [run_kernel].
  - unfold DwtGapLE4. destruct (decide (gap = 0)); [discriminate|].
    intros H. apply bind_Done_inv in H. destruct H as (r & -> & H).
    cbn [mbind outcome_bind]. apply butterfly_app, H.
  - unfold DwtLargeGap. destruct (decide (gap / U = 0)); [discriminate|].
    intros H. apply bind_Done_inv in H. destruct H as (r & -> & H).
    cbn [mbind outcome_bind]. apply unrolled_app, H.
  - unfold DwtLastRound. intros H.
    apply bind_Done_inv in H. destruct H as (r & -> & H). cbn [mbind outcome_bind].
    do 3 step_app H. apply store_app, H.
  - unfold DwtLastRoundScalar. intros H.
    apply bind_Done_inv in H. destruct H as (r & -> & H). cbn [mbind outcome_bind].
    do 3 step_app H. apply store_app, H.
Qed.

Lemma run_units_app_buffer (kern : kernel ScalarType) inds : forall (vs vs' : list Z),
  run_units (run_kernel modulus roots kern) inds vs = Done vs' ->
  run_units (run_kernel modulus roots kern) inds (vs ++ e) = Done (vs' ++ e).
Proof.
  induction inds as [|ind inds IH]; intros vs vs' H; simpl in *.
  - inversion H. reflexivity.
  - apply bind_Done_inv in H. destruct H as (v1 & H1 & H).
    rewrite (run_kernel_app _ _ _ _ H1). cbn [mbind outcome_bind]. apply IH, H.
Qed.

End Extension.

Section ExtensionCall.
Context {RootType ScalarType : Type} `{Arith : DwtArith RootType ScalarType}.
Variable modulus : Z.
Variable roots : list RootType.
Variable e : list Z.

Lemma submit_app range (kern : kernel ScalarType) q q' :
  submit modulus roots range kern q = Done q' ->
  submit modulus roots range kern (extend_queue e q) = Done (extend_queue e q').
Proof.
  unfold submit, parallel_for. intros H.
  apply bind_Done_inv in H. destruct H as (vs & Hvs & H). inversion H; subst.
  cbn [extend_queue q_values q_log].
  rewrite (run_units_app_buffer modulus roots e _ _ _ _ Hvs). reflexivity.
Qed.

Lemma stage_body_app (st st' : loop_state ScalarType) :
  stage_body modulus roots st = Done st' ->
  stage_body modulus roots (extend_state e st) = Done (extend_state e st').
Proof.
  unfold stage_body. intros H.
  apply bind_Done_inv in H. destruct H as (q' & Hq & H). inversion H; subst.
  cbn [extend_state ls_gap ls_m ls_total_r ls_queue].
  destruct (decide (Nat.shiftr (ls_gap st) 1 < 4));
    rewrite (submit_app _ _ _ _ Hq); reflexivity.
Qed.

Lemma stage_loop_app n : forall fuel (st st' : loop_state ScalarType),
  stage_loop modulus roots fuel n st = Done st' ->
  stage_loop modulus roots fuel n (extend_state e st) = Done (extend_state e st').
Proof.
  induction fuel as [|fuel IH]; intros st st' H; cbn [stage_loop] in *;
    change (stage_cond n (extend_state e st)) with (stage_cond n st);
    destruct (stage_cond n st); try discriminate.
  - inversion H. reflexivity.
  - apply bind_Done_inv in H. destruct H as (st1 & H1 & H).
    rewrite (stage_body_app _ _ H1). cbn [mbind outcome_bind]. apply IH, H.
  - inversion H. reflexivity.
Qed.

Lemma Dwt_gpu_app log_n scalar (values : list Z) q :
  Dwt_gpu modulus roots log_n scalar values = Done q ->
  Dwt_gpu modulus roots log_n scalar (values ++ e) = Done (extend_queue e q).
Proof.
  unfold Dwt_gpu. intros H.
  apply bind_Done_inv in H. destruct H as (st & Hst & H).
  apply stage_loop_app in Hst.
  change (extend_state e (initial_state (Nat.shiftl 1 log_n) values))
    with (@initial_state ScalarType (Nat.shiftl 1 log_n) (values ++ e)) in Hst.
  rewrite Hst. cbn [mbind outcome_bind].
  destruct scalar; apply (submit_app _ _ _ _ H).
Qed.

End ExtensionCall.

(** ** Buffers shorter than the transform *)

Lemma run_units_Fault_at k (inds : list nat) ind (len : nat) :
  ind ∈ inds ->
  (forall a (vs after : list Z), k a vs = Done after -> length after = length vs) ->
  (forall vs : list Z, length vs = len -> k ind vs = Fault) ->
  (forall a (vs : list Z), k a vs <> OutOfFuel) ->
  forall values : list Z, length values = len -> run_units k inds values = Fault.
Proof.
  intros Hin Hlen Hf Hk. induction inds as [|a inds IH]; intros values Hv.
  - inversion Hin.
  - simpl. apply elem_of_cons in Hin as [<-|Hin].
    + rewrite Hf by assumption. reflexivity.
    + pose proof (Hk a values). pose proof (Hlen a values) as Hl.
      destruct (k a values) as [vs| |]; simpl; [|reflexivity|congruence].
      apply IH; [assumption|]. rewrite (Hl vs eq_refl). assumption.
Qed.

Section ShortBuffer.
Context {RootType ScalarType : Type} `{Arith : DwtArith RootType ScalarType}.
Variable modulus : Z.
Variable roots : list RootType.

Lemma butterfly_short r x y (vs : list Z) :
  length vs <= y -> butterfly modulus r x y vs = Fault.
Proof.
  intros Hy. unfold butterfly.
  destruct (load vs x) as [vx| |] eqn:Hx; cbn [mbind outcome_bind];
    [|reflexivity|exfalso; exact (load_not_OutOfFuel _ _ Hx)].
  rewrite load_None by assumption. reflexivity.
Qed.

Lemma DwtGapLE4_short gap rounds ind (vs : list Z) :
  length vs <= DwtGapLE4_offset gap ind + gap ->
  DwtGapLE4 modulus roots gap rounds ind vs = Fault.
Proof.
  intros Hy. unfold DwtGapLE4. destruct (decide (gap = 0)); [reflexivity|].
  destruct (load roots (rounds + ind / gap)) as [r| |] eqn:Hr; cbn [mbind outcome_bind];
    [|reflexivity|exfalso; exact (load_not_OutOfFuel _ _ Hr)].
  apply butterfly_short, Hy.
Qed.

Lemma last_round_short scalar rounds i (vs : list Z) :
  length vs <= 2 * i + 1 ->
  run_kernel modulus roots (last_kernel scalar rounds) i vs = Fault.
Proof.
  intros Hy.
  destruct scalar as [s|]; cbn [last_kernel run_kernel];
    unfold DwtLastRound, DwtLastRoundScalar;
    (destruct (load roots (rounds + i)) as [r| |] eqn:Hr; cbn [mbind outcome_bind];
      [|reflexivity|exfalso; exact (load_not_OutOfFuel _ _ Hr)]);
    (destruct (load vs (2 * i)) as [u| |] eqn:Hu; cbn [mbind outcome_bind];
      [|reflexivity|exfalso; exact (load_not_OutOfFuel _ _ Hu)]);
    rewrite load_None by assumption; reflexivity.
Qed.

(** A dispatch whose last unit reaches beyond the buffer. *)
Lemma small_gap_short gap rounds m (vs : list Z) :
  gap <> 0 -> m <> 0 -> length vs < 2 * gap * m ->
  parallel_for (m * gap) (DwtGapLE4 modulus roots gap rounds) vs = Fault.
Proof.
  intros Hg Hm Hlen. unfold parallel_for.
  apply (run_units_Fault_at _ _ (m * gap - 1) (length vs)).
  - apply elem_of_seq. nia.
  - intros a v after. apply (run_kernel_length modulus roots (GapLE4 gap rounds)).
  - intros v Hv. apply DwtGapLE4_short. rewrite Hv, DwtGapLE4_offset_eq.
    destruct m as [|m']; [contradiction|].
    replace (S m' * gap - 1) with (gap * m' + (gap - 1)) by nia.
    destruct (div_mod_compose gap m' (gap - 1)) as [-> ->]; [lia|]. nia.
  - intros a v. apply (run_kernel_not_OutOfFuel modulus roots (GapLE4 gap rounds)).
  - reflexivity.
Qed.

Lemma last_round_short_dispatch scalar rounds m (vs : list Z) :
  m <> 0 -> length vs < 2 * m ->
  parallel_for m (run_kernel modulus roots (last_kernel scalar rounds)) vs = Fault.
Proof.
  intros Hm Hlen. unfold parallel_for.
  apply (run_units_Fault_at _ _ (m - 1) (length vs)).
  - apply elem_of_seq. lia.
  - intros a v after. apply run_kernel_length.
  - intros v Hv. apply last_round_short. lia.
  - intros a v. apply run_kernel_not_OutOfFuel.
  - reflexivity.
Qed.

End ShortBuffer.

Section ShortCall.
Context {RootType ScalarType : Type} `{Arith : DwtArith RootType ScalarType}.
Variable modulus : Z.
Variable roots : list RootType.

Lemma first_stage_short l (values : list Z) :
  length values < 2 ^ S (S l) ->
  stage_body modulus roots (@initial_state ScalarType (2 ^ S (S l)) values) = Fault.
Proof.
  intros Hlen. rewrite stage_body_eq.
  cbn [initial_state ls_gap ls_m ls_total_r ls_queue]. rewrite int_rounds_1.
  assert (Hg : 2 ^ S (S l) / 2 = 2 ^ S l).
  { rewrite (pow2_S (S l)), Nat.mul_comm, Nat.div_mul; lia. }
  rewrite Hg. pose proof (pow2_nonzero (S l)) as Hnz.
  assert (Hshort : parallel_for (1 * 2 ^ S l)
                     (DwtGapLE4 modulus roots (2 ^ S l) 1) values = Fault).
  { apply small_gap_short; [assumption|discriminate|].
    rewrite (pow2_S (S l)) in Hlen. lia. }
  unfold submit. cbn [q_values].
  destruct (decide (2 ^ S l < 4)) as [Hlt|Hge]; cbn [run_kernel].
  - rewrite Hshort. reflexivity.
  - rewrite (large_gap_dispatch modulus roots unroll), Hshort;
      [reflexivity|discriminate|assumption|].
    destruct (pow2_ge4 (S l) Hge) as [-> _]. unfold unroll.
    rewrite Nat.mul_comm. apply Nat.Div0.mod_mul.
Qed.

(** A call for at most two points runs no stage: it is the dispatch of
    the last round over one unit. *)
Lemma no_stage_call log_n scalar (values : list Z) :
  log_n <= 1 ->
  Dwt_gpu modulus roots log_n scalar values
  = submit modulus roots 1 (last_kernel scalar 1) (Build_queue values []).
Proof.
  intros Hlog. rewrite Dwt_gpu_eq.
  destruct log_n as [|[|l]]; [| |lia];
    cbn [stage_loop]; rewrite stage_cond_eq; cbn [initial_state ls_m];
    rewrite bool_decide_eq_false_2 by (simpl; lia);
    cbn [mbind outcome_bind initial_state ls_m ls_total_r ls_queue]; rewrite int_rounds_1;
    destruct scalar; reflexivity.
Qed.

Lemma last_submit_short scalar (values : list Z) :
  length values < 2 ->
  submit modulus roots 1 (last_kernel scalar 1) (Build_queue values []) = Fault.
Proof.
  intros Hlen. unfold submit. cbn [q_values].
  rewrite last_round_short_dispatch; [reflexivity|discriminate|lia].
Qed.

(** On a buffer of fewer than [n] slots the call faults: the last unit of
    the first dispatch reads slot [n - 1]. *)
Lemma short_buffer log_n scalar (values : list Z) :
  1 <= log_n -> length values < 2 ^ log_n ->
  Dwt_gpu modulus roots log_n scalar values = Fault.
Proof.
  intros Hlog Hlen.
  destruct log_n as [|[|l]]; [lia| |].
  - rewrite no_stage_call by lia. apply last_submit_short. simpl in Hlen. lia.
  - rewrite Dwt_gpu_eq. cbn [stage_loop]. rewrite stage_cond_eq.
    cbn [initial_state ls_m].
    rewrite bool_decide_eq_true_2.
    + fold (@initial_state ScalarType (2 ^ S (S l)) values).
      rewrite first_stage_short by assumption. reflexivity.
    + rewrite (pow2_S (S l)), Nat.mul_comm, Nat.div_mul by lia.
      pose proof (pow2_nonzero l). rewrite pow2_S. lia.
Qed.

End ShortCall.

Section Completion.
Context {RootType ScalarType : Type} `{Arith : DwtArith RootType ScalarType}.
Variable modulus : Z.
Variable roots : list RootType.

(** The last unit of the last round reads entry [n - 1] of the table. *)
Lemma short_table log_n scalar (values : list Z) :
  1 <= log_n <= 31 -> length roots < 2 ^ log_n ->
  Dwt_gpu modulus roots log_n scalar values = Fault.
Proof.
  intros Hlog Hroots. rewrite Dwt_gpu_eq.
  destruct (stage_loop_ends modulus roots log_n values Hlog log_n 0
              (initial_state (2 ^ log_n) values)
              (initial_control log_n values Hlog) ltac:(lia))
    as [->|(st & -> & C)]; [reflexivity|].
  cbn [mbind outcome_bind].
  rewrite (control_m _ _ _ _ C), (control_total_r _ _ _ _ C).
  rewrite int_rounds_pow2 by lia.
  pose proof (half_size log_n (proj1 Hlog)) as Hhalf.
  pose proof (pow2_nonzero (log_n - 1)) as Hnz.
  assert (Hlast : forall kern : kernel ScalarType,
            (forall vs, run_kernel modulus roots kern (2 ^ (log_n - 1) - 1) vs = Fault) ->
            submit modulus roots (2 ^ (log_n - 1)) kern (ls_queue st) = Fault).
  { intros kern Hk. unfold submit, parallel_for.
    rewrite (run_units_Fault _ _ (2 ^ (log_n - 1) - 1)); [reflexivity| |exact Hk|].
    - apply elem_of_seq. lia.
    - intros a vs. apply run_kernel_not_OutOfFuel. }
  destruct scalar as [s|]; apply Hlast; intros vs; cbn [run_kernel];
    unfold DwtLastRound, DwtLastRoundScalar;
    rewrite (load_None roots) by lia; reflexivity.
Qed.

Lemma long_enough log_n scalar (values : list Z) :
  1 <= log_n <= 31 -> 2 ^ log_n <= length values -> 2 ^ log_n <= length roots ->
  exists q, Dwt_gpu modulus roots log_n scalar values = Done q.
Proof.
  intros Hlog Hvalues Hroots.
  destruct (Dwt_gpu_run modulus roots log_n (take (2 ^ log_n) values) Hlog
              ltac:(rewrite length_take; lia) Hroots scalar)
    as (st & q & _ & _ & Hcall & _).
  exists (extend_queue (drop (2 ^ log_n) values) q).
  rewrite <- (take_drop (2 ^ log_n) values) at 1.
  apply Dwt_gpu_app, Hcall.
Qed.

End Completion.

(** X5: a call for [n = 2^log_n] points, [1 <= log_n <= 31], is safe
    exactly when the buffer and the root table have at least [n] entries each.  Then it
    completes; when either has fewer it faults, whatever the modulus, the
    scalar and the contents: the first dispatch reaches slot [n - 1], the
    last round reads root [n - 1]. *)
Theorem call_completes_exactly
    {RootType ScalarType : Type} `{Arith : DwtArith RootType ScalarType}
    (modulus : Z) (roots : list RootType) (log_n : nat) (scalar : option ScalarType)
    (values : list Z) :
  1 <= log_n <= 31 ->
  (2 ^ log_n <= length values -> 2 ^ log_n <= length roots ->
   exists q, Dwt_gpu modulus roots log_n scalar values = Done q) /\
  (length values < 2 ^ log_n \/ length roots < 2 ^ log_n ->
   Dwt_gpu modulus roots log_n scalar values = Fault).
Proof.
  intros Hlog. split.
  - intros Hvalues Hroots. apply long_enough; assumption.
  - intros [Hvalues|Hroots].
    + apply short_buffer; [lia|assumption].
    + apply short_table; assumption.
Qed.

Lemma call_completes_exactly_witness :
  (2 ^ 2 <= length [1; 2; 3; 4; 5]%Z -> 2 ^ 2 <= length [0; 4; 2; 8]%Z ->
   exists q, Dwt_gpu (Arith := spec_arith) 17%Z [0; 4; 2; 8]%Z 2 None [1; 2; 3; 4; 5]%Z
             = Done q) /\
  (length [1; 2; 3; 4; 5]%Z < 2 ^ 2 \/ length [0; 4; 2; 8]%Z < 2 ^ 2 ->
   Dwt_gpu (Arith := spec_arith) 17%Z [0; 4; 2; 8]%Z 2 None [1; 2; 3; 4; 5]%Z = Fault).
Proof.
  apply (call_completes_exactly (Arith := spec_arith)). lia.
Defined.

(** X4: the slots behind the buffer a call completes on are not touched
    and do not matter: on the buffer followed by further slots the call
    leaves the same values, followed by those slots as they were. *)
Theorem longer_buffer_tail_untouched
    {RootType ScalarType : Type} `{Arith : DwtArith RootType ScalarType}
    (modulus : Z) (roots : list RootType) (log_n : nat) (scalar : option ScalarType)
    (values extra out : list Z) :
  transform modulus roots log_n scalar values = Done out ->
  transform modulus roots log_n scalar (values ++ extra) = Done (out ++ extra).
Proof.
  unfold transform. intros H.
  apply bind_Done_inv in H. destruct H as (q & Hq & H). inversion H; subst out.
  rewrite (Dwt_gpu_app modulus roots extra log_n scalar values q Hq). reflexivity.
Qed.

Lemma longer_buffer_tail_untouched_witness :
  transform (Arith := spec_arith) 17%Z [0; 4; 2; 8]%Z 2 None ([1; 2; 3; 4] ++ [5; 6])%Z
  = Done ([15; 11; 13; 16] ++ [5; 6])%Z.
Proof.
  apply (longer_buffer_tail_untouched (Arith := spec_arith)). reflexivity.
Defined.


(** ** Edge cases: [log_n = 0], values beyond [4 * M] *)

(** X6: [log_n = 0] is not rejected.  The stage loop does not run and the
    last round is dispatched over one unit, exactly as for [log_n = 1]:
    the call reads and writes the slots 0 and 1 and reads root 1, and on
    the one-slot buffer of a transform of size [n = 1] it faults. *)
Theorem log_n_zero_runs_two_points
    {RootType ScalarType : Type} `{Arith : DwtArith RootType ScalarType}
    (modulus : Z) (roots : list RootType) (scalar : option ScalarType)
    (values : list Z) :
  Dwt_gpu modulus roots 0 scalar values = Dwt_gpu modulus roots 1 scalar values /\
  (length values < 2 -> Dwt_gpu modulus roots 0 scalar values = Fault).
Proof.
  rewrite !no_stage_call by lia. split; [reflexivity|].
  apply last_submit_short.
Qed.

Lemma log_n_zero_runs_two_points_witness :
  Dwt_gpu (Arith := spec_arith) 17%Z [0; 4]%Z 0 None [1]%Z
  = Dwt_gpu (Arith := spec_arith) 17%Z [0; 4]%Z 1 None [1]%Z /\
  (length [1%Z] < 2 ->
   Dwt_gpu (Arith := spec_arith) 17%Z [0; 4]%Z 0 None [1]%Z = Fault).
Proof.
  apply (log_n_zero_runs_two_points (Arith := spec_arith)).
Defined.

Lemma full_reduce_beyond
    {RootType ScalarType : Type} `{Arith : DwtArith RootType ScalarType} (M w : Z) :
  word_fits M -> (4 * M <= w < 2 ^ value_bits)%Z ->
  full_reduce M w = (w - 3 * M)%Z.
Proof.
  intros [HM Hfit] Hw. unfold full_reduce.
  rewrite (two_times_double M) by (split; assumption).
  destruct (Z.leb_spec (2 * M) w) as [_|?]; [|lia].
  unfold wrap. rewrite (Z.mod_small (w - 2 * M)) by lia.
  destruct (Z.leb_spec M (w - 2 * M)) as [_|?]; [|lia].
  rewrite Z.mod_small by lia. lia.
Qed.

(** X7: the two conditional subtractions that end the last round (lines
    187-190 and 229-232) reduce a word [w] to [w mod M] exactly when
    [w < 4 * M]; from [4 * M] on they leave [w - 3 * M], which is not
    below [M]. *)
Theorem full_reduce_exact_below_4M
    {RootType ScalarType : Type} `{Arith : DwtArith RootType ScalarType} (M w : Z) :
  word_fits M -> (0 <= w < 2 ^ value_bits)%Z ->
  (full_reduce M w = w mod M <-> w < 4 * M)%Z.
Proof.
  intros Hfits Hw. split.
  - intros Heq. destruct (Z.lt_ge_cases w (4 * M)) as [Hlt|Hge]; [exact Hlt|].
    rewrite (full_reduce_beyond M w Hfits) in Heq by lia.
    destruct Hfits as [HM _].
    pose proof (Z.mod_pos_bound w M HM). lia.
  - intros Hlt. apply full_reduce_mod; [exact Hfits|]. unfold below. lia.
Qed.

Lemma full_reduce_exact_below_4M_witness :
  (full_reduce (Arith := spec_arith) 17 70 = 70 mod 17 <-> 70 < 4 * 17)%Z.
Proof.
  apply (full_reduce_exact_below_4M (Arith := spec_arith));
    [apply spec_arith_fits; lia | simpl; lia].
Defined.

(** X15: the statement [two_times_modulus_ = (modulus << 1)] of the five
    constructors is computed in [ValueType]: it is [2 * M] as long as
    [2 * M] fits the word, and [2 * M - 2^value_bits] for a modulus from
    [2^(value_bits - 1)] on. *)
Theorem two_times_modulus_wraps
    {RootType ScalarType : Type} `{Arith : DwtArith RootType ScalarType} (M : Z) :
  (0 <= M < 2 ^ value_bits)%Z ->
  two_times M
  = (if (2 * M <? 2 ^ value_bits)%Z then 2 * M else 2 * M - 2 ^ value_bits)%Z.
Proof.
  intros HM. unfold two_times, wrap.
  rewrite Z.shiftl_mul_pow2 by lia. change (2 ^ 1)%Z with 2%Z.
  replace (M * 2)%Z with (2 * M)%Z by lia.
  destruct (Z.ltb_spec (2 * M) (2 ^ value_bits)) as [Hlt|Hge].
  - apply Z.mod_small. lia.
  - symmetry. apply (Z.mod_unique_pos _ _ 1); lia.
Qed.

Lemma two_times_modulus_wraps_witness :
  two_times (Arith := spec_arith) (2 ^ 63 + 5)
  = (if (2 * (2 ^ 63 + 5) <? 2 ^ value_bits)%Z
     then 2 * (2 ^ 63 + 5) else 2 * (2 ^ 63 + 5) - 2 ^ value_bits)%Z.
Proof.
  apply (two_times_modulus_wraps (Arith := spec_arith)). simpl. lia.
Defined.

(** ** The entries of the root table a call depends on *)

Lemma run_units_ext_in (k k' : nat -> list Z -> outcome (list Z)) inds :
  (forall ind vs, ind ∈ inds -> k ind vs = k' ind vs) ->
  forall values : list Z, run_units k inds values = run_units k' inds values.
Proof.
  induction inds as [|a inds IH]; intros Hk values; [reflexivity|].
  simpl. rewrite (Hk a values) by (apply elem_of_cons; left; reflexivity).
  destruct (k' a values); simpl; auto.
  apply IH. intros ind vs Hin. apply Hk. apply elem_of_cons. right. exact Hin.
Qed.

Lemma load_agree {A : Type} (l l' : list A) i : l !! i = l' !! i -> load l i = load l' i.
Proof. unfold load. intros ->. reflexivity. Qed.

Lemma run_kernel_agree
    {RootType ScalarType : Type} `{Arith : DwtArith RootType ScalarType}
    (modulus : Z) (roots roots' : list RootType) (kern : kernel ScalarType)
    (ind : nat) (values : list Z) :
  roots !! root_index kern ind = roots' !! root_index kern ind ->
  run_kernel modulus roots kern ind values = run_kernel modulus roots' kern ind values.
Proof.
  destruct kern as [gap rounds|U gap rounds|rounds|rounds s];
    cbn [run_kernel root_index]; intros H;
    unfold DwtGapLE4, DwtLargeGap, DwtLastRound, DwtLastRoundScalar;
    rewrite (load_agree _ _ _ H); reflexivity.
Qed.

Lemma submit_agree
    {RootType ScalarType : Type} `{Arith : DwtArith RootType ScalarType}
    (modulus : Z) (roots roots' : list RootType) (range : nat)
    (kern : kernel ScalarType) (q : queue ScalarType) :
  (forall ind, ind < range ->
     roots !! root_index kern ind = roots' !! root_index kern ind) ->
  submit modulus roots range kern q = submit modulus roots' range kern q.
Proof.
  intros H. unfold submit, parallel_for.
  rewrite (run_units_ext_in _ (run_kernel modulus roots' kern)); [reflexivity|].
  intros ind vs Hin. apply run_kernel_agree, H. apply elem_of_seq in Hin. lia.
Qed.

Section RootsRead.
Context {RootType ScalarType : Type} `{Arith : DwtArith RootType ScalarType}.
Variable modulus : Z.
Variables roots roots' : list RootType.
Variable log_n : nat.
Hypothesis positive : 1 <= log_n <= 31.
Hypothesis agree : forall i, 1 <= i < 2 ^ log_n -> roots !! i = roots' !! i.

Lemma stage_body_agree (values0 : list Z) k (st : loop_state ScalarType) :
  control log_n values0 k st -> stage_cond (2 ^ log_n) st = true ->
  stage_body modulus roots st = stage_body modulus roots' st.
Proof.
  intros C Hcond.
  pose proof (proj1 (control_cond log_n values0 positive k st C) Hcond) as Hk.
  destruct C as [_ Hm Hgap Htr _ _].
  assert (Hg : ls_gap st / 2 = 2 ^ (log_n - S k)).
  { rewrite Hgap, pow2_half by lia. f_equal. lia. }
  assert (Hle : 2 ^ k + 2 ^ k <= 2 ^ log_n).
  { apply (stage_roots log_n k); lia. }
  pose proof (pow2_nonzero k) as Hnz.
  rewrite !stage_body_eq. rewrite Hg, Hm, Htr, int_rounds_pow2 by lia.
  set (g := 2 ^ (log_n - S k)).
  destruct (decide (g < 4)) as [Hlt|Hge].
  - rewrite (submit_agree modulus roots roots'); [reflexivity|].
    intros ind Hind. cbn [root_index]. apply agree.
    pose proof (group_lt _ _ _ Hind). lia.
  - rewrite (submit_agree modulus roots roots'); [reflexivity|].
    intros ind Hind. cbn [root_index]. apply agree.
    destruct (pow2_ge4 _ Hge) as [Hg4 _]. fold g in Hg4. unfold unroll in *.
    set (h := 2 ^ (log_n - S k - 2)) in *.
    replace (g / 4) with h by (rewrite Hg4, Nat.mul_comm, Nat.div_mul; lia).
    replace (2 ^ k * g / 4) with (2 ^ k * h) in Hind
      by (rewrite Hg4; replace (2 ^ k * (4 * h)) with (2 ^ k * h * 4) by lia;
          rewrite Nat.div_mul; lia).
    pose proof (group_lt _ _ _ Hind). lia.
Qed.

Lemma last_submit_agree (values0 : list Z) (scalar : option ScalarType)
    (st : loop_state ScalarType) :
  control log_n values0 (log_n - 1) st ->
  submit modulus roots (ls_m st) (last_kernel scalar (int_rounds (ls_total_r st))) (ls_queue st)
  = submit modulus roots' (ls_m st) (last_kernel scalar (int_rounds (ls_total_r st))) (ls_queue st).
Proof.
  intros [_ Hm _ Htr _ _]. rewrite Hm, Htr, int_rounds_pow2 by lia.
  pose proof (half_size log_n (proj1 positive)) as Hhalf.
  pose proof (pow2_nonzero (log_n - 1)) as Hnz.
  apply submit_agree. intros ind Hind. apply agree.
  destruct scalar; cbn [last_kernel root_index]; lia.
Qed.

Lemma stage_loop_agree (values0 : list Z) (scalar : option ScalarType) :
  forall fuel k (st : loop_state ScalarType),
    control log_n values0 k st ->
    (st' ← stage_loop modulus roots fuel (2 ^ log_n) st;
     submit modulus roots (ls_m st') (last_kernel scalar (int_rounds (ls_total_r st'))) (ls_queue st'))
    = (st' ← stage_loop modulus roots' fuel (2 ^ log_n) st;
       submit modulus roots' (ls_m st') (last_kernel scalar (int_rounds (ls_total_r st'))) (ls_queue st')).
Proof.
  induction fuel as [|fuel IH]; intros k st C; cbn [stage_loop];
    destruct (stage_cond (2 ^ log_n) st) eqn:Hcond; try reflexivity.
  - cbn [mbind outcome_bind].
    assert (k = log_n - 1) as ->.
    { pose proof (control_k _ _ _ _ C).
      destruct (decide (S k < log_n)) as [Hk|Hk]; [|lia].
      apply (control_cond log_n values0 positive k st C) in Hk. congruence. }
    apply (last_submit_agree values0), C.
  - rewrite <- (stage_body_agree values0 k st C Hcond).
    destruct (stage_body modulus roots st) as [st1| |] eqn:Hbody; try reflexivity.
    cbn [mbind outcome_bind]. apply (IH (S k)).
    apply (stage_body_control modulus roots log_n values0 positive k st st1 C Hcond Hbody).
  - cbn [mbind outcome_bind].
    assert (k = log_n - 1) as ->.
    { pose proof (control_k _ _ _ _ C).
      destruct (decide (S k < log_n)) as [Hk|Hk]; [|lia].
      apply (control_cond log_n values0 positive k st C) in Hk. congruence. }
    apply (last_submit_agree values0), C.
Qed.

End RootsRead.

(** X8: for [1 <= log_n <= 31] the outcome of a call depends on the root
    table only through its entries 1 to [n - 1]: two tables that agree there give the same
    outcome on every buffer, so entry 0 and the entries from [n] on are
    never used. *)
Theorem roots_outside_range_unread
    {RootType ScalarType : Type} `{Arith : DwtArith RootType ScalarType}
    (modulus : Z) (roots roots' : list RootType) (log_n : nat)
    (scalar : option ScalarType) (values : list Z) :
  1 <= log_n <= 31 ->
  (forall i, 1 <= i < 2 ^ log_n -> roots !! i = roots' !! i) ->
  Dwt_gpu modulus roots log_n scalar values = Dwt_gpu modulus roots' log_n scalar values.
Proof.
  intros Hlog Hagree. rewrite !Dwt_gpu_eq.
  pose proof (stage_loop_agree modulus roots roots' log_n Hlog Hagree values scalar
                log_n 0 (initial_state (2 ^ log_n) values)
                (initial_control log_n values Hlog)) as H.
  destruct scalar; exact H.
Qed.

Lemma roots_outside_range_unread_witness :
  Dwt_gpu (Arith := spec_arith) 17%Z [0; 4; 2; 8]%Z 2 None [1; 2; 3; 4]%Z
  = Dwt_gpu (Arith := spec_arith) 17%Z [99; 4; 2; 8; 7]%Z 2 None [1; 2; 3; 4]%Z.
Proof.
  apply (roots_outside_range_unread (Arith := spec_arith)); [lia|].
  intros [|[|[|[|i]]]] Hi; simpl in Hi; (reflexivity || lia).
Defined.

(** ** The order of the work items of a dispatch *)

Lemma run_units_flat (k k' : nat -> list Z -> outcome (list Z)) (f : nat -> list nat) :
  (forall idx vs, k' idx vs = run_units k (f idx) vs) ->
  forall inds (values : list Z),
    run_units k' inds values = run_units k (flat_map f inds) values.
Proof.
  intros Hk. induction inds as [|idx inds IH]; intros values; [reflexivity|].
  cbn [run_units flat_map]. rewrite run_units_app, Hk.
  destruct (run_units k (f idx) values); simpl; auto.
Qed.

Lemma flat_map_blocks (U range : nat) :
  flat_map (fun idx => seq (U * idx) U) (seq 0 range) = seq 0 (U * range).
Proof.
  induction range as [|range IH].
  - rewrite Nat.mul_0_r. reflexivity.
  - rewrite seq_S, flat_map_app, IH. cbn [flat_map]. rewrite app_nil_r.
    replace (U * S range) with (U * range + U) by lia.
    rewrite seq_app. reflexivity.
Qed.

Lemma large_gap_order_irrelevant
    {RootType ScalarType : Type} `{Arith : DwtArith RootType ScalarType}
    (modulus : Z) (roots : list RootType) (Unroll gap m rounds : nat)
    (inds : list nat) (values : list Z) :
  Unroll <> 0 -> gap <> 0 -> gap mod Unroll = 0 ->
  length values = 2 * gap * m -> rounds + m <= length roots ->
  inds ≡ₚ seq 0 (m * gap / Unroll) ->
  run_units (DwtLargeGap modulus roots Unroll gap rounds) inds values
  = parallel_for (m * gap / Unroll) (DwtLargeGap modulus roots Unroll gap rounds) values.
Proof.
  intros HU Hg Hdiv Hlen Hroots Hperm.
  rewrite (large_gap_dispatch modulus roots Unroll gap rounds m values HU Hg Hdiv).
  rewrite (run_units_flat (DwtGapLE4 modulus roots gap rounds) _
             (fun idx => seq (Unroll * idx) Unroll)).
  - apply stage_order_irrelevant; try assumption.
    rewrite Hperm, flat_map_blocks.
    assert (Hgap : gap = Unroll * (gap / Unroll)).
    { pose proof (Nat.div_mod_eq gap Unroll). lia. }
    replace (Unroll * (m * gap / Unroll)) with (m * gap); [reflexivity|].
    rewrite Hgap at 2.
    replace (m * (Unroll * (gap / Unroll))) with (m * (gap / Unroll) * Unroll) by lia.
    rewrite Nat.div_mul by assumption. lia.
  - intros idx vs. apply DwtLargeGap_as_units; assumption.
Qed.

Lemma last_round_scalar_order_irrelevant
    {RootType ScalarType : Type} `{Arith : DwtArith RootType ScalarType}
    (modulus : Z) (roots : list RootType) (m rounds : nat) (s : ScalarType)
    (inds : list nat) (values : list Z) :
  length values = 2 * m -> rounds + m <= length roots ->
  inds ≡ₚ seq 0 m ->
  run_units (DwtLastRoundScalar modulus roots rounds s) inds values
  = parallel_for m (DwtLastRoundScalar modulus roots rounds s) values.
Proof.
  intros Hlen Hroots Hperm.
  destruct (last_round_scalar_dispatch modulus roots rounds s m values Hlen Hroots)
    as (after & Hrun & Hd).
  destruct (last_round_scalar_units modulus roots rounds s m inds values Hlen Hroots)
    as (after' & Hrun' & Hd').
  - rewrite Hperm. apply NoDup_seq.
  - intros ind Hind. rewrite Hperm in Hind. apply elem_of_seq in Hind. lia.
  - rewrite Hrun, Hrun'. f_equal.
    eapply dispatched_unique; [|exact Hd].
    eapply dispatched_perm; [exact Hperm | exact Hd'].
Qed.

Section OrderFree.
Context {RootType ScalarType : Type} `{Arith : DwtArith RootType ScalarType}.
Variable modulus : Z.
Variable roots : list RootType.

Lemma run_kernel_short_roots (kern : kernel ScalarType) ind (vs : list Z) :
  length roots <= root_index kern ind -> run_kernel modulus roots kern ind vs = Fault.
Proof.
  destruct kern as [gap rounds|U gap rounds|rounds|rounds s];
    cbn [run_kernel root_index]; intros H;
    unfold DwtGapLE4, DwtLargeGap, DwtLastRound, DwtLastRoundScalar;
    try destruct (decide _); try reflexivity;
    rewrite (load_None roots) by assumption; reflexivity.
Qed.

(** A dispatch one of whose units reads behind the root table faults in
    every order. *)
Lemma order_free_short_roots range (kern : kernel ScalarType) len ind :
  ind < range -> length roots <= root_index kern ind ->
  order_free modulus roots len (range, kern).
Proof.
  intros Hind Hshort inds vs _ Hperm. cbn [fst snd] in *. unfold parallel_for.
  rewrite (run_units_Fault _ inds ind), (run_units_Fault _ (seq 0 range) ind);
    try reflexivity;
    try (intros; apply run_kernel_short_roots; assumption);
    try (intros; apply run_kernel_not_OutOfFuel).
  - apply elem_of_seq. lia.
  - rewrite Hperm. apply elem_of_seq. lia.
Qed.

Lemma small_gap_order_free gap m rounds :
  gap <> 0 -> m <> 0 ->
  order_free modulus roots (2 * gap * m) (m * gap, GapLE4 gap rounds).
Proof.
  intros Hg Hm. destruct (decide (rounds + m <= length roots)) as [Hr|Hr].
  - intros inds vs Hlen Hperm. cbn [fst snd run_kernel] in *.
    apply stage_order_irrelevant; assumption.
  - apply (order_free_short_roots _ _ _ ((m - 1) * gap)).
    + nia.
    + cbn [root_index]. rewrite Nat.div_mul by assumption. lia.
Qed.

Lemma large_gap_order_free gap m rounds :
  gap <> 0 -> gap mod unroll = 0 -> m <> 0 ->
  order_free modulus roots (2 * gap * m) (m * gap / unroll, LargeGap unroll gap rounds).
Proof.
  intros Hg Hdiv Hm. destruct (decide (rounds + m <= length roots)) as [Hr|Hr].
  - intros inds vs Hlen Hperm. cbn [fst snd run_kernel] in *.
    apply large_gap_order_irrelevant; try assumption. discriminate.
  - assert (Hgap : gap = gap / unroll * unroll).
    { pose proof (Nat.div_mod_eq gap unroll). lia. }
    assert (Hh : gap / unroll <> 0) by (unfold unroll in *; lia).
    assert (Hrange : m * gap / unroll = m * (gap / unroll)).
    { rewrite Hgap at 1. rewrite Nat.mul_assoc, Nat.div_mul by discriminate.
      reflexivity. }
    rewrite Hrange.
    apply (order_free_short_roots _ _ _ ((m - 1) * (gap / unroll))).
    + nia.
    + cbn [root_index]. rewrite Nat.div_mul by assumption. lia.
Qed.

Lemma last_round_order_free scalar m rounds :
  m <> 0 -> order_free modulus roots (2 * m) (m, last_kernel scalar rounds).
Proof.
  intros Hm. destruct (decide (rounds + m <= length roots)) as [Hr|Hr].
  - intros inds vs Hlen Hperm. cbn [fst snd] in *.
    destruct scalar as [s|]; cbn [last_kernel run_kernel].
    + apply last_round_scalar_order_irrelevant; assumption.
    + apply last_round_order_irrelevant; assumption.
  - apply (order_free_short_roots _ _ _ (m - 1)); [lia|].
    destruct scalar; cbn [last_kernel root_index]; lia.
Qed.

(** The dispatch of an interior stage, whatever offset into the root
    table the kernel was built with. *)
Lemma stage_body_order_free log_n k (st st' : loop_state ScalarType) :
  S k < log_n -> ls_m st = 2 ^ k -> ls_gap st = 2 ^ (log_n - k) ->
  stage_body modulus roots st = Done st' ->
  ls_m st' = 2 ^ S k /\ ls_gap st' = 2 ^ (log_n - S k) /\
  exists e, order_free modulus roots (2 ^ log_n) e /\
            q_log (ls_queue st') = q_log (ls_queue st) ++ [e].
Proof.
  intros Hk Hm Hgap Hbody.
  assert (Hg : ls_gap st / 2 = 2 ^ (log_n - S k)).
  { rewrite Hgap, pow2_half by lia. f_equal. lia. }
  assert (Hsize : 2 * 2 ^ (log_n - S k) * 2 ^ k = 2 ^ log_n).
  { rewrite (pow2_split log_n k) by lia.
    replace (log_n - k) with (S (log_n - S k)) by lia. rewrite pow2_S. lia. }
  pose proof (pow2_nonzero (log_n - S k)) as Hgnz.
  pose proof (pow2_nonzero k) as Hmnz.
  rewrite stage_body_eq, Hg, Hm in Hbody.
  destruct (decide (2 ^ (log_n - S k) < 4)) as [Hlt|Hge];
    apply bind_Done_inv in Hbody as (q' & Hs & Hst);
    inversion Hst; subst st'; clear Hst; cbn [ls_m ls_gap ls_queue];
    apply submit_inv in Hs as (_ & Hlog & _);
    (split; [rewrite pow2_S; lia|]); (split; [reflexivity|]);
    eexists; (split; [|exact Hlog]); rewrite <- Hsize.
  - apply small_gap_order_free; assumption.
  - apply large_gap_order_free; try assumption.
    apply pow2_multiple_of_4. lia.
Qed.

Lemma stage_loop_order_free log_n :
  1 <= log_n ->
  forall fuel k (st st' : loop_state ScalarType),
    k < log_n -> ls_m st = 2 ^ k -> ls_gap st = 2 ^ (log_n - k) ->
    Forall (order_free modulus roots (2 ^ log_n)) (q_log (ls_queue st)) ->
    stage_loop modulus roots fuel (2 ^ log_n) st = Done st' ->
    ls_m st' = 2 ^ (log_n - 1) /\
    Forall (order_free modulus roots (2 ^ log_n)) (q_log (ls_queue st')).
Proof.
  intros Hlog.
  assert (Hcond : forall k (st : loop_state ScalarType), ls_m st = 2 ^ k ->
            (stage_cond (2 ^ log_n) st = true <-> S k < log_n)).
  { intros k st Hm. rewrite stage_cond_eq, bool_decide_eq_true, Hm, pow2_half by lia.
    rewrite pow2_lt. lia. }
  assert (Hend : forall k (st : loop_state ScalarType), k < log_n -> ls_m st = 2 ^ k ->
            stage_cond (2 ^ log_n) st = false -> ls_m st = 2 ^ (log_n - 1)).
  { intros k st Hk Hm Hc. rewrite Hm. f_equal.
    destruct (decide (S k < log_n)) as [Hlt|Hge]; [|lia].
    apply (Hcond k st Hm) in Hlt. congruence. }
  induction fuel as [|fuel IH]; intros k st st' Hk Hm Hgap Hfree Hloop;
    cbn [stage_loop] in Hloop;
    destruct (stage_cond (2 ^ log_n) st) eqn:Hc; try discriminate.
  - inversion Hloop; subst st'. split; [eapply Hend; eassumption | assumption].
  - apply (Hcond k st Hm) in Hc.
    apply bind_Done_inv in Hloop as (st1 & Hbody & Hloop).
    destruct (stage_body_order_free log_n k st st1 Hc Hm Hgap Hbody)
      as (Hm1 & Hgap1 & e & He & Hlog1).
    apply (IH (S k) st1 st'); try assumption.
    rewrite Hlog1. apply Forall_app. split; [assumption|].
    apply Forall_cons. split; [assumption|apply Forall_nil_2].
  - inversion Hloop; subst st'. split; [eapply Hend; eassumption | assumption].
Qed.

End OrderFree.

(** X9: the work items of every dispatch a call submits may run in any
    order: for each entry [(range, kernel)] of the queue log, running the
    kernel over any permutation of [0 .. range-1] on a buffer of [n]
    values leaves the buffer the ascending order leaves. *)
Theorem dispatch_order_irrelevant
    {RootType ScalarType : Type} `{Arith : DwtArith RootType ScalarType}
    (modulus : Z) (roots : list RootType) (log_n : nat) (scalar : option ScalarType)
    (values0 : list Z) (q : queue ScalarType)
    (range : nat) (kern : kernel ScalarType) (inds : list nat) (vs : list Z) :
  1 <= log_n -> length values0 = 2 ^ log_n -> 2 ^ log_n <= length roots ->
  Dwt_gpu modulus roots log_n scalar values0 = Done q ->
  (range, kern) ∈ q_log q ->
  length vs = 2 ^ log_n ->
  inds ≡ₚ seq 0 range ->
  run_units (run_kernel modulus roots kern) inds vs
  = parallel_for range (run_kernel modulus roots kern) vs.
Proof.
  intros Hlog Hlen Hroots Hcall Hin Hvs Hperm.
  rewrite Dwt_gpu_eq in Hcall.
  apply bind_Done_inv in Hcall as (st & Hloop & Hlast).
  destruct (stage_loop_order_free modulus roots log_n Hlog log_n 0
              (initial_state (2 ^ log_n) values0) st)
    as (Hm & Hfree); cbn [initial_state ls_m ls_gap ls_queue q_log];
    [lia | reflexivity | f_equal; lia | apply Forall_nil_2 | exact Hloop |].
  assert (Hq : q_log q = q_log (ls_queue st)
                 ++ [(ls_m st, last_kernel scalar (int_rounds (ls_total_r st)))]).
  { destruct scalar as [s|]; apply submit_inv in Hlast as (_ & Hq & _); exact Hq. }
  assert (Hall : Forall (order_free modulus roots (2 ^ log_n)) (q_log q)).
  { rewrite Hq. apply Forall_app. split; [assumption|].
    apply Forall_cons. split; [|apply Forall_nil_2].
    rewrite Hm, <- (half_size log_n Hlog).
    apply last_round_order_free, pow2_nonzero. }
  rewrite Forall_forall in Hall.
  exact (Hall (range, kern) Hin inds vs Hvs Hperm).
Qed.

Lemma dispatch_order_irrelevant_witness :
  run_units (run_kernel (Arith := spec_arith) 17%Z [0; 4; 2; 8]%Z (GapLE4 2 1))
            [1; 0] [1; 2; 3; 4]%Z
  = parallel_for 2 (run_kernel (Arith := spec_arith) 17%Z [0; 4; 2; 8]%Z (GapLE4 2 1))
                 [1; 2; 3; 4]%Z.
Proof.
  apply (dispatch_order_irrelevant (Arith := spec_arith) 17%Z [0; 4; 2; 8]%Z 2 None
           [1; 2; 3; 4]%Z
           (Build_queue [15; 11; 13; 16]%Z [(2, GapLE4 2 1); (2, LastRound 2)]));
    [lia | reflexivity | simpl; lia | reflexivity
    | apply elem_of_cons; left; reflexivity | reflexivity
    | apply perm_swap].
Defined.

(** ** What the transform computes *)

Lemma strided_sum_cons c rest x cnt :
  strided_sum (c :: rest) 0 1 x (S cnt) = (c + x * strided_sum rest 0 1 x cnt)%Z.
Proof.
  induction cnt as [|cnt IH].
  - simpl. lia.
  - cbn [strided_sum] in *. rewrite IH.
    replace (0 + S cnt * 1) with (S cnt) by lia.
    replace (0 + cnt * 1) with cnt by lia.
    change ((c :: rest) !! S cnt) with (rest !! cnt).
    rewrite (Nat2Z.inj_succ cnt), Z.pow_succ_r by lia.
    ring.
Qed.

Lemma strided_sum_poly_eval a x :
  strided_sum a 0 1 x (length a) = poly_eval a x.
Proof.
  induction a as [|c rest IH]; [reflexivity|].
  cbn [length poly_eval]. rewrite strided_sum_cons, IH. reflexivity.
Qed.

Lemma pow_congr (M c c' : Z) (t : nat) :
  (c mod M = c' mod M -> (c ^ Z.of_nat t) mod M = (c' ^ Z.of_nat t) mod M)%Z.
Proof.
  intros H. induction t as [|t IH]; [reflexivity|].
  rewrite Nat2Z.inj_succ, !Z.pow_succ_r by lia.
  rewrite (Zmult_mod c), (Zmult_mod c'), H, IH. reflexivity.
Qed.


Lemma strided_sum_congr (M : Z) a j stride c c' cnt :
  (c mod M = c' mod M ->
   strided_sum a j stride c cnt mod M = strided_sum a j stride c' cnt mod M)%Z.
Proof.
  intros H. induction cnt as [|cnt IH]; [reflexivity|].
  cbn [strided_sum].
  rewrite Zplus_mod, IH, (Zmult_mod _ (c ^ _)), (pow_congr M c c' cnt H).
  rewrite <- Zmult_mod, <- Zplus_mod. reflexivity.
Qed.

Lemma strided_sum_split a j g (r : Z) cnt :
  strided_sum a j g r (2 * cnt)
  = (strided_sum a j (2 * g) (r ^ 2) cnt
     + r * strided_sum a (j + g) (2 * g) (r ^ 2) cnt)%Z.
Proof.
  induction cnt as [|cnt IH]; [simpl; lia|].
  replace (2 * S cnt) with (S (S (2 * cnt))) by lia.
  cbn [strided_sum]. rewrite IH.
  replace (j + S (2 * cnt) * g) with (j + g + cnt * (2 * g)) by lia.
  replace (j + 2 * cnt * g) with (j + cnt * (2 * g)) by lia.
  rewrite <- Z.pow_mul_r by lia.
  replace (Z.of_nat (S (2 * cnt))) with (Z.succ (2 * Z.of_nat cnt)) by lia.
  replace (Z.of_nat (2 * cnt)) with (2 * Z.of_nat cnt)%Z by lia.
  rewrite Z.pow_succ_r by lia. ring.
Qed.

Lemma strided_sum_split_neg a j g (r : Z) cnt :
  strided_sum a j g (- r) (2 * cnt)
  = (strided_sum a j (2 * g) (r ^ 2) cnt
     - r * strided_sum a (j + g) (2 * g) (r ^ 2) cnt)%Z.
Proof.
  rewrite strided_sum_split. replace ((- r) ^ 2)%Z with (r ^ 2)%Z by ring. ring.
Qed.

Lemma mod_sum_product (M vx vy A B r : Z) :
  (vx mod M = A mod M -> vy mod M = B mod M ->
   (vx + vy * r) mod M = (A + r * B) mod M)%Z.
Proof.
  intros Hx Hy.
  rewrite Zplus_mod, Hx, (Zmult_mod vy), Hy, <- Zmult_mod, <- Zplus_mod.
  f_equal. ring.
Qed.

Lemma mod_diff_product (M vx vy A B r : Z) :
  (vx mod M = A mod M -> vy mod M = B mod M ->
   (vx - vy * r) mod M = (A - r * B) mod M)%Z.
Proof.
  intros Hx Hy.
  rewrite Zminus_mod, Hx, (Zmult_mod vy), Hy, <- Zmult_mod, <- Zminus_mod.
  f_equal. ring.
Qed.

Lemma tree_square {RootType : Type} (M : Z) (root_val : RootType -> Z)
    (roots : list RootType) (log_n k i : nat) :
  root_tree M root_val roots (2 ^ log_n) -> k < log_n -> i < 2 ^ k ->
  ((root_at root_val roots (2 ^ k + i) ^ 2) mod M
   = block_point root_val roots k i mod M)%Z.
Proof.
  intros [H1 Ht] Hk Hi. destruct k as [|k'].
  - simpl in Hi. replace i with 0 by lia. exact H1.
  - cbn [block_point].
    assert (Hpow : 2 ^ S k' * 2 <= 2 ^ log_n).
    { rewrite Nat.mul_comm, <- pow2_S. apply Nat.pow_le_mono_r; lia. }
    rewrite pow2_S in Hi, Hpow. pose proof (pow2_nonzero k') as Hnz.
    pose proof (Nat.div_mod_eq i 2) as Hdm.
    pose proof (Nat.mod_upper_bound i 2 ltac:(lia)) as Hm2.
    destruct (Ht (2 ^ k' + i / 2)) as [He Ho]; [lia|lia|].
    rewrite pow2_S.
    destruct (Nat.even i) eqn:Hev.
    + apply Nat.even_spec in Hev. destruct Hev as [h ->].
      replace (2 * h / 2) with h in * by (rewrite Nat.mul_comm, Nat.div_mul; lia).
      replace (2 * 2 ^ k' + 2 * h) with (2 * (2 ^ k' + h)) by lia. exact He.
    + assert (Hodd : Nat.odd i = true) by (rewrite <- Nat.negb_even, Hev; reflexivity).
      apply Nat.odd_spec in Hodd. destruct Hodd as [h ->].
      replace ((2 * h + 1) / 2) with h in *
        by (apply (Nat.div_unique _ 2 h 1); lia).
      replace (2 * 2 ^ k' + (2 * h + 1)) with (2 * (2 ^ k' + h) + 1) by lia. exact Ho.
Qed.

(** One stage of butterflies takes the remainders of stage [k] to those
    of stage [k + 1]. *)
Lemma remainders_step {RootType : Type} (M : Z) (root_val : RootType -> Z)
    (roots : list RootType) (a : list Z) (log_n k : nat) (before after : list Z) :
  S k <= log_n ->
  root_tree M root_val roots (2 ^ log_n) ->
  length after = 2 ^ log_n ->
  remainders M root_val roots a log_n k before ->
  butterflies M root_val roots (stage_gap log_n k) (2 ^ k)
              (2 ^ k * stage_gap log_n k) before after ->
  remainders M root_val roots a log_n (S k) after.
Proof.
  intros Hk Htree Hlen Hrem Hunits p x Hp.
  unfold butterflies, stage_gap in *. set (g := 2 ^ (log_n - S k)) in *.
  assert (Hg : g <> 0) by apply pow2_nonzero.
  assert (HB : 2 ^ (log_n - k) = 2 * g).
  { unfold g. rewrite <- pow2_S. f_equal. lia. }
  assert (Hn : 2 ^ log_n = 2 * g * 2 ^ k).
  { rewrite <- HB, Nat.mul_comm. apply pow2_split. lia. }
  assert (Hplt : p < 2 * g * 2 ^ k).
  { rewrite <- Hn, <- Hlen. eapply lookup_lt_Some, Hp. }
  destruct (GapLE4_slots_cover g (2 ^ k) p Hplt) as (ind & Hind & Hslot).
  destruct (Hunits ind Hind) as (vx & vy & x' & y' & Hbx & Hby & Hax & Hay & Hx' & Hy').
  unfold stage_slot_x, stage_slot_y in *. rewrite DwtGapLE4_offset_eq in *.
  destruct (div_mod_decompose g ind Hg) as [Hdm Hj].
  pose proof (group_lt g (2 ^ k) ind Hind) as Hi.
  set (i := ind / g) in *. set (j := ind mod g) in *.
  pose proof (Hrem _ _ Hbx) as Rx. pose proof (Hrem _ _ Hby) as Ry.
  rewrite HB in Rx, Ry.
  replace ((i * (g * 2) + j) / (2 * g)) with i in Rx
    by (apply (Nat.div_unique _ (2 * g) i j); lia).
  replace ((i * (g * 2) + j) mod (2 * g)) with j in Rx
    by (apply (Nat.mod_unique _ (2 * g) i j); lia).
  replace ((i * (g * 2) + j + g) / (2 * g)) with i in Ry
    by (apply (Nat.div_unique _ (2 * g) i (j + g)); lia).
  replace ((i * (g * 2) + j + g) mod (2 * g)) with (j + g) in Ry
    by (apply (Nat.mod_unique _ (2 * g) i (j + g)); lia).
  pose proof (tree_square M root_val roots log_n k i Htree ltac:(lia) Hi) as Hsq.
  set (r := root_at root_val roots (2 ^ k + i)) in *.
  replace (log_n - S k) with (log_n - S k) by reflexivity. fold g.
  rewrite pow2_S.
  destruct Hslot as [-> | ->].
  - rewrite Hax in Hp. inversion Hp; subst x'.
    replace ((i * (g * 2) + j) / g) with (2 * i)
      by (apply (Nat.div_unique _ g (2 * i) j); lia).
    replace ((i * (g * 2) + j) mod g) with j
      by (apply (Nat.mod_unique _ g (2 * i) j); lia).
    cbn [block_point].
    replace (Nat.even (2 * i)) with true
      by (symmetry; apply Nat.even_spec; exists i; reflexivity).
    replace (2 * i / 2) with i by (rewrite Nat.mul_comm, Nat.div_mul; lia).
    fold r. rewrite strided_sum_split, Hx'.
    apply mod_sum_product.
    + rewrite Rx. symmetry. apply strided_sum_congr, Hsq.
    + rewrite Ry. symmetry. apply strided_sum_congr, Hsq.
  - rewrite Hay in Hp. inversion Hp; subst y'.
    replace ((i * (g * 2) + j + g) / g) with (2 * i + 1)
      by (apply (Nat.div_unique _ g (2 * i + 1) j); lia).
    replace ((i * (g * 2) + j + g) mod g) with j
      by (apply (Nat.mod_unique _ g (2 * i + 1) j); lia).
    cbn [block_point].
    replace (Nat.even (2 * i + 1)) with false.
    2:{ symmetry. rewrite <- Nat.negb_odd.
        replace (Nat.odd (2 * i + 1)) with true; [reflexivity|].
        symmetry. apply Nat.odd_spec. exists i. reflexivity. }
    replace ((2 * i + 1) / 2) with i by (apply (Nat.div_unique _ 2 i 1); lia).
    fold r. rewrite strided_sum_split_neg, Hy'.
    apply mod_diff_product.
    + rewrite Rx. symmetry. apply strided_sum_congr, Hsq.
    + rewrite Ry. symmetry. apply strided_sum_congr, Hsq.
Qed.


Lemma last_slots_as_stage i :
  stage_slot_x 1 i = last_slot_x i /\ stage_slot_y 1 i = last_slot_y i.
Proof.
  unfold stage_slot_x, stage_slot_y, last_slot_x, last_slot_y.
  rewrite DwtGapLE4_offset_eq, Nat.div_1_r, Nat.mod_1_r. lia.
Qed.

Section Evaluation.
Context {RootType ScalarType : Type} `{Arith : DwtArith RootType ScalarType}.
Variable M : Z.
Variable roots : list RootType.
Variable root_val : RootType -> Z.
Variable scalar_val : ScalarType -> Z.
Hypothesis fits : word_fits M.
Hypothesis ranges : range_contract M.
Hypothesis exact : exact_contract M root_val scalar_val.

Lemma interior_units_exact gap rounds m (before after : list Z) :
  dispatched (stage_slot_x gap) (stage_slot_y gap)
             (stage_x M roots gap rounds) (stage_y M roots gap rounds)
             (seq 0 (m * gap)) before after ->
  Forall (below (4 * M)) before ->
  (forall ind, ind < m * gap -> is_Some (roots !! (rounds + ind / gap))) ->
  butterflies M root_val roots gap rounds (m * gap) before after.
Proof.
  intros [_ U _] Hbefore Hroots ind Hind.
  destruct (U ind) as (vx & vy & Hvx & Hvy & Hax & Hay).
  { apply elem_of_seq. split; [apply Nat.le_0_l | exact Hind]. }
  destruct (Hroots ind Hind) as [r Hr].
  pose proof (Forall_lookup_1 _ _ _ _ Hbefore Hvx) as Bx.
  pose proof (Forall_lookup_1 _ _ _ _ Hbefore Hvy) as By.
  exists vx, vy, (stage_x M roots gap rounds ind vx vy),
    (stage_y M roots gap rounds ind vx vy).
  repeat split; try assumption.
  - unfold stage_x, root_at. rewrite Hr. cbn [from_option].
    apply (butterfly_x_exact M root_val scalar_val); assumption.
  - unfold stage_y, root_at. rewrite Hr. cbn [from_option].
    apply (butterfly_y_exact M root_val scalar_val); assumption.
Qed.

Lemma last_units_exact rounds m (before after : list Z) :
  dispatched last_slot_x last_slot_y (last_x M roots rounds) (last_y M roots rounds)
             (seq 0 m) before after ->
  Forall (below (4 * M)) before ->
  (forall i, i < m -> is_Some (roots !! (rounds + i))) ->
  butterflies M root_val roots 1 rounds (m * 1) before after.
Proof.
  intros [_ U _] Hbefore Hroots i Hi. rewrite Nat.mul_1_r in Hi.
  destruct (U i) as (vx & vy & Hvx & Hvy & Hax & Hay).
  { apply elem_of_seq. split; [apply Nat.le_0_l | exact Hi]. }
  destruct (Hroots i Hi) as [r Hr].
  pose proof (Forall_lookup_1 _ _ _ _ Hbefore Hvx) as Bx.
  pose proof (Forall_lookup_1 _ _ _ _ Hbefore Hvy) as By.
  destruct (last_slots_as_stage i) as [-> ->]. rewrite Nat.div_1_r.
  exists vx, vy, (last_x M roots rounds i vx vy), (last_y M roots rounds i vx vy).
  repeat split; try assumption.
  - unfold last_x, root_at. rewrite Hr. cbn [from_option].
    rewrite (reduced_sum M root_val scalar_val) by assumption. apply Zmod_mod.
  - unfold last_y, root_at. rewrite Hr. cbn [from_option].
    rewrite (reduced_diff M root_val scalar_val) by assumption. apply Zmod_mod.
Qed.

End Evaluation.

Lemma iteration_butterflies
    {RootType ScalarType : Type} `{Arith : DwtArith RootType ScalarType}
    (M : Z) (roots : list RootType) (root_val : RootType -> Z)
    (scalar_val : ScalarType -> Z) (log_n : nat) (a : list Z) k st st' :
  1 <= log_n <= 31 -> length a = 2 ^ log_n -> 2 ^ log_n <= length roots ->
  word_fits M -> range_contract M -> exact_contract M root_val scalar_val ->
  Forall (below (4 * M)) a ->
  at_iteration M roots log_n a k st ->
  stage_cond (2 ^ log_n) st = true -> stage_body M roots st = Done st' ->
  butterflies M root_val roots (stage_gap log_n k) (2 ^ k)
              (2 ^ k * stage_gap log_n k)
              (q_values (ls_queue st)) (q_values (ls_queue st')) /\
  length (q_values (ls_queue st')) = 2 * stage_gap log_n k * 2 ^ k.
Proof.
  intros Hlog Hlen Hroots Hfits Hranges Hexact Ha Hat Hcond Hbody.
  pose proof (reachable_control _ _ _ _ Hlog _ _ Hat) as C.
  pose proof Hcond as Hk. apply (control_cond _ _ Hlog _ _ C) in Hk.
  destruct (stage_body_control M roots log_n a Hlog k st st' C Hcond Hbody)
    as [C' Hrun].
  assert (Hl : length (q_values (ls_queue st)) = 2 ^ log_n).
  { rewrite (control_length _ _ _ _ C). assumption. }
  destruct (interior_dispatch_run M roots log_n k _ Hroots Hk Hl)
    as (after & Hrun' & Hd).
  rewrite Hrun in Hrun'. inversion Hrun'; subst after.
  split.
  - apply (interior_units_exact M roots root_val scalar_val Hfits Hranges Hexact
             (stage_gap log_n k) (2 ^ k) (2 ^ k)); [assumption| |].
    + exact (reachable_range M roots log_n a Hlog Hlen Hroots Hfits Hranges Ha k st Hat).
    + intros ind Hind. apply lookup_lt_is_Some_2.
      pose proof (group_lt _ _ _ Hind).
      pose proof (stage_roots log_n k (length roots) ltac:(lia) Hroots). lia.
  - rewrite (control_length _ _ _ _ C'), Hlen. symmetry. apply stage_size. lia.
Qed.

Lemma last_butterflies
    {RootType ScalarType : Type} `{Arith : DwtArith RootType ScalarType}
    (M : Z) (roots : list RootType) (root_val : RootType -> Z)
    (scalar_val : ScalarType -> Z) (log_n : nat) (a : list Z) st out :
  1 <= log_n <= 31 -> length a = 2 ^ log_n -> 2 ^ log_n <= length roots ->
  word_fits M -> range_contract M -> exact_contract M root_val scalar_val ->
  Forall (below (4 * M)) a ->
  at_iteration M roots log_n a (log_n - 1) st ->
  parallel_for (2 ^ (log_n - 1)) (DwtLastRound M roots (2 ^ (log_n - 1)))
               (q_values (ls_queue st)) = Done out ->
  butterflies M root_val roots 1 (2 ^ (log_n - 1)) (2 ^ (log_n - 1) * 1)
              (q_values (ls_queue st)) out /\
  Forall (below M) out /\ length out = 2 * 1 * 2 ^ (log_n - 1).
Proof.
  intros Hlog Hlen Hroots Hfits Hranges Hexact Ha Hat Hlast.
  pose proof (reachable_control _ _ _ _ Hlog _ _ Hat) as C.
  pose proof (reachable_range M roots log_n a Hlog Hlen Hroots Hfits Hranges Ha _ _ Hat)
    as Hrange.
  pose proof (half_size log_n (proj1 Hlog)) as Hhalf.
  assert (Hl : length (q_values (ls_queue st)) = 2 * 2 ^ (log_n - 1)).
  { rewrite (control_length _ _ _ _ C), Hhalf; assumption. }
  assert (Hr : 2 ^ (log_n - 1) + 2 ^ (log_n - 1) <= length roots) by lia.
  destruct (last_round_dispatch M roots (2 ^ (log_n - 1)) (2 ^ (log_n - 1)) _ Hl Hr)
    as (after & Hrun & Hd).
  rewrite Hlast in Hrun. inversion Hrun; subst after. clear Hrun.
  split; [|split].
  - apply (last_units_exact M roots root_val scalar_val Hfits Hranges Hexact
             (2 ^ (log_n - 1)) (2 ^ (log_n - 1))); [assumption..|].
    intros i Hi. apply lookup_lt_is_Some_2. lia.
  - exact (last_round_range M Hfits _ Hranges roots _ _ _ _ Hl Hr Hd Hrange).
  - rewrite (dispatched_length _ _ _ _ _ _ _ Hd), Hl. lia.
Qed.

Lemma remainders_initial {RootType : Type} (M : Z) (root_val : RootType -> Z)
    (roots : list RootType) (a : list Z) (log_n : nat) :
  length a = 2 ^ log_n -> remainders M root_val roots a log_n 0 a.
Proof.
  intros Hlen p x Hp. rewrite Nat.sub_0_r.
  pose proof (lookup_lt_Some _ _ _ Hp) as Hlt. rewrite Hlen in Hlt.
  rewrite Nat.mod_small, Nat.div_small by assumption.
  cbn [Nat.pow strided_sum block_point].
  rewrite Nat.mul_0_l, Nat.add_0_r, Hp. cbn [default from_option id].
  f_equal. cbn. lia.
Qed.

Lemma reachable_remainders
    {RootType ScalarType : Type} `{Arith : DwtArith RootType ScalarType}
    (M : Z) (roots : list RootType) (root_val : RootType -> Z)
    (scalar_val : ScalarType -> Z) (log_n : nat) (a : list Z) :
  1 <= log_n <= 31 -> length a = 2 ^ log_n -> 2 ^ log_n <= length roots ->
  word_fits M -> range_contract M -> exact_contract M root_val scalar_val ->
  root_tree M root_val roots (2 ^ log_n) ->
  Forall (below (4 * M)) a ->
  forall k st, at_iteration M roots log_n a k st ->
    remainders M root_val roots a log_n k (q_values (ls_queue st)).
Proof.
  intros Hlog Hlen Hroots Hfits Hranges Hexact Htree Ha.
  induction 1 as [|k st st' Hat IH Hcond Hbody].
  - apply remainders_initial, Hlen.
  - destruct (iteration_butterflies M roots root_val scalar_val log_n a k st st'
                Hlog Hlen Hroots Hfits Hranges Hexact Ha Hat Hcond Hbody) as [B L].
    pose proof (reachable_control _ _ _ _ Hlog _ _ Hat) as C.
    pose proof Hcond as Hk. apply (control_cond _ _ Hlog _ _ C) in Hk.
    apply (remainders_step M root_val roots a log_n k (q_values (ls_queue st)));
      try assumption.
    + lia.
    + rewrite L. apply stage_size. lia.
Qed.

(** The point of slot [p] is the constant of block [p] after the last
    stage. *)
Lemma block_point_last {RootType : Type} (root_val : RootType -> Z)
    (roots : list RootType) (log_n p : nat) :
  1 <= log_n -> block_point root_val roots log_n p = eval_point root_val roots log_n p.
Proof.
  intros H. destruct log_n as [|l]; [lia|].
  unfold eval_point. cbn [block_point]. replace (S l - 1) with l by lia. reflexivity.
Qed.

(** After the last round the remainders are the values of the
    polynomial. *)
Lemma remainders_last {RootType : Type} (M : Z) (root_val : RootType -> Z)
    (roots : list RootType) (a : list Z) (log_n : nat) (out : list Z) p x :
  1 <= log_n -> length a = 2 ^ log_n ->
  remainders M root_val roots a log_n log_n out ->
  out !! p = Some x ->
  (x mod M = poly_eval a (eval_point root_val roots log_n p) mod M)%Z.
Proof.
  intros Hlog Hlen Hrem Hx.
  specialize (Hrem p x Hx). rewrite Nat.sub_diag in Hrem.
  change (2 ^ 0) with 1 in Hrem. rewrite Nat.mod_1_r, Nat.div_1_r in Hrem.
  rewrite block_point_last in Hrem by assumption.
  rewrite <- Hlen, strided_sum_poly_eval in Hrem. exact Hrem.
Qed.

(** The call completes with canonical residues that are the remainders
    of the input polynomial after all [log_n] stages. *)
Lemma transform_remainders
    {RootType ScalarType : Type} `{Arith : DwtArith RootType ScalarType}
    (M : Z) (roots : list RootType) (root_val : RootType -> Z)
    (scalar_val : ScalarType -> Z) (log_n : nat) (a : list Z) :
  1 <= log_n <= 31 -> length a = 2 ^ log_n -> 2 ^ log_n <= length roots ->
  word_fits M -> range_contract M -> exact_contract M root_val scalar_val ->
  root_tree M root_val roots (2 ^ log_n) ->
  Forall (below (4 * M)) a ->
  exists out, transform M roots log_n None a = Done out /\
    length out = 2 ^ log_n /\
    Forall (below M) out /\
    remainders M root_val roots a log_n log_n out.
Proof.
  intros Hlog Hlen Hroots Hfits Hranges Hexact Htree Ha.
  destruct (Dwt_gpu_run M roots log_n a Hlog Hlen Hroots None)
    as (st & q & _ & Hat & Hcall & Hlast & _).
  cbn [last_kernel run_kernel] in Hlast.
  destruct (last_butterflies M roots root_val scalar_val log_n a st _
              Hlog Hlen Hroots Hfits Hranges Hexact Ha Hat Hlast) as (B & Hcanon & L).
  pose proof (reachable_remainders M roots root_val scalar_val log_n a
                Hlog Hlen Hroots Hfits Hranges Hexact Htree Ha _ _ Hat) as Hrem.
  pose proof (half_size log_n (proj1 Hlog)) as Hhalf.
  assert (Hlo : length (q_values q) = 2 ^ log_n) by lia.
  exists (q_values q). unfold transform. rewrite Hcall. split; [reflexivity|].
  split; [exact Hlo|]. split; [exact Hcanon|].
  replace log_n with (S (log_n - 1)) at 2 by lia.
  apply (remainders_step M root_val roots a log_n (log_n - 1)
           (q_values (ls_queue st))); try assumption.
  - lia.
  - unfold stage_gap. replace (log_n - S (log_n - 1)) with 0 by lia. exact B.
Qed.

Lemma reverse_bits_0 bits : reverse_bits bits 0 = 0.
Proof.
  induction bits as [|b IH]; [reflexivity|].
  change (reverse_bits (S b) 0) with (0 * 2 ^ b + reverse_bits b 0).
  rewrite IH. lia.
Qed.

Lemma reverse_bits_low b : forall t, t < 2 ^ b -> reverse_bits (S b) t = 2 * reverse_bits b t.
Proof.
  induction b as [|b IH]; intros t Ht.
  - simpl in Ht. replace t with 0 by lia. reflexivity.
  - change (reverse_bits (S (S b)) t)
      with (t mod 2 * 2 ^ S b + reverse_bits (S b) (t / 2)).
    rewrite IH.
    + change (reverse_bits (S b) t) with (t mod 2 * 2 ^ b + reverse_bits b (t / 2)).
      rewrite pow2_S. lia.
    + rewrite pow2_S in Ht. apply Nat.Div0.div_lt_upper_bound. lia.
Qed.

Lemma reverse_bits_double b t : reverse_bits (S b) (2 * t) = reverse_bits b t.
Proof.
  change (reverse_bits (S b) (2 * t))
    with ((2 * t) mod 2 * 2 ^ b + reverse_bits b (2 * t / 2)).
  rewrite (Nat.mul_comm 2 t), Nat.Div0.mod_mul, Nat.div_mul by lia. lia.
Qed.

Lemma reverse_bits_double_1 b t : reverse_bits (S b) (2 * t + 1) = 2 ^ b + reverse_bits b t.
Proof.
  change (reverse_bits (S b) (2 * t + 1))
    with ((2 * t + 1) mod 2 * 2 ^ b + reverse_bits b ((2 * t + 1) / 2)).
  replace ((2 * t + 1) mod 2) with 1 by (apply (Nat.mod_unique _ 2 t 1); lia).
  replace ((2 * t + 1) / 2) with t by (apply (Nat.div_unique _ 2 t 1); lia).
  lia.
Qed.

Lemma reverse_bits_top b : forall q, q < 2 ^ b ->
  reverse_bits (S b) (2 ^ b + q) = 1 + 2 * reverse_bits b q.
Proof.
  induction b as [|b IH]; intros q Hq.
  - simpl in Hq. replace q with 0 by lia. reflexivity.
  - rewrite pow2_S in Hq.
    pose proof (Nat.div_mod_eq q 2) as Hdm.
    pose proof (Nat.mod_upper_bound q 2 ltac:(lia)) as Hm.
    change (reverse_bits (S (S b)) (2 ^ S b + q))
      with ((2 ^ S b + q) mod 2 * 2 ^ S b + reverse_bits (S b) ((2 ^ S b + q) / 2)).
    replace ((2 ^ S b + q) mod 2) with (q mod 2)
      by (apply (Nat.mod_unique _ 2 (2 ^ b + q / 2)); rewrite ?pow2_S; lia).
    replace ((2 ^ S b + q) / 2) with (2 ^ b + q / 2)
      by (apply (Nat.div_unique _ 2 _ (q mod 2)); rewrite ?pow2_S; lia).
    rewrite IH by lia.
    change (reverse_bits (S b) q) with (q mod 2 * 2 ^ b + reverse_bits b (q / 2)).
    rewrite pow2_S. lia.
Qed.

Lemma poly_eval_congr (M : Z) a (x x' : Z) :
  (x mod M = x' mod M -> poly_eval a x mod M = poly_eval a x' mod M)%Z.
Proof.
  intros H. induction a as [|c rest IH]; [reflexivity|].
  cbn [poly_eval].
  rewrite Zplus_mod, (Zmult_mod x), H, IH, <- Zmult_mod, <- Zplus_mod. reflexivity.
Qed.

Lemma mod_opp_congr (M x y : Z) : (x mod M = y mod M -> (- x) mod M = (- y) mod M)%Z.
Proof.
  intros H. replace (- x)%Z with (0 - x)%Z by lia. replace (- y)%Z with (0 - y)%Z by lia.
  rewrite Zminus_mod, H, <- Zminus_mod. reflexivity.
Qed.

Lemma mod_square_congr (M x y : Z) : (x mod M = y mod M -> (x ^ 2) mod M = (y ^ 2) mod M)%Z.
Proof.
  intros H. rewrite !Z.pow_2_r, (Zmult_mod x), H, <- Zmult_mod. reflexivity.
Qed.

Lemma psi_shift (M psi : Z) (n e : nat) :
  ((psi ^ Z.of_nat n) mod M = (-1) mod M ->
   (psi ^ Z.of_nat (n + e)) mod M = (- psi ^ Z.of_nat e) mod M)%Z.
Proof.
  intros H. rewrite Nat2Z.inj_add, Z.pow_add_r by lia.
  rewrite Zmult_mod, H, <- Zmult_mod. f_equal; ring.
Qed.

Lemma bit_reversed_powers_tree {RootType : Type} (M : Z) (root_val : RootType -> Z)
    (roots : list RootType) (psi : Z) (log_n : nat) :
  1 <= log_n ->
  ((psi ^ Z.of_nat (2 ^ log_n)) mod M = (-1) mod M)%Z ->
  bit_reversed_powers M root_val roots psi log_n ->
  root_tree M root_val roots (2 ^ log_n).
Proof.
  intros Hlog Hpsi Htab. destruct log_n as [|l]; [lia|].
  pose proof (pow2_nonzero l) as Hnz. rewrite pow2_S in Hpsi.
  assert (Hsq : forall e : nat, ((psi ^ Z.of_nat e) ^ 2 = psi ^ Z.of_nat (2 * e))%Z).
  { intros e. rewrite <- Z.pow_mul_r by lia. f_equal. lia. }
  split.
  - assert (R1 : 1 <= 1 < 2 ^ S l) by (rewrite pow2_S; lia).
    rewrite (mod_square_congr M _ _ (Htab 1 R1)).
    change (reverse_bits (S l) 1) with (reverse_bits (S l) (2 * 0 + 1)).
    rewrite reverse_bits_double_1, reverse_bits_0, Nat.add_0_r, Hsq. exact Hpsi.
  - intros t Ht1 Ht2. rewrite pow2_S in Ht2.
    assert (Rt1 : 1 <= t < 2 ^ S l) by (rewrite pow2_S; lia).
    assert (Rt2 : 1 <= 2 * t < 2 ^ S l) by (rewrite pow2_S; lia).
    assert (Rt3 : 1 <= 2 * t + 1 < 2 ^ S l) by (rewrite pow2_S; lia).
    pose proof (Htab t Rt1) as Rt.
    rewrite reverse_bits_low in Rt by lia.
    split.
    + rewrite (mod_square_congr M _ _ (Htab (2 * t) Rt2)).
      rewrite reverse_bits_double, Hsq, Rt. reflexivity.
    + rewrite (mod_square_congr M _ _ (Htab (2 * t + 1) Rt3)).
      rewrite reverse_bits_double_1, Hsq.
      replace (2 * (2 ^ l + reverse_bits l t)) with (2 * 2 ^ l + 2 * reverse_bits l t) by lia.
      rewrite (psi_shift M psi _ _ Hpsi).
      symmetry. apply mod_opp_congr, Rt.
Qed.

Lemma eval_point_power {RootType : Type} (M : Z) (root_val : RootType -> Z)
    (roots : list RootType) (psi : Z) (log_n p : nat) :
  1 <= log_n ->
  ((psi ^ Z.of_nat (2 ^ log_n)) mod M = (-1) mod M)%Z ->
  bit_reversed_powers M root_val roots psi log_n ->
  p < 2 ^ log_n ->
  (eval_point root_val roots log_n p mod M
   = psi ^ Z.of_nat (2 * reverse_bits log_n p + 1) mod M)%Z.
Proof.
  intros Hlog Hpsi Htab Hp. destruct log_n as [|l]; [lia|].
  unfold eval_point. replace (S l - 1) with l by lia.
  assert (Hq : p / 2 < 2 ^ l).
  { rewrite pow2_S in Hp. apply Nat.Div0.div_lt_upper_bound. lia. }
  assert (Rq : 1 <= 2 ^ l + p / 2 < 2 ^ S l).
  { pose proof (pow2_nonzero l). rewrite pow2_S. lia. }
  pose proof (Htab _ Rq) as Hr. rewrite reverse_bits_top in Hr by assumption.
  rewrite pow2_S in Hpsi.
  destruct (Nat.even p) eqn:Hev; cbn zeta.
  - apply Nat.even_spec in Hev. destruct Hev as [h ->].
    replace (2 * h / 2) with h in Hr by (rewrite Nat.mul_comm, Nat.div_mul; lia).
    replace (2 * h / 2) with h by (rewrite Nat.mul_comm, Nat.div_mul; lia).
    rewrite reverse_bits_double, Hr. f_equal. f_equal. lia.
  - assert (Hodd : Nat.odd p = true) by (rewrite <- Nat.negb_even, Hev; reflexivity).
    apply Nat.odd_spec in Hodd. destruct Hodd as [h ->].
    replace ((2 * h + 1) / 2) with h in Hr by (apply (Nat.div_unique _ 2 h 1); lia).
    replace ((2 * h + 1) / 2) with h by (apply (Nat.div_unique _ 2 h 1); lia).
    rewrite reverse_bits_double_1.
    replace (2 * (2 ^ l + reverse_bits l h) + 1)
      with (2 * 2 ^ l + (1 + 2 * reverse_bits l h)) by lia.
    rewrite (psi_shift M psi _ _ Hpsi). apply mod_opp_congr, Hr.
Qed.


Lemma mod_combination (M alpha beta r ax ay bx by' cx cy a' b' c' : Z) :
  (cx mod M = (alpha * ax + beta * bx) mod M ->
   cy mod M = (alpha * ay + beta * by') mod M ->
   a' mod M = (ax + ay * r) mod M ->
   b' mod M = (bx + by' * r) mod M ->
   c' mod M = (cx + cy * r) mod M ->
   c' mod M = (alpha * a' + beta * b') mod M)%Z.
Proof.
  intros Hcx Hcy Ha Hb Hc.
  rewrite Hc.
  rewrite (mod_sum_product M cx cy _ _ r Hcx Hcy).
  rewrite (Zplus_mod (alpha * a')), (Zmult_mod alpha a'), (Zmult_mod beta b'), Ha, Hb.
  rewrite <- !Zmult_mod, <- Zplus_mod. f_equal. ring.
Qed.

Lemma mod_combination_diff (M alpha beta r ax ay bx by' cx cy a' b' c' : Z) :
  (cx mod M = (alpha * ax + beta * bx) mod M ->
   cy mod M = (alpha * ay + beta * by') mod M ->
   a' mod M = (ax - ay * r) mod M ->
   b' mod M = (bx - by' * r) mod M ->
   c' mod M = (cx - cy * r) mod M ->
   c' mod M = (alpha * a' + beta * b') mod M)%Z.
Proof.
  intros Hcx Hcy Ha Hb Hc.
  rewrite Hc.
  rewrite (mod_diff_product M cx cy _ _ r Hcx Hcy).
  rewrite (Zplus_mod (alpha * a')), (Zmult_mod alpha a'), (Zmult_mod beta b'), Ha, Hb.
  rewrite <- !Zmult_mod, <- Zplus_mod. f_equal. ring.
Qed.

(** A stage of butterflies keeps linear combinations. *)
Lemma combination_step {RootType : Type} (M alpha beta : Z) (root_val : RootType -> Z)
    (roots : list RootType) (gap rounds m : nat) (a b c a' b' c' : list Z) :
  length a' = 2 * gap * m -> length b' = 2 * gap * m -> length c' = 2 * gap * m ->
  combination M alpha beta a b c ->
  butterflies M root_val roots gap rounds (m * gap) a a' ->
  butterflies M root_val roots gap rounds (m * gap) b b' ->
  butterflies M root_val roots gap rounds (m * gap) c c' ->
  combination M alpha beta a' b' c'.
Proof.
  intros La Lb Lc (_ & _ & Hcomb) Ba Bb Bc.
  split; [congruence|]. split; [congruence|].
  intros p x y z Hx Hy Hz.
  assert (Hp : p < 2 * gap * m) by (rewrite <- Lc; eapply lookup_lt_Some, Hz).
  destruct (GapLE4_slots_cover gap m p Hp) as (ind & Hind & Hslot).
  destruct (Ba ind Hind) as (ax & ay & ax' & ay' & Hax & Hay & Hax' & Hay' & Eax & Eay).
  destruct (Bb ind Hind) as (bx & by' & bx' & by'' & Hbx & Hby & Hbx' & Hby' & Ebx & Eby).
  destruct (Bc ind Hind) as (cx & cy & cx' & cy' & Hcx & Hcy & Hcx' & Hcy' & Ecx & Ecy).
  pose proof (Hcomb _ _ _ _ Hax Hbx Hcx) as Cx.
  pose proof (Hcomb _ _ _ _ Hay Hby Hcy) as Cy.
  unfold stage_slot_x, stage_slot_y in *.
  destruct Hslot as [-> | ->].
  - rewrite Hax' in Hx. rewrite Hbx' in Hy. rewrite Hcx' in Hz.
    inversion Hx; inversion Hy; inversion Hz; subst.
    exact (mod_combination M alpha beta _ ax ay bx by' cx cy _ _ _ Cx Cy Eax Ebx Ecx).
  - rewrite Hay' in Hx. rewrite Hby' in Hy. rewrite Hcy' in Hz.
    inversion Hx; inversion Hy; inversion Hz; subst.
    exact (mod_combination_diff M alpha beta _ ax ay bx by' cx cy _ _ _ Cx Cy Eay Eby Ecy).
Qed.

Lemma reachable_combination
    {RootType ScalarType : Type} `{Arith : DwtArith RootType ScalarType}
    (M : Z) (roots : list RootType) (root_val : RootType -> Z)
    (scalar_val : ScalarType -> Z) (log_n : nat) (alpha beta : Z) (a b c : list Z) :
  1 <= log_n <= 31 -> 2 ^ log_n <= length roots ->
  word_fits M -> range_contract M -> exact_contract M root_val scalar_val ->
  length a = 2 ^ log_n -> length b = 2 ^ log_n -> length c = 2 ^ log_n ->
  Forall (below (4 * M)) a -> Forall (below (4 * M)) b -> Forall (below (4 * M)) c ->
  combination M alpha beta a b c ->
  forall k sa sb sc,
    at_iteration M roots log_n a k sa ->
    at_iteration M roots log_n b k sb ->
    at_iteration M roots log_n c k sc ->
    combination M alpha beta (q_values (ls_queue sa)) (q_values (ls_queue sb))
                (q_values (ls_queue sc)).
Proof.
  intros Hlog Hroots Hfits Hranges Hexact La Lb Lc Ha Hb Hc Hcomb.
  induction k as [|k IH]; intros sa sb sc Hsa Hsb Hsc.
  - inversion Hsa; inversion Hsb; inversion Hsc; subst. exact Hcomb.
  - inversion Hsa as [|ka sa0 sa' Hata Hconda Hbodya]; subst.
    inversion Hsb as [|kb sb0 sb' Hatb Hcondb Hbodyb]; subst.
    inversion Hsc as [|kc sc0 sc' Hatc Hcondc Hbodyc]; subst.
    destruct (iteration_butterflies M roots root_val scalar_val log_n a k sa0 sa
                Hlog La Hroots Hfits Hranges Hexact Ha Hata Hconda Hbodya) as [Ba La'].
    destruct (iteration_butterflies M roots root_val scalar_val log_n b k sb0 sb
                Hlog Lb Hroots Hfits Hranges Hexact Hb Hatb Hcondb Hbodyb) as [Bb Lb'].
    destruct (iteration_butterflies M roots root_val scalar_val log_n c k sc0 sc
                Hlog Lc Hroots Hfits Hranges Hexact Hc Hatc Hcondc Hbodyc) as [Bc Lc'].
    apply (combination_step M alpha beta root_val roots (stage_gap log_n k) (2 ^ k) (2 ^ k)
             (q_values (ls_queue sa0)) (q_values (ls_queue sb0)) (q_values (ls_queue sc0)));
      try assumption.
    apply (IH sa0 sb0 sc0); assumption.
Qed.

(** X10: the forward transform evaluates a polynomial.  For
    [1 <= log_n <= 31] and a root table that is a tree of square roots of [-1] modulo [M] (entry 1 squares to
    [-1], the entries [2t] and [2t+1] square to entry [t] and to its
    negative), a call without scalar on the [n] coefficients [a] below
    [4 * M] completes, and slot [p] of the output is the value modulo [M]
    of the polynomial [a] at the root of the last-round unit [p / 2],
    negated for odd [p]. *)
Theorem forward_transform_evaluates
    {RootType ScalarType : Type} `{Arith : DwtArith RootType ScalarType}
    (M : Z) (roots : list RootType) (root_val : RootType -> Z)
    (scalar_val : ScalarType -> Z) (log_n : nat) (a : list Z) :
  1 <= log_n <= 31 -> length a = 2 ^ log_n -> 2 ^ log_n <= length roots ->
  word_fits M -> range_contract M -> exact_contract M root_val scalar_val ->
  root_tree M root_val roots (2 ^ log_n) ->
  Forall (below (4 * M)) a ->
  exists out, transform M roots log_n None a = Done out /\
    length out = 2 ^ log_n /\
    forall p, p < 2 ^ log_n ->
      out !! p = Some (poly_eval a (eval_point root_val roots log_n p) mod M)%Z.
Proof.
  intros Hlog Hlen Hroots Hfits Hranges Hexact Htree Ha.
  destruct (transform_remainders M roots root_val scalar_val log_n a
              Hlog Hlen Hroots Hfits Hranges Hexact Htree Ha)
    as (out & Hout & Hl & Hcanon & Hrem).
  exists out. split; [exact Hout|]. split; [exact Hl|].
  intros p Hp.
  destruct (lookup_lt_is_Some_2 out p) as [x Hx]; [lia|].
  rewrite Hx. f_equal.
  rewrite <- (remainders_last M root_val roots a log_n out p x (proj1 Hlog) Hlen Hrem Hx).
  symmetry. apply Z.mod_small. exact (Forall_lookup_1 _ _ _ _ Hcanon Hx).
Qed.

Lemma forward_transform_evaluates_witness :
  exists out,
    transform (Arith := spec_arith) 17%Z [0; 4; 2; 8]%Z 2 None [1; 2; 3; 4]%Z = Done out /\
    length out = 2 ^ 2 /\
    forall p, p < 2 ^ 2 ->
      out !! p = Some (poly_eval [1; 2; 3; 4]
                         (eval_point (fun r => r) [0; 4; 2; 8] 2 p) mod 17)%Z.
Proof.
  apply (forward_transform_evaluates (Arith := spec_arith) 17%Z [0; 4; 2; 8]%Z
           (fun r => r) (fun s => s));
    [lia | reflexivity | simpl; lia
    | apply spec_arith_fits; lia | apply spec_arith_ranges; lia
    | apply spec_arith_exact; lia
    | split; [reflexivity|];
      intros [|[|t]] H1 H2; simpl in H2; try lia; split; reflexivity
    | repeat constructor; unfold below; lia].
Defined.

(** X11: the documented use, for [1 <= log_n <= 31].  When the table holds the powers of [psi] in
    bit-reversed order, [psi^n] congruent to [-1] modulo [M], the output
    of a call without scalar is the sequence of the values of the input
    polynomial at the odd powers of [psi], in bit-reversed order: slot [p]
    holds its value at [psi^(2 * reverse_bits(p) + 1)], modulo [M]. *)
Theorem forward_transform_odd_powers
    {RootType ScalarType : Type} `{Arith : DwtArith RootType ScalarType}
    (M : Z) (roots : list RootType) (root_val : RootType -> Z)
    (scalar_val : ScalarType -> Z) (psi : Z) (log_n : nat) (a : list Z) :
  1 <= log_n <= 31 -> length a = 2 ^ log_n -> 2 ^ log_n <= length roots ->
  word_fits M -> range_contract M -> exact_contract M root_val scalar_val ->
  ((psi ^ Z.of_nat (2 ^ log_n)) mod M = (-1) mod M)%Z ->
  bit_reversed_powers M root_val roots psi log_n ->
  Forall (below (4 * M)) a ->
  exists out, transform M roots log_n None a = Done out /\
    length out = 2 ^ log_n /\
    forall p, p < 2 ^ log_n ->
      out !! p
      = Some (poly_eval a (psi ^ Z.of_nat (2 * reverse_bits log_n p + 1)) mod M)%Z.
Proof.
  intros Hlog Hlen Hroots Hfits Hranges Hexact Hpsi Htab Ha.
  destruct (transform_remainders M roots root_val scalar_val log_n a
              Hlog Hlen Hroots Hfits Hranges Hexact
              (bit_reversed_powers_tree M root_val roots psi log_n (proj1 Hlog) Hpsi Htab) Ha)
    as (out & Hout & Hl & Hcanon & Hrem).
  exists out. split; [exact Hout|]. split; [exact Hl|].
  intros p Hp.
  destruct (lookup_lt_is_Some_2 out p) as [x Hx]; [lia|].
  rewrite Hx. f_equal.
  rewrite <- (Z.mod_small x M) by exact (Forall_lookup_1 _ _ _ _ Hcanon Hx).
  rewrite (remainders_last M root_val roots a log_n out p x (proj1 Hlog) Hlen Hrem Hx).
  apply poly_eval_congr, eval_point_power; (assumption || lia).
Qed.

Lemma forward_transform_odd_powers_witness :
  exists out,
    transform (Arith := spec_arith) 17%Z [0; 4; 2; 8]%Z 2 None [1; 2; 3; 4]%Z = Done out /\
    length out = 2 ^ 2 /\
    forall p, p < 2 ^ 2 ->
      out !! p
      = Some (poly_eval [1; 2; 3; 4] (2 ^ Z.of_nat (2 * reverse_bits 2 p + 1)) mod 17)%Z.
Proof.
  apply (forward_transform_odd_powers (Arith := spec_arith) 17%Z [0; 4; 2; 8]%Z
           (fun r => r) (fun s => s));
    [lia | reflexivity | simpl; lia
    | apply spec_arith_fits; lia | apply spec_arith_ranges; lia
    | apply spec_arith_exact; lia
    | reflexivity
    | intros [|[|[|[|t]]]] Ht; simpl in Ht; try lia; reflexivity
    | repeat constructor; unfold below; lia].
Defined.

(** X12: for [1 <= log_n <= 31] the forward transform is linear modulo
    [M], whatever the root table holds: if the buffer [c] is slot by slot congruent to
    [alpha * a + beta * b], the calls without scalar on [a], [b] and [c]
    complete and every slot of the output for [c] is
    [(alpha * x + beta * y) mod M] for the values [x] and [y] of that slot
    in the outputs for [a] and [b]. *)
Theorem forward_transform_linear
    {RootType ScalarType : Type} `{Arith : DwtArith RootType ScalarType}
    (M : Z) (roots : list RootType) (root_val : RootType -> Z)
    (scalar_val : ScalarType -> Z) (log_n : nat) (alpha beta : Z) (a b c : list Z) :
  1 <= log_n <= 31 -> 2 ^ log_n <= length roots ->
  word_fits M -> range_contract M -> exact_contract M root_val scalar_val ->
  length a = 2 ^ log_n -> length b = 2 ^ log_n -> length c = 2 ^ log_n ->
  Forall (below (4 * M)) a -> Forall (below (4 * M)) b -> Forall (below (4 * M)) c ->
  combination M alpha beta a b c ->
  exists out_a out_b out_c,
    transform M roots log_n None a = Done out_a /\
    transform M roots log_n None b = Done out_b /\
    transform M roots log_n None c = Done out_c /\
    forall p x y z, out_a !! p = Some x -> out_b !! p = Some y -> out_c !! p = Some z ->
      z = ((alpha * x + beta * y) mod M)%Z.
Proof.
  intros Hlog Hroots Hfits Hranges Hexact La Lb Lc Ha Hb Hc Hcomb.
  destruct (Dwt_gpu_run M roots log_n a Hlog La Hroots None)
    as (sa & qa & _ & Hata & Hcalla & Hlasta & _).
  destruct (Dwt_gpu_run M roots log_n b Hlog Lb Hroots None)
    as (sb & qb & _ & Hatb & Hcallb & Hlastb & _).
  destruct (Dwt_gpu_run M roots log_n c Hlog Lc Hroots None)
    as (sc & qc & _ & Hatc & Hcallc & Hlastc & _).
  cbn [last_kernel run_kernel] in Hlasta, Hlastb, Hlastc.
  destruct (last_butterflies M roots root_val scalar_val log_n a sa _
              Hlog La Hroots Hfits Hranges Hexact Ha Hata Hlasta) as (Ba & Ca & La').
  destruct (last_butterflies M roots root_val scalar_val log_n b sb _
              Hlog Lb Hroots Hfits Hranges Hexact Hb Hatb Hlastb) as (Bb & Cb & Lb').
  destruct (last_butterflies M roots root_val scalar_val log_n c sc _
              Hlog Lc Hroots Hfits Hranges Hexact Hc Hatc Hlastc) as (Bc & Cc & Lc').
  exists (q_values qa), (q_values qb), (q_values qc).
  unfold transform. rewrite Hcalla, Hcallb, Hcallc.
  split; [reflexivity|]. split; [reflexivity|]. split; [reflexivity|].
  pose proof (reachable_combination M roots root_val scalar_val log_n alpha beta a b c
                Hlog Hroots Hfits Hranges Hexact La Lb Lc Ha Hb Hc Hcomb
                (log_n - 1) sa sb sc Hata Hatb Hatc) as Hpre.
  destruct (combination_step M alpha beta root_val roots 1 (2 ^ (log_n - 1))
              (2 ^ (log_n - 1)) _ _ _ _ _ _ La' Lb' Lc' Hpre Ba Bb Bc) as (_ & _ & Hpost).
  intros p x y z Hx Hy Hz.
  rewrite <- (Hpost p x y z Hx Hy Hz). symmetry. apply Z.mod_small.
  exact (Forall_lookup_1 _ _ _ _ Cc Hz).
Qed.

Lemma forward_transform_linear_witness :
  exists out_a out_b out_c,
    transform (Arith := spec_arith) 17%Z [0; 4; 2; 8]%Z 2 None [1; 2; 3; 4]%Z = Done out_a /\
    transform (Arith := spec_arith) 17%Z [0; 4; 2; 8]%Z 2 None [4; 3; 2; 1]%Z = Done out_b /\
    transform (Arith := spec_arith) 17%Z [0; 4; 2; 8]%Z 2 None [5; 5; 5; 5]%Z = Done out_c /\
    forall p x y z, out_a !! p = Some x -> out_b !! p = Some y -> out_c !! p = Some z ->
      z = ((1 * x + 1 * y) mod 17)%Z.
Proof.
  apply (forward_transform_linear (Arith := spec_arith) 17%Z [0; 4; 2; 8]%Z
           (fun r => r) (fun s => s));
    [lia | simpl; lia
    | apply spec_arith_fits; lia | apply spec_arith_ranges; lia
    | apply spec_arith_exact; lia
    | reflexivity | reflexivity | reflexivity
    | repeat constructor; unfold below; lia
    | repeat constructor; unfold below; lia
    | repeat constructor; unfold below; lia
    | split; [reflexivity|split; [reflexivity|]];
      intros [|[|[|[|p]]]] x y z Hx Hy Hz; simpl in Hx, Hy, Hz;
      inversion Hx; inversion Hy; inversion Hz; reflexivity ].
Defined.

(** X13: for [1 <= log_n <= 31] a call with a scalar leaves the output of the call without
    scalar, every slot multiplied by the scalar, with the slots [2i] and
    [2i+1] exchanged. *)
Theorem scalar_call_swapped
    {RootType ScalarType : Type} `{Arith : DwtArith RootType ScalarType}
    (M : Z) (roots : list RootType) (root_val : RootType -> Z)
    (scalar_val : ScalarType -> Z) (log_n : nat) (s : ScalarType) (values : list Z) :
  1 <= log_n <= 31 -> length values = 2 ^ log_n -> 2 ^ log_n <= length roots ->
  word_fits M -> range_contract M -> exact_contract M root_val scalar_val ->
  Forall (below (4 * M)) values ->
  exists plain scaled,
    transform M roots log_n None values = Done plain /\
    transform M roots log_n (Some s) values = Done scaled /\
    scaled = swap_pairs (scale_buffer M s plain).
Proof.
  intros Hlog Hlen Hroots Hfits Hranges Hexact Hv.
  destruct (Dwt_gpu_run M roots log_n values Hlog Hlen Hroots None)
    as (st & q & Hloop & Hat & Hcall & Hlast & _).
  destruct (Dwt_gpu_run M roots log_n values Hlog Hlen Hroots (Some s))
    as (st' & q' & Hloop' & _ & Hcall' & Hlast' & _).
  assert (st' = st) by congruence. subst st'.
  cbn [last_kernel run_kernel] in Hlast, Hlast'.
  pose proof (reachable_control _ _ _ _ Hlog _ _ Hat) as C.
  pose proof (half_size log_n (proj1 Hlog)) as Hhalf.
  assert (Hl : length (q_values (ls_queue st)) = 2 * 2 ^ (log_n - 1)).
  { rewrite (control_length _ _ _ _ C), Hhalf; assumption. }
  assert (Hr : 2 ^ (log_n - 1) + 2 ^ (log_n - 1) <= length roots) by lia.
  destruct (scalar_merge_swapped M roots root_val scalar_val (2 ^ (log_n - 1))
              (2 ^ (log_n - 1)) s (q_values (ls_queue st)) Hfits Hranges Hexact Hl Hr)
    as (plain & scaled & Hp & Hs & Heq).
  { exact (reachable_range M roots log_n values Hlog Hlen Hroots Hfits Hranges Hv _ _ Hat). }
  exists plain, scaled. unfold transform. rewrite Hcall, Hcall'.
  cbn [mbind outcome_bind]. repeat split; [congruence|congruence|exact Heq].
Qed.

Lemma scalar_call_swapped_witness :
  exists plain scaled,
    transform (Arith := spec_arith) 17%Z [0; 4; 2; 8]%Z 2 None [1; 2; 3; 4]%Z = Done plain /\
    transform (Arith := spec_arith) 17%Z [0; 4; 2; 8]%Z 2 (Some 9%Z) [1; 2; 3; 4]%Z
    = Done scaled /\
    scaled = swap_pairs (scale_buffer 17%Z 9%Z plain).
Proof.
  apply (scalar_call_swapped (Arith := spec_arith) 17%Z [0; 4; 2; 8]%Z
           (fun r => r) (fun s => s));
    [lia | reflexivity | simpl; lia
    | apply spec_arith_fits; lia | apply spec_arith_ranges; lia
    | apply spec_arith_exact; lia
    | repeat constructor; unfold below; lia].
Defined.

(** X14: what an interior stage computes.  On a buffer of [m] groups of
    [2 * gap] values below [4 * M] the small-gap dispatch completes, and
    for every group [i] and every [j < gap] it has replaced the values
    [vx] and [vy] of the slots [i * 2 * gap + j] and
    [i * 2 * gap + j + gap] by values congruent modulo [M] to
    [vx + vy * r] and [vx - vy * r], [r] the root of the group. *)
Theorem interior_stage_butterflies
    {RootType ScalarType : Type} `{Arith : DwtArith RootType ScalarType}
    (M : Z) (roots : list RootType) (root_val : RootType -> Z)
    (scalar_val : ScalarType -> Z) (gap rounds m : nat) (values : list Z) :
  word_fits M -> range_contract M -> exact_contract M root_val scalar_val ->
  gap <> 0 -> length values = 2 * gap * m -> rounds + m <= length roots ->
  Forall (below (4 * M)) values ->
  exists after,
    parallel_for (m * gap) (DwtGapLE4 M roots gap rounds) values = Done after /\
    forall i j, i < m -> j < gap ->
      exists r vx vy x' y',
        roots !! (rounds + i) = Some r /\
        values !! (i * (2 * gap) + j) = Some vx /\
        values !! (i * (2 * gap) + j + gap) = Some vy /\
        after !! (i * (2 * gap) + j) = Some x' /\
        after !! (i * (2 * gap) + j + gap) = Some y' /\
        (x' mod M = (vx + vy * root_val r) mod M)%Z /\
        (y' mod M = (vx - vy * root_val r) mod M)%Z.
Proof.
  intros Hfits Hranges Hexact Hg Hlen Hroots Hv.
  destruct (small_gap_dispatch M roots gap rounds m values Hg Hlen Hroots)
    as (after & Hrun & Hd).
  exists after. split; [exact Hrun|].
  intros i j Hi Hj.
  assert (Hind : gap * i + j < m * gap) by nia.
  assert (Hsome : forall ind, ind < m * gap -> is_Some (roots !! (rounds + ind / gap))).
  { intros ind H. apply lookup_lt_is_Some_2. pose proof (group_lt _ _ _ H). lia. }
  destruct (interior_units_exact M roots root_val scalar_val Hfits Hranges Hexact
              gap rounds m values after Hd Hv Hsome (gap * i + j) Hind)
    as (vx & vy & x' & y' & Hvx & Hvy & Hax & Hay & Hx' & Hy').
  unfold stage_slot_x, stage_slot_y in *. rewrite DwtGapLE4_offset_eq in *.
  destruct (div_mod_compose gap i j Hj) as [Hdiv Hmod].
  rewrite Hdiv, Hmod in *.
  replace (i * (gap * 2)) with (i * (2 * gap)) in * by lia.
  destruct (lookup_lt_is_Some_2 roots (rounds + i)) as [r Hr]; [lia|].
  unfold root_at in Hx', Hy'. rewrite Hr in Hx', Hy'. cbn [from_option] in Hx', Hy'.
  exists r, vx, vy, x', y'. repeat split; assumption.
Qed.

Lemma interior_stage_butterflies_witness :
  exists after,
    parallel_for (1 * 2) (DwtGapLE4 (Arith := spec_arith) 17%Z [0; 4; 2; 8]%Z 2 1)
                 [1; 2; 3; 4]%Z = Done after /\
    forall i j, i < 1 -> j < 2 ->
      exists r vx vy x' y',
        [0; 4; 2; 8]%Z !! (1 + i) = Some r /\
        [1; 2; 3; 4]%Z !! (i * (2 * 2) + j) = Some vx /\
        [1; 2; 3; 4]%Z !! (i * (2 * 2) + j + 2) = Some vy /\
        after !! (i * (2 * 2) + j) = Some x' /\
        after !! (i * (2 * 2) + j + 2) = Some y' /\
        (x' mod 17 = (vx + vy * r) mod 17)%Z /\
        (y' mod 17 = (vx - vy * r) mod 17)%Z.
Proof.
  apply (interior_stage_butterflies (Arith := spec_arith) 17%Z [0; 4; 2; 8]%Z
           (fun r => r) (fun s => s));
    [apply spec_arith_fits; lia | apply spec_arith_ranges; lia
    | apply spec_arith_exact; lia
    | lia | reflexivity | simpl; lia
    | repeat constructor; unfold below; lia].
Defined.

(** ** Products of polynomials and the transform *)

Lemma poly_eval_add a b x :
  poly_eval (poly_add a b) x = (poly_eval a x + poly_eval b x)%Z.
Proof.
  revert b. induction a as [|c a IH]; intros [|d b]; cbn [poly_add poly_eval]; try lia.
  rewrite IH. ring.
Qed.

Lemma poly_eval_scale c a x : poly_eval (poly_scale c a) x = (c * poly_eval a x)%Z.
Proof.
  induction a as [|d a IH]; cbn [poly_scale fmap list_fmap poly_eval]; [lia|].
  unfold poly_scale in IH. rewrite IH. ring.
Qed.

Lemma poly_eval_mul a b x :
  poly_eval (poly_mul a b) x = (poly_eval a x * poly_eval b x)%Z.
Proof.
  induction a as [|c a IH]; cbn [poly_mul poly_eval]; [lia|].
  rewrite poly_eval_add, poly_eval_scale. cbn [poly_eval]. rewrite IH. ring.
Qed.

Lemma length_poly_add a b : length (poly_add a b) = max (length a) (length b).
Proof.
  revert b. induction a as [|c a IH]; intros [|d b]; cbn [poly_add length]; try lia.
  rewrite IH. lia.
Qed.

Lemma length_poly_mul a b : length (poly_mul a b) <= length a + length b.
Proof.
  induction a as [|c a IH]; cbn [poly_mul length]; [lia|].
  rewrite length_poly_add. unfold poly_scale. rewrite length_fmap. cbn [length]. lia.
Qed.

Lemma strided_sum_extend c (x : Z) d :
  strided_sum c 0 1 x (length c + d) = poly_eval c x.
Proof.
  induction d as [|d IH].
  - rewrite Nat.add_0_r. apply strided_sum_poly_eval.
  - replace (length c + S d) with (S (length c + d)) by lia.
    cbn [strided_sum]. rewrite IH.
    rewrite (lookup_ge_None_2 c) by lia. cbn [default from_option]. lia.
Qed.

Lemma strided_sum_shift c (x : Z) n m :
  strided_sum c 0 1 x (n + m)
  = (strided_sum c 0 1 x n + x ^ Z.of_nat n * strided_sum c n 1 x m)%Z.
Proof.
  induction m as [|m IH].
  - rewrite Nat.add_0_r. cbn [strided_sum]. lia.
  - replace (n + S m) with (S (n + m)) by lia.
    cbn [strided_sum]. rewrite IH.
    replace (0 + (n + m) * 1) with (n + m * 1) by lia.
    rewrite Nat2Z.inj_add, Z.pow_add_r by lia. ring.
Qed.

Lemma strided_sum_fold n c (x : Z) cnt :
  cnt <= n ->
  strided_sum (fold_negacyclic n c) 0 1 x cnt
  = (strided_sum c 0 1 x cnt - strided_sum c n 1 x cnt)%Z.
Proof.
  induction cnt as [|cnt IH]; intros Hcnt; [reflexivity|].
  cbn [strided_sum]. rewrite IH by lia.
  replace (0 + cnt * 1) with cnt by lia.
  replace (n + cnt * 1) with (cnt + n) by lia.
  unfold fold_negacyclic at 1.
  rewrite list_lookup_fmap, lookup_seq_lt by lia.
  cbn [fmap option_fmap option_map default from_option id Nat.add]. ring.
Qed.

Lemma length_fold_negacyclic n c : length (fold_negacyclic n c) = n.
Proof. unfold fold_negacyclic. rewrite length_fmap. apply length_seq. Qed.

Lemma poly_eval_fold (M : Z) n c (x : Z) :
  length c <= 2 * n ->
  ((x ^ Z.of_nat n) mod M = (-1) mod M ->
   poly_eval (fold_negacyclic n c) x mod M = poly_eval c x mod M)%Z.
Proof.
  intros Hlen Hx.
  rewrite <- (strided_sum_poly_eval (fold_negacyclic n c)), length_fold_negacyclic.
  rewrite strided_sum_fold by lia.
  rewrite <- (strided_sum_extend c x (2 * n - length c)).
  replace (length c + (2 * n - length c)) with (n + n) by lia.
  rewrite strided_sum_shift.
  rewrite (Zplus_mod (strided_sum c 0 1 x n)), (Zmult_mod (x ^ Z.of_nat n)), Hx.
  rewrite <- Zmult_mod, <- Zplus_mod. f_equal; ring.
Qed.

Lemma poly_eval_mod_coefficients (M : Z) l (x : Z) :
  (poly_eval ((fun v => v mod M) <$> l) x mod M = poly_eval l x mod M)%Z.
Proof.
  induction l as [|c l IH]; [reflexivity|].
  cbn [fmap list_fmap poly_eval].
  change (list_fmap Z Z (fun v => (v mod M)%Z) l) with ((fun v => (v mod M)%Z) <$> l).
  rewrite Zplus_mod, Zmod_mod, (Zmult_mod x), IH, <- Zmult_mod, <- Zplus_mod.
  reflexivity.
Qed.

(** The evaluation points are roots of [X^n + 1]. *)
Lemma block_point_order {RootType : Type} (M : Z) (root_val : RootType -> Z)
    (roots : list RootType) (log_n : nat) :
  root_tree M root_val roots (2 ^ log_n) ->
  forall k i, k <= log_n -> i < 2 ^ k ->
    ((block_point root_val roots k i ^ Z.of_nat (2 ^ k)) mod M = (-1) mod M)%Z.
Proof.
  intros Htree. induction k as [|k IH]; intros i Hk Hi.
  - reflexivity.
  - rewrite pow2_S in Hi.
    assert (Hhalf : i / 2 < 2 ^ k) by (apply Nat.Div0.div_lt_upper_bound; lia).
    pose proof (tree_square M root_val roots log_n k (i / 2) Htree ltac:(lia) Hhalf) as Hsq.
    rewrite pow2_S.
    replace (Z.of_nat (2 * 2 ^ k)) with (2 * Z.of_nat (2 ^ k))%Z by lia.
    rewrite Z.pow_mul_r by lia.
    rewrite <- (IH (i / 2)) by lia.
    apply pow_congr.
    rewrite <- Hsq. cbn [block_point].
    destruct (Nat.even i); cbn zeta; f_equal; ring.
Qed.

(** X16: the convolution theorem.  For [1 <= log_n <= 31] and a root
    table that is a tree of
    square roots of [-1] modulo [M], the transform of the negacyclic
    convolution of two vectors (the product of the two polynomials modulo
    [X^n + 1] and [M]) is the slot-by-slot product modulo [M] of their
    transforms. *)
Theorem transform_of_convolution
    {RootType ScalarType : Type} `{Arith : DwtArith RootType ScalarType}
    (M : Z) (roots : list RootType) (root_val : RootType -> Z)
    (scalar_val : ScalarType -> Z) (log_n : nat) (a b : list Z) :
  1 <= log_n <= 31 -> 2 ^ log_n <= length roots ->
  word_fits M -> range_contract M -> exact_contract M root_val scalar_val ->
  root_tree M root_val roots (2 ^ log_n) ->
  length a = 2 ^ log_n -> length b = 2 ^ log_n ->
  Forall (below (4 * M)) a -> Forall (below (4 * M)) b ->
  exists out_a out_b out_c,
    transform M roots log_n None a = Done out_a /\
    transform M roots log_n None b = Done out_b /\
    transform M roots log_n None (negacyclic_convolution M (2 ^ log_n) a b)
    = Done out_c /\
    forall p x y z, out_a !! p = Some x -> out_b !! p = Some y -> out_c !! p = Some z ->
      z = ((x * y) mod M)%Z.
Proof.
  intros Hlog Hroots Hfits Hranges Hexact Htree La Lb Ha Hb.
  assert (HM : (0 < M)%Z) by (destruct Hfits; assumption).
  set (c := negacyclic_convolution M (2 ^ log_n) a b).
  assert (Lc : length c = 2 ^ log_n).
  { unfold c, negacyclic_convolution. rewrite length_fmap. apply length_fold_negacyclic. }
  assert (Hc : Forall (below (4 * M)) c).
  { unfold c, negacyclic_convolution. apply Forall_fmap, Forall_forall.
    intros v _. unfold below. cbn. pose proof (Z.mod_pos_bound v M HM). lia. }
  destruct (transform_remainders M roots root_val scalar_val log_n a
              Hlog La Hroots Hfits Hranges Hexact Htree Ha)
    as (oa & Hoa & _ & Ca & Ra).
  destruct (transform_remainders M roots root_val scalar_val log_n b
              Hlog Lb Hroots Hfits Hranges Hexact Htree Hb)
    as (ob & Hob & _ & Cb & Rb).
  destruct (transform_remainders M roots root_val scalar_val log_n c
              Hlog Lc Hroots Hfits Hranges Hexact Htree Hc)
    as (oc & Hoc & Loc & Cc & Rc).
  exists oa, ob, oc. split; [exact Hoa|]. split; [exact Hob|]. split; [exact Hoc|].
  intros p x y z Hx Hy Hz.
  assert (Hp : p < 2 ^ log_n) by (rewrite <- Loc; eapply lookup_lt_Some, Hz).
  pose proof (remainders_last M root_val roots a log_n oa p x (proj1 Hlog) La Ra Hx) as Ex.
  pose proof (remainders_last M root_val roots b log_n ob p y (proj1 Hlog) Lb Rb Hy) as Ey.
  pose proof (remainders_last M root_val roots c log_n oc p z (proj1 Hlog) Lc Rc Hz) as Ez.
  rewrite <- (Z.mod_small z M) by exact (Forall_lookup_1 _ _ _ _ Cc Hz).
  rewrite Ez. unfold c, negacyclic_convolution.
  rewrite poly_eval_mod_coefficients.
  rewrite (poly_eval_fold M).
  - rewrite poly_eval_mul, Zmult_mod, <- Ex, <- Ey, <- Zmult_mod. reflexivity.
  - pose proof (length_poly_mul a b). lia.
  - rewrite <- block_point_last by (assumption || lia).
    apply (block_point_order M root_val roots log_n Htree); [lia|assumption].
Qed.

Lemma transform_of_convolution_witness :
  exists out_a out_b out_c,
    transform (Arith := spec_arith) 17%Z [0; 4; 2; 8]%Z 2 None [1; 2; 3; 4]%Z = Done out_a /\
    transform (Arith := spec_arith) 17%Z [0; 4; 2; 8]%Z 2 None [4; 3; 2; 1]%Z = Done out_b /\
    transform (Arith := spec_arith) 17%Z [0; 4; 2; 8]%Z 2 None
      (negacyclic_convolution 17 (2 ^ 2) [1; 2; 3; 4]%Z [4; 3; 2; 1]%Z) = Done out_c /\
    forall p x y z, out_a !! p = Some x -> out_b !! p = Some y -> out_c !! p = Some z ->
      z = ((x * y) mod 17)%Z.
Proof.
  apply (transform_of_convolution (Arith := spec_arith) 17%Z [0; 4; 2; 8]%Z
           (fun r => r) (fun s => s));
    [lia | simpl; lia
    | apply spec_arith_fits; lia | apply spec_arith_ranges; lia
    | apply spec_arith_exact; lia
    | split; [reflexivity|];
      intros [|[|t]] H1 H2; simpl in H2; try lia; split; reflexivity
    | reflexivity | reflexivity
    | repeat constructor; unfold below; lia
    | repeat constructor; unfold below; lia].
Defined.

(** ** The root offset beyond the range of [int] *)

Lemma int_rounds_2_31 : int_rounds (2 ^ 31) = Z.to_nat (2 ^ 64 - 2 ^ 31).
Proof.
  unfold int_rounds. rewrite Nat2Z.inj_pow.
  change (Z.of_nat 2) with 2%Z. change (Z.of_nat 31) with 31%Z.
  apply (f_equal Z.to_nat). vm_compute. reflexivity.
Qed.

Section Narrowing.
Context {RootType ScalarType : Type} `{Arith : DwtArith RootType ScalarType}.
Variable modulus : Z.
Variable roots : list RootType.

(** The loop variables [m] and [total_r] do not depend on what the
    dispatches do: the loop faults or leaves with both at [n / 2]. *)
Lemma stage_loop_shape log_n :
  1 <= log_n ->
  forall fuel k (st : loop_state ScalarType),
    k < log_n -> ls_m st = 2 ^ k -> ls_total_r st = 2 ^ k ->
    log_n - 1 - k <= fuel ->
    stage_loop modulus roots fuel (2 ^ log_n) st = Fault \/
    exists st', stage_loop modulus roots fuel (2 ^ log_n) st = Done st' /\
                ls_m st' = 2 ^ (log_n - 1) /\ ls_total_r st' = 2 ^ (log_n - 1).
Proof.
  intros Hlog.
  assert (Hcond : forall k (st : loop_state ScalarType), ls_m st = 2 ^ k ->
            (stage_cond (2 ^ log_n) st = true <-> S k < log_n)).
  { intros k st Hm. rewrite stage_cond_eq, bool_decide_eq_true, Hm, pow2_half by lia.
    rewrite pow2_lt. lia. }
  assert (Hend : forall k (st : loop_state ScalarType), k < log_n ->
            ls_m st = 2 ^ k -> ls_total_r st = 2 ^ k ->
            stage_cond (2 ^ log_n) st = false ->
            ls_m st = 2 ^ (log_n - 1) /\ ls_total_r st = 2 ^ (log_n - 1)).
  { intros k st Hk Hm Htr Hc. rewrite Hm, Htr.
    assert (k = log_n - 1) as ->; [|split; reflexivity].
    destruct (decide (S k < log_n)) as [Hlt|Hge]; [|lia].
    apply (Hcond k st Hm) in Hlt. congruence. }
  induction fuel as [|fuel IH]; intros k st Hk Hm Htr Hfuel; cbn [stage_loop];
    destruct (stage_cond (2 ^ log_n) st) eqn:Hc.
  - apply (Hcond k st Hm) in Hc. lia.
  - right. exists st. split; [reflexivity|]. eapply Hend; eassumption.
  - apply (Hcond k st Hm) in Hc.
    destruct (stage_body modulus roots st) as [st1| |] eqn:Hbody.
    + cbn [mbind outcome_bind].
      assert (Hst1 : ls_m st1 = ls_m st * 2 /\ ls_total_r st1 = ls_total_r st + ls_m st).
      { rewrite stage_body_eq in Hbody.
        apply bind_Done_inv in Hbody as (q' & _ & Hst).
        inversion Hst. split; reflexivity. }
      destruct Hst1 as [Hm1 Htr1].
      apply (IH (S k) st1); [lia | | | lia].
      * rewrite Hm1, Hm, pow2_S. lia.
      * rewrite Htr1, Htr, Hm, pow2_S. lia.
    + left. reflexivity.
    + exfalso. exact (stage_body_not_OutOfFuel modulus roots st Hbody).
  - right. exists st. split; [reflexivity|]. eapply Hend; eassumption.
Qed.

End Narrowing.

(** X17: from [log_n = 32] on the offset [total_r] does not fit the [int]
    the kernels take.  A call for [2^32] points builds its last round
    from the offset [2^31]; the kernel sees it as [2^64 - 2^31], and the
    call faults on every root table of fewer entries, whatever the buffer
    and the scalar. *)
Theorem narrowed_offset_faults
    {RootType ScalarType : Type} `{Arith : DwtArith RootType ScalarType}
    (modulus : Z) (roots : list RootType) (scalar : option ScalarType)
    (values : list Z) :
  (Z.of_nat (length roots) < 2 ^ 64 - 2 ^ 31)%Z ->
  Dwt_gpu modulus roots 32 scalar values = Fault.
Proof.
  intros Hroots. rewrite Dwt_gpu_eq.
  destruct (stage_loop_shape modulus roots 32 ltac:(lia) 32 0
              (initial_state (2 ^ 32) values))
    as [->|(st & -> & Hm & Htr)];
    [lia | reflexivity | reflexivity | lia | reflexivity |].
  cbn [mbind outcome_bind]. rewrite Hm, Htr.
  replace (32 - 1) with 31 by reflexivity. rewrite int_rounds_2_31.
  assert (Hlast : submit modulus roots (2 ^ 31)
                    (last_kernel scalar (Z.to_nat (2 ^ 64 - 2 ^ 31))) (ls_queue st)
                  = Fault).
  { unfold submit, parallel_for.
    rewrite (run_units_Fault _ _ 0); [reflexivity| | |].
    - apply elem_of_seq. pose proof (pow2_nonzero 31). lia.
    - intros vs. apply run_kernel_short_roots.
      destruct scalar; cbn [last_kernel root_index]; lia.
    - intros a vs. apply run_kernel_not_OutOfFuel. }
  destruct scalar; exact Hlast.
Qed.

Lemma narrowed_offset_faults_witness :
  Dwt_gpu (Arith := spec_arith) 17%Z [0; 4; 2; 8]%Z 32 None [1; 2; 3; 4]%Z = Fault.
Proof.
  apply (narrowed_offset_faults (Arith := spec_arith)). reflexivity.
Defined.
